(** * SharePoint upload action: a shallow embedding of [main.py] and
      [sharepoint_upload.py], and the properties of the synchronisation pass.

    The two scripts are modelled as programs in a small monad that threads
    the history of what the process has done so far (HTTP requests with the
    responses they received, printed log lines, pauses).  The remote store is
    an arbitrary function from that history and a request to a response, the
    local directory is a finite tree of entries, and file contents are read
    through a path-indexed view of the file system.  Whether [requests]
    takes an upload URL or refuses it before sending anything is an
    arbitrary check of the URL, so that every statement holds of the check
    [requests] really makes. *)

From Stdlib Require Import ZArith Lia.
From Stdlib Require Import Strings.String Strings.Ascii Init.Byte.
From stdpp Require Import base option list gmap strings sorting.
From Equations Require Import Equations.

Local Open Scope string_scope.
Local Open Scope Z_scope.
Local Open Scope list_scope.

(** ** Requests, responses, events *)

(** An entry of the [value] array of a children listing.  [item_has_file] is
    ['file' in item], [item_has_folder] is ['folder' in item]. *)
Record Item := mkItem {
  item_name : string;
  item_id : string;
  item_has_file : bool;
  item_has_folder : bool
}.

(** Each constructor stands for the [requests] call whose URL, headers and
    body are formatted from the listed fields. *)
Inductive Request :=
| GetChildren (authorization site_id drive_id api_path : string)
| DeleteItem (authorization site_id drive_id item_id : string)
| CreateUploadSession (authorization site_id drive_id sharepoint_file_path : string)
| PutChunk (upload_url : string) (start_index end_index file_size : Z)
           (chunk : list byte).

(** What the scripts read of the JSON document of a response:
    [.get('value', [])] and [.get('uploadUrl')]. *)
Record Body := mkBody {
  value : list Item;
  uploadUrl : option string
}.

(** A response: its [status_code], and the document [json()] returns, [None]
    when the body is not JSON and [json()] raises.  The documents are JSON
    objects, as the Graph API sends them; a body that is JSON without being
    an object, on which [.get] would fail, is not modelled. *)
Record Response := mkResponse {
  status_code : Z;
  json : option Body
}.

(** The lines the scripts print, one constructor per [print] call. *)
Inductive Msg :=
| MsgTokenAcquired
| MsgTokenError
| MsgTokenErrorField (key : string)
| MsgFolderNotFound (base_folder : string)
| MsgListError (item_path : string) (status : Z)
| MsgResponseText
| MsgDeleted (item_id : string)
| MsgDeleteError (item_id : string) (status : Z)
| MsgSessionError (sharepoint_file_path : string) (status : Z)
| MsgResponseJson
| MsgNoUploadUrl (sharepoint_file_path : string)
| MsgChunkError (sharepoint_file_path : string) (status : Z)
| MsgUploaded (sharepoint_file_path : string)
| MsgFileNotFound (local_file_path : string)
| MsgIgnoring (relative_path : string)
| MsgFoundToDelete (count : nat)
| MsgDeleting (file_path : string)
| MsgInSync
| MsgDeletionsDisabled
| MsgInfo (line : string).

Inductive Event :=
| Http (rq : Request) (rs : Response)
| Print (m : Msg)
| Sleep.

(** How a Python computation ends: a value, [exit(code)], or an exception
    that no handler of the scripts catches. *)
Inductive Exn :=
| RecursionError | FileNotFoundError | MissingSchema | InvalidSchema
| InvalidURL | KeyError | JSONDecodeError.

Inductive Outcome (A : Type) :=
| Ret (a : A)
| Exit (code : Z)
| Raise (e : Exn).
Arguments Ret {A} a.
Arguments Exit {A} code.
Arguments Raise {A} e.

(** ** The monad: history in, emitted events and outcome out *)

Definition History := list Event.
Definition M (A : Type) := History → list Event * Outcome A.

Definition ret {A} (a : A) : M A := λ _, ([], Ret a).

Definition bind {A B} (m : M A) (k : A → M B) : M B := λ h,
  let '(e1, r) := m h in
  match r with
  | Ret a => let '(e2, r2) := k a (h ++ e1)%list in ((e1 ++ e2)%list, r2)
  | Exit c => (e1, Exit c)
  | Raise x => (e1, Raise x)
  end.

Definition emit (e : Event) : M unit := λ _, ([e], Ret tt).
Definition print (m : Msg) : M unit := emit (Print m).
Definition exit {A} (code : Z) : M A := λ _, ([], Exit code).
Definition raise {A} (e : Exn) : M A := λ _, ([], Raise e).

Declare Scope prog_scope.
Delimit Scope prog_scope with prog.
Notation "x <- m ;; k" := (bind m (λ x, k))
  (at level 100, m at next level, k at level 200, right associativity)
  : prog_scope.
Notation "m ;;; k" := (bind m (λ _, k))
  (at level 100, k at level 200, right associativity) : prog_scope.

(** Python's [f'{x}'] of an access token that may be [None]. *)
Definition fstr_opt (x : option string) : string :=
  match x with Some s => s | None => "None" end.

Definition bearer (access_token : option string) : string :=
  "Bearer " +:+ fstr_opt access_token.

(** [f.read(n)] on a binary file whose unread content is [f]: the bytes read
    and the content left; a negative [n] reads to the end.  Structural in
    the content, so that it evaluates with the scripts' chunk sizes. *)
Fixpoint read (n : Z) (f : list byte) : list byte * list byte :=
  match f with
  | [] => ([], [])
  | b :: f' =>
      if n =? 0 then ([], f)
      else let '(c, rest) := read (n - 1) f' in (b :: c, rest)
  end.

(** [200 <= status_code <= 204] *)
Definition accepted (status : Z) : bool := (200 <=? status) && (status <=? 204).

(** How the body of [while True] is left: [break], or [return] from the
    enclosing function. *)
Inductive LoopExit := Break | Return.

(** Remember the equation of a case analysis. *)
Definition inspect {A} (a : A) : {b : A | a = b} := exist _ a eq_refl.

(** Why [requests] refuses a URL before anything is sent: it has no scheme
    ([MissingSchema]), no connection adapter serves its scheme
    ([InvalidSchema]), or it cannot be parsed or names no host
    ([InvalidURL]). *)
Inductive UrlError := NoScheme | NoAdapter | Unparsable.

Definition url_exn (e : UrlError) : Exn :=
  match e with
  | NoScheme => MissingSchema
  | NoAdapter => InvalidSchema
  | Unparsable => InvalidURL
  end.

(** [requests.put(url, ...)] before anything is sent: the exception it
    raises, or the URL the request goes to.  [None] (formatted as the text
    [None]) and the empty string have no scheme; what [requests] makes of
    any other string is given by [url_error], the verdict of its URL
    preparation and adapter lookup, [None] when it accepts the URL. *)
Definition put_target (url_error : string → option UrlError)
    (upload_url : option string) : UrlError + string :=
  match upload_url with
  | Some u =>
      if decide (u = "") then inl NoScheme
      else match url_error u with
           | Some e => inl e
           | None => inr u
           end
  | None => inl NoScheme
  end.

(** ** The transfer loop shared by the two scripts

    [main.py] (lines 113-124, cursor [start_index], 4 MiB chunks) and
    [sharepoint_upload.py] (lines 91-112, cursor [chunks_uploaded], 1 MiB
    chunks) run the same loop, up to the statements [report] that print a
    rejected chunk before the [return]; [f] is the unread content of the
    open file and [start_index] the cursor at the top of the iteration. *)
Section Transfer.
Variable server : History → Request → Response.
(** What [requests] makes of a URL, see [put_target]. *)
Variable url_error : string → option UrlError.

Definition request (rq : Request) : M Response := λ h,
  let rs := server h rq in ([Http rq rs], Ret rs).

(** [response.json()] *)
Definition response_json (response : Response) : M Body :=
  match json response with
  | Some doc => ret doc
  | None => raise JSONDecodeError
  end.

Equations? transfer_loop (report : Response → M unit)
    (upload_url : option string) (file_size chunk_size : Z)
    (f : list byte) (start_index : Z)
    (h : History) : list Event * Outcome LoopExit by wf (length f) lt :=
  transfer_loop report upload_url file_size chunk_size f start_index h
    with inspect (read chunk_size f) => {
    | @exist ([], _) _ => ([], Ret Break);
    | @exist (b :: c, rest) E =>
        let chunk := b :: c in
        let end_index := start_index + Z.of_nat (length chunk) - 1 in
        match put_target url_error upload_url with
        | inl e => ([], Raise (url_exn e))
        | inr url =>
            let rq := PutChunk url start_index end_index file_size chunk in
            let upload_response := server h rq in
            if accepted (status_code upload_response) then
              let '(es, r) :=
                transfer_loop report upload_url file_size chunk_size rest
                              (end_index + 1)
                              (h ++ [Http rq upload_response])%list in
              (Http rq upload_response :: es, r)
            else
              let '(es, r) :=
                bind (report upload_response) (λ _, ret Return)
                     (h ++ [Http rq upload_response])%list in
              (Http rq upload_response :: es, r)
        end }.
Proof.
  clear -E. revert chunk_size b c rest E.
  induction f as [|x f IH]; intros n b c rest E; simpl in E; [done|].
  destruct (n =? 0); [done|].
  destruct (read (n - 1) f) as [c' rest'] eqn:R.
  injection E as -> -> ->. destruct c as [|y c]; simpl.
  - destruct f; simpl in R; [injection R as <-; simpl; lia|].
    destruct (n - 1 =? 0); [injection R as <-; simpl; lia|].
    by destruct (read (n - 1 - 1) f).
  - specialize (IH _ _ _ _ R). lia.
Qed.

(** [for x in l: body(x)] *)
Fixpoint for_each {A} (l : list A) (body : A → M unit) : M unit :=
  match l with
  | [] => ret tt
  | x :: l' => bind (body x) (λ _, for_each l' body)
  end.
End Transfer.

(** ** Paths (POSIX, where [os.path.sep] is ["/"], so that
    [.replace(os.path.sep, '/')] leaves a path as it is) *)

Definition starts_with_sep (s : string) : bool :=
  match s with String "/" _ => true | _ => false end.

Fixpoint ends_with_sep (s : string) : bool :=
  match s with
  | "" => false
  | String "/" "" => true
  | String _ s' => ends_with_sep s'
  end.

(** [os.path.join(a, b)] *)
Definition path_join (a b : string) : string :=
  if starts_with_sep b then b
  else if decide (a = "") then b
  else if ends_with_sep a then a +:+ b
  else a +:+ "/" +:+ b.

(** [os.path.relpath(p, LOCAL_DIRECTORY_PATH)] for a path [p] that [os.walk]
    reached from [LOCAL_DIRECTORY_PATH] through the entries named [comps]:
    the names joined by ["/"], and ["."] for the directory itself. *)
Fixpoint relpath (comps : list string) : string :=
  match comps with
  | [] => "."
  | [a] => a
  | a :: rest => a +:+ "/" +:+ relpath rest
  end.

(** ** The ignore rules

    [rules] is the predicate of a compiled [pathspec.PathSpec] on normalised
    paths; [match_file] first normalises its argument as
    [pathspec.util.normalize_file] does: a leading ["/"] or ["./"] is
    dropped. *)
Definition Rules := string → bool.

Definition normalize_file (file : string) : string :=
  match file with
  | String "/" s => s
  | String "." (String "/" s) => s
  | _ => file
  end.

Definition match_file (rules : Rules) (file : string) : bool :=
  rules (normalize_file file).

(** ** The local tree and [os.walk]

    A directory holds regular files and directories; symbolic links and
    unreadable entries are not modelled.  The tree is the one [os.walk]
    sees, [fs] below is what [os.path.exists], [os.path.getsize] and [open]
    see when a file is uploaded; nothing relates the two, so that a file can
    be gone by the time it is uploaded. *)

#[local] Unset Elimination Schemes.
Inductive Entry :=
| File (name : string)
| Dir (name : string) (entries : list Entry).
#[local] Set Elimination Schemes.

Definition entry_name (e : Entry) : string :=
  match e with File n => n | Dir n _ => n end.

Definition dirnames (entries : list Entry) : list string :=
  omap (λ e, match e with Dir n _ => Some n | File _ => None end) entries.

Definition filenames (entries : list Entry) : list string :=
  omap (λ e, match e with File n => Some n | Dir _ _ => None end) entries.

(** [l.remove(x)]: drops the first occurrence ([ValueError] when there is
    none, which the scripts rule out by testing [x in l] first). *)
Fixpoint list_remove (x : string) (l : list string) : list string :=
  match l with
  | [] => []
  | y :: l' => if decide (x = y) then l' else y :: list_remove x l'
  end.

(** The in-place edits of [dirs] at the head of the walk's body (lines
    139-141 of [main.py], 133-139 of [sharepoint_upload.py]); [rel] are the
    names from [LOCAL_DIRECTORY_PATH] down to [root]. *)
Definition prune (spec : option Rules) (rel : list string)
    (dirs : list string) : list string :=
  let dirs1 := if decide (".git" ∈ dirs) then list_remove ".git" dirs else dirs in
  match spec with
  | Some rules =>
      filter (λ d, match_file rules (path_join (relpath rel) d) = false) dirs1
  | None => dirs1
  end.

(** [os.walk(top, topdown=True)] below the directory entry [e], with the
    body's pruning: the [(root, files)] pairs in the order they are yielded,
    [root] given both as the path string and as the names [rel] below the
    top.  The entries of a directory have distinct names, so descending into
    the entries whose name is still in [dirs] is descending into each name
    left in [dirs]. *)
Fixpoint walk_dir (spec : option Rules) (root : string) (rel : list string)
    (e : Entry) {struct e} : list (string * list string * list string) :=
  match e with
  | File _ => []
  | Dir _ entries =>
      let dirs := prune spec rel (dirnames entries) in
      (root, rel, filenames entries) ::
      flat_map (λ e',
                 match e' with
                 | Dir d _ =>
                     if decide (d ∈ dirs)
                     then walk_dir spec (path_join root d) (rel ++ [d]) e'
                     else []
                 | File _ => []
                 end) entries
  end.

(** [os.walk(top, topdown=True)] for a directory [top] holding [entries]. *)
Definition os_walk (spec : option Rules) (top : string)
    (entries : list Entry) : list (string * list string * list string) :=
  walk_dir spec top [] (Dir top entries).

(** [sorted(list(s))] for a set of strings. *)
Definition sorted (s : gset string) : list string :=
  merge_sort String.le (elements s).

(** ** [main.py] *)
Module Main.

Record Config := mkConfig {
  SITE_ID : string;
  DRIVE_ID : string;
  LOCAL_DIRECTORY_PATH : string;
  SHAREPOINT_BASE_FOLDER : string;
  SYNC_DELETIONS : bool
}.

(** 4 * 1024 * 1024 *)
Definition chunk_size : Z := 4 * 1024 * 1024.

(** [response.raise_for_status()] raises [HTTPError] for these statuses. *)
Definition is_http_error (status : Z) : bool :=
  (400 <=? status) && (status <? 600).

Section Script.
Local Open Scope prog_scope.
Variable server : History → Request → Response.
(** What [requests] makes of a URL, see [put_target]. *)
Variable url_error : string → option UrlError.
(** The content of the regular file at a path, [None] when there is none. *)
Variable fs : string → option (list byte).
Variable cfg : Config.

(** [result] is [Some t] when the dictionary MSAL returns has an
    ["access_token"] entry [t]. *)
Definition get_access_token (result : option string) : M (option string) :=
  match result with
  | Some t =>
      print MsgTokenAcquired ;;;
      ret (Some t)
  | None =>
      print MsgTokenError ;;;
      print (MsgTokenErrorField "error") ;;;
      print (MsgTokenErrorField "error_description") ;;;
      print (MsgTokenErrorField "correlation_id") ;;;
      ret None
  end.

(** The [for item in items] loop of [get_remote_files_recursive]; [recurse]
    is the recursive call and [remote_files] the dictionary so far. *)
Fixpoint list_items (recurse : string → M (gmap string string))
    (item_path : string) (items : list Item)
    (remote_files : gmap string string) : M (gmap string string) :=
  match items with
  | [] => ret remote_files
  | item :: items' =>
      let current_path := path_join item_path (item_name item) in
      if item_has_file item then
        list_items recurse item_path items'
                   (<[current_path := item_id item]> remote_files)
      else if item_has_folder item then
        emit Sleep ;;;
        sub <- recurse current_path ;;
        list_items recurse item_path items' (sub ∪ remote_files)
      else list_items recurse item_path items' remote_files
  end.

(** [depth] is the number of nested calls the interpreter still allows;
    beyond it Python raises [RecursionError], which nothing catches. *)
Fixpoint get_remote_files_recursive (depth : nat)
    (access_token : option string) (site_id drive_id item_path : string)
    : M (gmap string string) :=
  match depth with
  | O => raise RecursionError
  | S depth' =>
      let api_path :=
        if decide (item_path = "")
        then "root:/" +:+ SHAREPOINT_BASE_FOLDER cfg
        else "root:/" +:+ SHAREPOINT_BASE_FOLDER cfg +:+ "/" +:+ item_path in
      response <- request server
                    (GetChildren (bearer access_token) site_id drive_id
                                 api_path) ;;
      if is_http_error (status_code response) then
        if decide (status_code response = 404) then
          print (MsgFolderNotFound (SHAREPOINT_BASE_FOLDER cfg)) ;;;
          ret ∅
        else
          print (MsgListError item_path (status_code response)) ;;;
          print MsgResponseText ;;;
          exit 1
      else
        doc <- response_json response ;;
        list_items
          (get_remote_files_recursive depth' access_token site_id drive_id)
          item_path (value doc) ∅
  end.

Definition delete_sharepoint_item (access_token : option string)
    (site_id drive_id item_id : string) : M unit :=
  response <- request server
                (DeleteItem (bearer access_token) site_id drive_id item_id) ;;
  if decide (status_code response = 204)
  then print (MsgDeleted item_id)
  else print (MsgDeleteError item_id (status_code response)).

(** Line 122, the report of a rejected chunk. *)
Definition report_chunk_error (sharepoint_file_path : string)
    (upload_response : Response) : M unit :=
  response_json upload_response ;;;
  print (MsgChunkError sharepoint_file_path (status_code upload_response)).

Definition upload_file_to_sharepoint (access_token : option string)
    (site_id drive_id local_file_path sharepoint_file_path : string)
    : M unit :=
  session_response <-
    request server
      (CreateUploadSession (bearer access_token) site_id drive_id
                           sharepoint_file_path) ;;
  if decide (status_code session_response ≠ 200) then
    response_json session_response ;;;
    print (MsgSessionError sharepoint_file_path
                           (status_code session_response))
  else
    doc <- response_json session_response ;;
    let upload_url := uploadUrl doc in
    match fs local_file_path with
    | None => raise FileNotFoundError
    | Some f =>
        let file_size := Z.of_nat (length f) in
        how <- transfer_loop server url_error
                             (report_chunk_error sharepoint_file_path)
                             upload_url file_size chunk_size f 0 ;;
        match how with
        | Break => print (MsgUploaded sharepoint_file_path)
        | Return => ret tt
        end
    end.

(** Lines 137-146: the set of relative paths of the files kept.  A compiled
    [PathSpec] without patterns counts as false in [if spec], and matches
    nothing. *)
Definition scan_files (spec : option Rules) (rel : list string)
    (files : list string) (local_files : gset string) : gset string :=
  foldl (λ acc filename,
           let relative_path := relpath (rel ++ [filename]) in
           match spec with
           | Some rules =>
               if match_file rules relative_path then acc
               else acc ∪ {[relative_path]}
           | None => acc ∪ {[relative_path]}
           end) local_files files.

Definition local_scan (spec : option Rules) (entries : list Entry)
    : gset string :=
  foldl (λ acc '(root, rel, files), scan_files spec rel files acc) ∅
        (os_walk spec (LOCAL_DIRECTORY_PATH cfg) entries).

(** Lines 152-168. *)
Definition deletion_step (token : option string)
    (local_files : gset string) (depth : nat) : M unit :=
  if SYNC_DELETIONS cfg then
    print (MsgInfo "Sync deletions enabled. Comparing remote files with local files...") ;;;
    remote_files_map <-
      get_remote_files_recursive depth token (SITE_ID cfg) (DRIVE_ID cfg) "" ;;
    let remote_files_set := dom remote_files_map in
    let files_to_delete := remote_files_set ∖ local_files in
    if decide (files_to_delete ≠ ∅) then
      print (MsgFoundToDelete (size files_to_delete)) ;;;
      for_each (sorted files_to_delete) (λ file_path,
        print (MsgDeleting file_path) ;;;
        match remote_files_map !! file_path with
        | Some item_id =>
            delete_sharepoint_item token (SITE_ID cfg) (DRIVE_ID cfg) item_id
        | None => raise KeyError
        end)
    else print MsgInSync
  else print MsgDeletionsDisabled.

(** Lines 171-175. *)
Definition upload_step (token : option string) (local_files : gset string)
    : M unit :=
  print (MsgInfo "Starting file uploads...") ;;;
  for_each (sorted local_files) (λ relative_path,
    let local_path := path_join (LOCAL_DIRECTORY_PATH cfg) relative_path in
    let sharepoint_path :=
      path_join (SHAREPOINT_BASE_FOLDER cfg) relative_path in
    upload_file_to_sharepoint token (SITE_ID cfg) (DRIVE_ID cfg)
                              local_path sharepoint_path).

(** The [__main__] block.  [spec] is the compiled [.gitignore] ([None]
    when the file is absent), [entries] the content of
    [LOCAL_DIRECTORY_PATH], [token_result] what MSAL answers. *)
Definition main (spec : option Rules) (entries : list Entry)
    (token_result : option string) (depth : nat) : M unit :=
  print (MsgInfo "Gathering local file list...") ;;;
  let local_files := local_scan spec entries in
  print (MsgInfo "Authenticating with Microsoft Graph...") ;;;
  token <- get_access_token token_result ;;
  deletion_step token local_files depth ;;;
  upload_step token local_files ;;;
  print (MsgInfo "Process finished.").
End Script.

End Main.

(** ** [sharepoint_upload.py] *)
Module Standalone.

Record Config := mkConfig {
  TENANT_ID : string;
  SITE_ID : string;
  DRIVE_ID : string;
  LOCAL_DIRECTORY_PATH : string;
  SHAREPOINT_BASE_FOLDER : string
}.

(** 1 * 1024 * 1024 *)
Definition chunk_size : Z := 1 * 1024 * 1024.

(** [needle in s] for strings. *)
Fixpoint contains (needle s : string) : bool :=
  String.prefix needle s ||
  match s with
  | "" => false
  | String _ s' => contains needle s'
  end.

(** Truth value of a token or of an upload URL: [None] and the empty string
    are false. *)
Definition truthy (token : option string) : bool :=
  match token with
  | Some t => if decide (t = "") then false else true
  | None => false
  end.

Section Script.
Local Open Scope prog_scope.
Variable server : History → Request → Response.
(** What [requests] makes of a URL, see [put_target]. *)
Variable url_error : string → option UrlError.
(** The content of the regular file at a path, [None] when there is none. *)
Variable fs : string → option (list byte).
Variable cfg : Config.

Definition get_access_token (result : option string) : M (option string) :=
  match result with
  | Some t =>
      print MsgTokenAcquired ;;;
      ret (Some t)
  | None =>
      print MsgTokenError ;;;
      print (MsgTokenErrorField "error") ;;;
      print (MsgTokenErrorField "error_description") ;;;
      print (MsgTokenErrorField "correlation_id") ;;;
      ret None
  end.

(** [gitignore] is the compiled content of [.gitignore], [None] when the
    file does not exist. *)
Definition get_gitignore_spec (gitignore : option Rules) : M (option Rules) :=
  match gitignore with
  | Some rules =>
      print (MsgInfo "Found .gitignore, applying rules.") ;;;
      ret (Some rules)
  | None =>
      print (MsgInfo "No .gitignore file found in the root directory.") ;;;
      ret None
  end.

(** Lines 108-109, the report of a rejected chunk. *)
Definition report_chunk_error (sharepoint_file_path : string)
    (upload_response : Response) : M unit :=
  print (MsgChunkError sharepoint_file_path (status_code upload_response)) ;;;
  response_json upload_response ;;;
  print MsgResponseJson.

Definition upload_file_to_sharepoint (access_token : option string)
    (site_id drive_id local_file_path sharepoint_file_path : string)
    : M unit :=
  match fs local_file_path with
  | None => print (MsgFileNotFound local_file_path)
  | Some f =>
      session_response <-
        request server
          (CreateUploadSession (bearer access_token) site_id drive_id
                               sharepoint_file_path) ;;
      if decide (status_code session_response ≠ 200) then
        print (MsgSessionError sharepoint_file_path
                               (status_code session_response)) ;;;
        response_json session_response ;;;
        print MsgResponseJson
      else
        doc <- response_json session_response ;;
        let upload_url := uploadUrl doc in
        if negb (truthy upload_url) then
          print (MsgNoUploadUrl sharepoint_file_path)
        else
          let file_size := Z.of_nat (length f) in
          how <- transfer_loop server url_error
                   (report_chunk_error sharepoint_file_path)
                   upload_url file_size chunk_size f 0 ;;
          match how with
          | Break => print (MsgUploaded sharepoint_file_path)
          | Return => ret tt
          end
  end.

(** The [for filename in files] loop, lines 141-160. *)
Definition upload_files (token : option string) (spec : option Rules)
    (root : string) (rel : list string) (files : list string) : M unit :=
  for_each files (λ filename,
    let local_path := path_join root filename in
    let relative_path := relpath (rel ++ [filename]) in
    if match spec with
       | Some rules => match_file rules relative_path
       | None => false
       end
    then print (MsgIgnoring relative_path)
    else
      let sharepoint_path :=
        path_join (SHAREPOINT_BASE_FOLDER cfg) relative_path in
      upload_file_to_sharepoint token (SITE_ID cfg) (DRIVE_ID cfg)
                                local_path sharepoint_path).

(** The [__main__] block.  [gitignore] is the compiled [.gitignore] ([None]
    when the file is absent), [entries] the content of
    [LOCAL_DIRECTORY_PATH] ([None] when that is not a directory),
    [token_result] what MSAL answers. *)
Definition main (gitignore : option Rules) (entries : option (list Entry))
    (token_result : option string) : M unit :=
  match entries with
  | Some entries =>
      if contains "YOUR_TENANT_ID" (TENANT_ID cfg) then
        print (MsgInfo "Please fill in your Azure AD and SharePoint details in the script.")
      else
        token <- get_access_token token_result ;;
        if truthy token then
          print (MsgInfo "Starting directory upload...") ;;;
          gitignore_spec <- get_gitignore_spec gitignore ;;
          for_each (os_walk gitignore_spec (LOCAL_DIRECTORY_PATH cfg) entries)
            (λ '(root, rel, files),
               upload_files token gitignore_spec root rel files) ;;;
          print (MsgInfo "Directory upload process finished.")
        else ret tt
  | None =>
      print (MsgInfo "Please fill in your Azure AD and SharePoint details in the script.") ;;;
      print (MsgInfo "Error: The specified local directory does not exist")
  end.
End Script.

End Standalone.

(** * Vocabulary of the properties *)

(** The chunk submissions of a run, in order: declared first byte, declared
    last byte, declared total and the bytes sent. *)
Definition puts (es : list Event) : list (Z * Z * Z * list byte) :=
  omap (λ e, match e with
             | Http (PutChunk _ s e t c) _ => Some (s, e, t, c)
             | _ => None
             end) es.

(** The inclusive byte ranges of the chunk submissions of a run. *)
Definition put_ranges (es : list Event) : list (Z * Z) :=
  (λ p, (p.1.1.1, p.1.1.2)) <$> puts es.

(** [rs] are non-empty ranges laid end to end from [c] up to [c']. *)
Fixpoint tiles (c : Z) (rs : list (Z * Z)) (c' : Z) : Prop :=
  match rs with
  | [] => c = c'
  | (s, e) :: rs' => s = c ∧ s ≤ e ∧ tiles (e + 1) rs' c'
  end.

(** What the chunk submissions [es] of one transfer of a file of [size]
    bytes to [sp] must satisfy: every range is non-empty and ends below
    [size]; the first starts at byte 0; each next one starts right after the
    previous one ends, so that later ranges lie strictly above earlier ones;
    every submission declares [size] as the total and carries as many bytes
    as its range spans; and when the transfer reports success the ranges
    cover exactly the bytes [0 .. size - 1].  The cursor of the loop takes
    the values [s] and then [e + 1] for each range [(s, e)]. *)
Definition byte_ranges_ok (size : Z) (sp : string) (es : list Event) : Prop :=
  let rs := put_ranges es in
  (∀ i s e, rs !! i = Some (s, e) → 0 ≤ s ≤ e ∧ e + 1 ≤ size) ∧
  (∀ s e, rs !! 0%nat = Some (s, e) → s = 0) ∧
  (∀ i s e s' e', rs !! i = Some (s, e) → rs !! S i = Some (s', e') →
                  s' = e + 1) ∧
  (∀ i j s e s' e', (i < j)%nat → rs !! i = Some (s, e) →
                    rs !! j = Some (s', e') → e < s') ∧
  (∀ s e t c, (s, e, t, c) ∈ puts es →
              t = size ∧ Z.of_nat (length c) = e - s + 1) ∧
  (Print (MsgUploaded sp) ∈ es →
   ∀ x, 0 ≤ x < size ↔ ∃ s e, (s, e) ∈ rs ∧ s ≤ x ≤ e).

(** The byte ranges that cut the bytes [start .. stop - 1] into pieces of
    [cs] bytes, the last one holding what is left: a range starts at the
    cursor and ends [cs] bytes further or at byte [stop - 1], whichever comes
    first.  [fuel] bounds the number of ranges. *)
Fixpoint ranges_from (fuel : nat) (cs start stop : Z) : list (Z * Z) :=
  match fuel with
  | O => []
  | S fuel' =>
      if start <? stop then
        let next := Z.min (start + cs) stop in
        (start, next - 1) :: ranges_from fuel' cs next stop
      else []
  end.

(** The ranges of a whole file of [size] bytes sent in chunks of [cs]
    bytes. *)
Definition chunk_ranges (cs size : Z) : list (Z * Z) :=
  ranges_from (Z.to_nat size) cs 0 size.

(** Classification of events. *)
Definition is_request (e : Event) : bool :=
  match e with Http _ _ => true | _ => false end.

Definition is_put (e : Event) : bool :=
  match e with Http (PutChunk _ _ _ _ _) _ => true | _ => false end.

Definition is_accepted_put (e : Event) : bool :=
  match e with
  | Http (PutChunk _ _ _ _ _) rs => accepted (status_code rs)
  | _ => false
  end.

Definition is_rejected_put (e : Event) : bool :=
  match e with
  | Http (PutChunk _ _ _ _ _) rs => negb (accepted (status_code rs))
  | _ => false
  end.

Definition is_create_session (e : Event) : bool :=
  match e with Http (CreateUploadSession _ _ _ _) _ => true | _ => false end.

Definition is_delete (e : Event) : bool :=
  match e with Http (DeleteItem _ _ _ _) _ => true | _ => false end.

Definition is_listing (e : Event) : bool :=
  match e with Http (GetChildren _ _ _ _) _ => true | _ => false end.

(** *** Local trees *)

(** Names of directory entries: not empty, not ["."] or [".."], and without
    a separator. *)
Fixpoint no_sep (s : string) : bool :=
  match s with
  | "" => true
  | String c s' => negb (Ascii.eqb c "/") && no_sep s'
  end.

Definition valid_name (n : string) : bool :=
  negb (String.eqb n "") && negb (String.eqb n ".") &&
  negb (String.eqb n "..") && no_sep n.

(** A well-formed directory content: valid names, no name twice in one
    directory, at every depth. *)
Fixpoint wf_entry (e : Entry) : bool :=
  match e with
  | File n => valid_name n
  | Dir n entries =>
      valid_name n && forallb wf_entry entries &&
      bool_decide (NoDup (entry_name <$> entries))
  end.

Definition wf_tree (entries : list Entry) : bool :=
  forallb wf_entry entries && bool_decide (NoDup (entry_name <$> entries)).

(** [target] is the content of the directory reached from [entries] through
    the directories named [dirs]. *)
Fixpoint dir_at (entries : list Entry) (dirs : list string)
    (target : list Entry) : Prop :=
  match dirs with
  | [] => target = entries
  | d :: dirs' => ∃ sub, Dir d sub ∈ entries ∧ dir_at sub dirs' target
  end.

(** The tree has a regular file [filename] in the directory [dirs]. *)
Definition has_file (entries : list Entry) (dirs : list string)
    (filename : string) : Prop :=
  ∃ target, dir_at entries dirs target ∧ File filename ∈ target.

(** The file [dirs/filename] is ignored: a rule matches its relative path,
    or the relative path of one of the directories above it. *)
Definition ignored (spec : option Rules) (dirs : list string)
    (filename : string) : Prop :=
  ∃ rules, spec = Some rules ∧
    (rules (relpath (dirs ++ [filename])) = true ∨
     ∃ pre, pre ≠ [] ∧ pre `prefix_of` dirs ∧ rules (relpath pre) = true).

(** No rule matches the relative path [p] of a file. *)
Definition file_kept (spec : option Rules) (p : string) : Prop :=
  ∀ rules, spec = Some rules → match_file rules p = false.

(** The directory [d] inside [rel] survives the pruning. *)
Definition step_kept (spec : option Rules) (rel : list string) (d : string)
    : Prop :=
  d ≠ ".git" ∧
  ∀ rules, spec = Some rules →
           match_file rules (path_join (relpath rel) d) = false.

Fixpoint path_kept (spec : option Rules) (rel : list string)
    (dirs : list string) : Prop :=
  match dirs with
  | [] => True
  | d :: dirs' => step_kept spec rel d ∧ path_kept spec (rel ++ [d]) dirs'
  end.

(** *** Runs *)

(** Every event a program can emit, from any history, satisfies [P]. *)
Definition emits {A} (P : Event → Prop) (m : M A) : Prop :=
  ∀ h, Forall P (m h).1.

(** The item ids of the DELETE requests of a run, in order. *)
Definition deletions (es : list Event) : list string :=
  omap (λ e, match e with
             | Http (DeleteItem _ _ _ item_id) _ => Some item_id
             | _ => None
             end) es.

(** The destination paths for which a run opened an upload session. *)
Definition sessions (es : list Event) : list string :=
  omap (λ e, match e with
             | Http (CreateUploadSession _ _ _ sp) _ => Some sp
             | _ => None
             end) es.

(** A children listing that failed with a status other than 404. *)
Definition is_fatal_listing (e : Event) : bool :=
  match e with
  | Http (GetChildren _ _ _ _) rs =>
      Main.is_http_error (status_code rs) &&
      negb (bool_decide (status_code rs = 404))
  | _ => false
  end.

(** An event of the listing phase: a children request, a line or a pause. *)
Definition is_listing_phase (e : Event) : bool :=
  is_listing e || negb (is_request e).

(** What a run of the remote listing can be: its events are children
    requests, lines and pauses; it ends with [exit(1)] exactly when its last
    request failed with a status other than 404, that request being followed
    by the two error lines only; otherwise no request of the run failed
    so. *)
Definition listing_run_ok {A} (run : list Event * Outcome A) : Prop :=
  Forall (λ e, is_listing_phase e = true) run.1 ∧
  match run.2 with
  | Exit c =>
      c = 1 ∧
      ∃ es' e item_path st,
        run.1 = es' ++ [e; Print (MsgListError item_path st);
                        Print MsgResponseText] ∧
        is_fatal_listing e = true ∧
        Forall (λ e, is_fatal_listing e = false) es'
  | _ => Forall (λ e, is_fatal_listing e = false) run.1
  end.

(** A run in which no listing failed fatally, or which is a listing run
    ended by [exit]. *)
Definition clean_or_aborted {A} (run : list Event * Outcome A) : Prop :=
  Forall (λ e, is_fatal_listing e = false) run.1 ∨
  (listing_run_ok run ∧ ∃ c, run.2 = Exit c).

(** A line printed for a rejected chunk. *)
Definition is_error_line (e : Event) : bool :=
  match e with
  | Print (MsgChunkError _ _) | Print MsgResponseJson => true
  | _ => false
  end.

(** Concrete inputs used to exercise the statements. *)
Definition demo_server : History → Request → Response := λ h rq,
  match rq with
  | GetChildren _ _ _ p =>
      if decide (p = "root:/Docs") then
        mkResponse 200 (Some (mkBody [mkItem "a.txt" "id1" true false;
                                      mkItem "old" "id2" false true;
                                      mkItem "stale.txt" "id3" true false]
                                     None))
      else if decide (p = "root:/Docs/old") then mkResponse 404 None
      else mkResponse 500 None
  | DeleteItem _ _ _ _ => mkResponse 204 None
  | CreateUploadSession _ _ _ _ =>
      mkResponse 200 (Some (mkBody [] (Some "https://up")))
  | PutChunk _ s _ _ _ => mkResponse 202 (Some (mkBody [] None))
  end.

(** A remote store that rejects, with JSON error documents: no deletion
    succeeds, no chunk is accepted, and no session can be opened for
    [Docs/sub/b.txt]. *)
Definition demo_flaky_server : History → Request → Response := λ h rq,
  match rq with
  | GetChildren _ _ _ _ => mkResponse 200 (Some (mkBody [] None))
  | DeleteItem _ _ _ _ => mkResponse 500 (Some (mkBody [] None))
  | CreateUploadSession _ _ _ sp =>
      if decide (sp = "Docs/sub/b.txt")
      then mkResponse 503 (Some (mkBody [] None))
      else mkResponse 200 (Some (mkBody [] (Some "https://up")))
  | PutChunk _ _ _ _ _ => mkResponse 500 (Some (mkBody [] None))
  end.

(** A remote store behind a gateway that answers the session request for
    [Docs/a.txt] with 503 and a body that is not JSON. *)
Definition demo_gateway_server : History → Request → Response := λ h rq,
  match rq with
  | CreateUploadSession _ _ _ sp =>
      if decide (sp = "Docs/a.txt") then mkResponse 503 None
      else mkResponse 200 (Some (mkBody [] (Some "https://up")))
  | PutChunk _ _ _ _ _ => mkResponse 202 (Some (mkBody [] None))
  | _ => mkResponse 200 (Some (mkBody [] None))
  end.

(** A URL check that accepts the [https] URLs and finds no scheme in any
    other string. *)
Definition demo_url_error : string → option UrlError := λ u,
  if String.prefix "https://" u then None else Some NoScheme.

(** A remote store whose session documents carry the upload URL [up],
    which has no scheme. *)
Definition demo_schemeless_server : History → Request → Response := λ h rq,
  match rq with
  | CreateUploadSession _ _ _ _ => mkResponse 200 (Some (mkBody [] (Some "up")))
  | PutChunk _ _ _ _ _ => mkResponse 202 (Some (mkBody [] None))
  | _ => mkResponse 200 (Some (mkBody [] None))
  end.

Definition demo_fs : string → option (list byte) := λ p,
  if decide (p = "/repo/a.txt") then Some ["x"; "y"; "z"]%byte
  else if decide (p = "/repo/sub/b.txt") then Some []
  else None.

(** A file of 4 MiB and one byte, more than one chunk for either script,
    and a file system that holds it. *)
Definition demo_big_file : list byte :=
  replicate (Z.to_nat (Main.chunk_size + 1)) "x"%byte.

Definition demo_big_fs : string → option (list byte) := λ p,
  if decide (p = "/repo/big.bin") then Some demo_big_file else None.

Definition demo_main_cfg : Main.Config :=
  Main.mkConfig "site" "drive" "/repo" "Docs" true.

(** A remote base folder whose listing [demo_server] answers with 500. *)
Definition demo_failing_cfg : Main.Config :=
  Main.mkConfig "site" "drive" "/repo" "Other" true.

Definition demo_alone_cfg : Standalone.Config :=
  Standalone.mkConfig "tenant" "site" "drive" "/repo" "Docs".

(** The rules [*.log] and [sub/build]. *)
Definition demo_rules : Rules := λ p,
  String.prefix "gol." (String.rev p) || bool_decide (p = "sub/build").

Definition demo_tree : list Entry :=
  [File "a.txt";
   Dir ".git" [File "config"];
   Dir "sub" [File "b.txt"; File "x.log"; Dir "build" [File "o"]];
   File "y.log"].

(** * Vocabulary of the further properties *)

(** The payloads of the chunk submissions of a run, in order. *)
Definition chunks (es : list Event) : list (list byte) := snd <$> puts es.

(** The URLs the chunk submissions of a run were sent to, in order. *)
Definition put_urls (es : list Event) : list string :=
  omap (λ e, match e with
             | Http (PutChunk u _ _ _ _) _ => Some u
             | _ => None
             end) es.

(** How the outcome of a loop or of the statements before a [return]
    carries over to the enclosing function, which returns [None]. *)
Definition finish {A} (r : Outcome A) : Outcome unit :=
  match r with
  | Ret _ => Ret tt
  | Exit c => Exit c
  | Raise x => Raise x
  end.

(** The run of an upload whose session was opened by the event [e0] and
    whose transfer loop ran as [loop]: the success line follows a loop left
    by [break]. *)
Definition transfer_run (sp : string) (e0 : Event)
    (loop : list Event * Outcome LoopExit) : list Event * Outcome unit :=
  (e0 :: loop.1 ++ match loop.2 with
                   | Ret Break => [Print (MsgUploaded sp)]
                   | _ => []
                   end,
   finish loop.2).

(** However the program ends, from any history: an exception it raises
    satisfies [E] and a status it exits with satisfies [C]. *)
Definition ends_with {A} (E : Exn → Prop) (C : Z → Prop) (m : M A) : Prop :=
  ∀ h, match (m h).2 with
       | Ret _ => True
       | Exit c => C c
       | Raise x => E x
       end.

(** The path of the children request for the folder [item_path] below the
    base folder (lines 52-57 of [main.py]). *)
Definition listing_api_path (base item_path : string) : string :=
  if decide (item_path = "") then "root:/" +:+ base
  else "root:/" +:+ base +:+ "/" +:+ item_path.

(** In the run [es], a children request for the folder [item_path] was
    answered without an HTTP error status by a document that lists
    [item]. *)
Definition listed (base : string) (tok : option string) (site drive : string)
    (es : list Event) (item_path : string) (item : Item) : Prop :=
  ∃ rs doc,
    Http (GetChildren (bearer tok) site drive (listing_api_path base item_path))
         rs ∈ es ∧
    Main.is_http_error (status_code rs) = false ∧
    json rs = Some doc ∧ item ∈ value doc.

(** The index [rm] holds the files listed in the run [es] and nothing
    else: each entry is the path and the id of a listed item that has a
    ['file'] key, and every such item has its path among the keys. *)
Definition indexes (base : string) (tok : option string) (site drive : string)
    (es : list Event) (rm : gmap string string) : Prop :=
  (∀ p id, rm !! p = Some id →
     ∃ item_path item,
       listed base tok site drive es item_path item ∧
       item_has_file item = true ∧
       p = path_join item_path (item_name item) ∧ id = item_id item) ∧
  (∀ item_path item,
     listed base tok site drive es item_path item →
     item_has_file item = true →
     path_join item_path (item_name item) ∈ dom rm).

(** The events [es] fall into two phases: events that satisfy [P], then
    events that satisfy [Q]. *)
Definition in_two_phases (P Q : Event → Prop) (es : list Event) : Prop :=
  ∃ before after, es = before ++ after ∧ Forall P before ∧ Forall Q after.

(** An event of the deletion loop: a DELETE request or one of its lines. *)
Definition is_deletion_event (e : Event) : bool :=
  match e with
  | Http (DeleteItem _ _ _ _) _ => true
  | Print (MsgDeleting _) | Print (MsgDeleted _) | Print (MsgDeleteError _ _) =>
      true
  | _ => false
  end.

(** The statuses with which the chunk submissions of a run were answered,
    in order. *)
Definition put_statuses (es : list Event) : list Z :=
  omap (λ e, match e with
             | Http (PutChunk _ _ _ _ _) rs => Some (status_code rs)
             | _ => None
             end) es.

(** A Graph request that carries the authorization header, the site and the
    drive given, or an event that is not a Graph request. *)
Definition addressed_to (authorization site drive : string) (e : Event)
    : Prop :=
  match e with
  | Http (GetChildren a s d _) _ | Http (DeleteItem a s d _) _
  | Http (CreateUploadSession a s d _) _ =>
      a = authorization ∧ s = site ∧ d = drive
  | _ => True
  end.

(** * Properties *)

(** ** The monad *)

Lemma bind_ret_l {A B} (a : A) (k : A → M B) h : bind (ret a) k h = k a h.
Proof.
  unfold bind, ret. rewrite app_nil_r. by destruct (k a h).
Qed.

Lemma bind_emit {B} (e : Event) (k : unit → M B) h :
  bind (emit e) k h = let '(es, r) := k tt (h ++ [e]) in (e :: es, r).
Proof. unfold bind, emit. by destruct (k tt (h ++ [e])). Qed.

Lemma bind_print {B} (m : Msg) (k : unit → M B) h :
  bind (print m) k h = let '(es, r) := k tt (h ++ [Print m]) in (Print m :: es, r).
Proof. apply bind_emit. Qed.

Lemma bind_request {B} server rq (k : Response → M B) h :
  bind (request server rq) k h =
  let rs := server h rq in
  let '(es, r) := k rs (h ++ [Http rq rs]) in (Http rq rs :: es, r).
Proof. unfold bind, request. simpl. by destruct (k _ _). Qed.

Lemma bind_assoc {A B C} (m : M A) (k1 : A → M B) (k2 : B → M C) h :
  bind (bind m k1) k2 h = bind m (λ a, bind (k1 a) k2) h.
Proof.
  unfold bind. destruct (m h) as [e1 [a|c|x]]; [|done..].
  destruct (k1 a (h ++ e1)) as [e2 [b|c|x]]; [|done..].
  rewrite <- !app_assoc. destruct (k2 b (h ++ e1 ++ e2)) as [e3 r].
  by rewrite app_assoc.
Qed.

Lemma bind_events {A B} (m : M A) (k : A → M B) h :
  (bind m k h).1 =
  (m h).1 ++ match (m h).2 with
             | Ret a => (k a (h ++ (m h).1)).1
             | _ => []
             end.
Proof.
  unfold bind. destruct (m h) as [e1 [a|c|x]]; simpl; [|by rewrite app_nil_r..].
  by destruct (k a (h ++ e1)).
Qed.

Lemma bind_outcome {A B} (m : M A) (k : A → M B) h :
  (bind m k h).2 =
  match (m h).2 with
  | Ret a => (k a (h ++ (m h).1)).2
  | Exit c => Exit c
  | Raise x => Raise x
  end.
Proof.
  unfold bind. destruct (m h) as [e1 [a|c|x]]; simpl; [|done..].
  by destruct (k a (h ++ e1)).
Qed.

Lemma bind_run {A B} (m : M A) (k : A → M B) h es a :
  m h = (es, Ret a) →
  bind m k h = let '(es2, r) := k a (h ++ es) in (es ++ es2, r).
Proof. intros E. unfold bind. by rewrite E. Qed.

Lemma run_cons_events {A} e (run : list Event * Outcome A) :
  (let '(es, r) := run in (e :: es, r)).1 = e :: run.1.
Proof. by destruct run. Qed.

Lemma run_cons_outcome {A} e (run : list Event * Outcome A) :
  (let '(es, r) := run in (e :: es, r)).2 = run.2.
Proof. by destruct run. Qed.

(** ** Events of composed programs *)

Lemma emits_ret {A} P (a : A) : emits P (ret a).
Proof. intros h. apply Forall_nil_2. Qed.

Lemma emits_exit {A} P c : emits P (@exit A c).
Proof. intros h. apply Forall_nil_2. Qed.

Lemma emits_raise {A} P x : emits P (@raise A x).
Proof. intros h. apply Forall_nil_2. Qed.

Lemma emits_emit (P : Event → Prop) e : P e → emits P (emit e).
Proof. intros H h. by apply Forall_singleton. Qed.

Lemma emits_print (P : Event → Prop) m : P (Print m) → emits P (print m).
Proof. apply emits_emit. Qed.

Lemma emits_request (P : Event → Prop) server rq :
  (∀ rs, P (Http rq rs)) → emits P (request server rq).
Proof. intros H h. by apply Forall_singleton. Qed.

Lemma emits_bind {A B} P (m : M A) (k : A → M B) :
  emits P m → (∀ a, emits P (k a)) → emits P (bind m k).
Proof.
  intros Hm Hk h. rewrite bind_events. apply Forall_app. split; [apply Hm|].
  destruct (m h).2; [apply Hk|apply Forall_nil_2..].
Qed.

Lemma emits_for_each {A} P (l : list A) (body : A → M unit) :
  (∀ x, x ∈ l → emits P (body x)) → emits P (for_each l body).
Proof.
  induction l as [|x l IH]; intros H; simpl; [apply emits_ret|].
  apply emits_bind; [apply H; left|]. intros _. apply IH.
  intros y Hy. apply H. by right.
Qed.

Lemma emits_mono {A} (P Q : Event → Prop) (m : M A) :
  emits P m → (∀ e, P e → Q e) → emits Q m.
Proof. intros Hm HPQ h. eapply Forall_impl; [apply Hm|done]. Qed.

(** What [for_each] leaves of a run when every iteration returns. *)
Lemma for_each_omap {A B} (proj : Event → option B) (g : A → list B)
    (l : list A) (body : A → M unit) h :
  (∀ x h', x ∈ l → (body x h').2 = Ret tt ∧ omap proj (body x h').1 = g x) →
  (for_each l body h).2 = Ret tt ∧
  omap proj (for_each l body h).1 = concat (g <$> l).
Proof.
  revert h. induction l as [|x l IH]; intros h H; simpl; [done|].
  rewrite bind_outcome, bind_events.
  destruct (H x h) as [Hr Hg]; [left|]. rewrite Hr.
  destruct (IH (h ++ (body x h).1)) as [Hr' Hg'].
  { intros y h' Hy. apply H. by right. }
  split; [done|]. by rewrite omap_app, Hg, Hg'.
Qed.

Lemma bind_response_json {B} (rs : Response) (k : Body → M B) h :
  bind (response_json rs) k h =
  match json rs with
  | Some doc => k doc h
  | None => ([], Raise JSONDecodeError)
  end.
Proof.
  unfold response_json. destruct (json rs); [apply bind_ret_l|done].
Qed.

Lemma emits_response_json P rs : emits P (response_json rs).
Proof.
  unfold response_json. destruct (json rs); [apply emits_ret|apply emits_raise].
Qed.

Lemma tiles_le c rs c' : tiles c rs c' → c ≤ c'.
Proof.
  revert c. induction rs as [|[s e] rs IH]; intros c; simpl; [lia|].
  intros (-> & ? & H%IH). lia.
Qed.

Lemma tiles_lookup c rs c' i s e :
  tiles c rs c' → rs !! i = Some (s, e) → c ≤ s ∧ s ≤ e ∧ e + 1 ≤ c'.
Proof.
  revert c i. induction rs as [|[s0 e0] rs IH]; intros c i; simpl; [done|].
  intros (-> & ? & H). destruct i as [|i]; simpl.
  - intros [= -> ->]. apply tiles_le in H. lia.
  - intros Hi. specialize (IH _ _ H Hi). lia.
Qed.

Lemma tiles_next c rs c' i s e s' e' :
  tiles c rs c' → rs !! i = Some (s, e) → rs !! S i = Some (s', e') →
  s' = e + 1.
Proof.
  revert c i. induction rs as [|[s0 e0] rs IH]; intros c i; simpl; [done|].
  intros (-> & ? & H). destruct i as [|i]; simpl.
  - intros [= -> ->]. destruct rs as [|[s1 e1] rs]; simpl; [done|].
    intros [= -> ->]. simpl in H. lia.
  - eauto.
Qed.

Lemma tiles_increasing c rs c' i j s e s' e' :
  tiles c rs c' → (i < j)%nat → rs !! i = Some (s, e) →
  rs !! j = Some (s', e') → e < s'.
Proof.
  revert c i j. induction rs as [|[s0 e0] rs IH]; intros c i j; simpl; [done|].
  intros (-> & ? & H) Hij. destruct i as [|i], j as [|j]; simpl; try lia.
  - intros [= -> ->] Hj. pose proof (tiles_lookup _ _ _ _ _ _ H Hj). lia.
  - apply (IH _ _ _ H). lia.
Qed.

Lemma tiles_cover c rs c' x :
  tiles c rs c' → c ≤ x < c' ↔ ∃ s e, (s, e) ∈ rs ∧ s ≤ x ≤ e.
Proof.
  revert c. induction rs as [|[s0 e0] rs IH]; intros c; simpl.
  - intros ->. split; [lia|]. intros (s & e & H & _). by apply elem_of_nil in H.
  - intros (-> & ? & H). specialize (IH _ H). split.
    + intros Hx. destruct (decide (x ≤ e0)).
      * exists c, e0. split; [left|lia].
      * destruct IH as [IH _]. destruct IH as (s & e & ? & ?); [lia|].
        exists s, e. split; [by right|done].
    + intros (s & e & [[= -> ->]|Hin]%elem_of_cons & Hx).
      * apply tiles_le in H. lia.
      * destruct IH as [_ IH]. specialize (IH (ex_intro _ s (ex_intro _ e (conj Hin Hx)))). lia.
Qed.

Lemma byte_ranges_ok_intro size sp es c' :
  tiles 0 (put_ranges es) c' → c' ≤ size →
  Forall (λ p, p.1.2 = size ∧ p.2 ≠ [] ∧
               p.1.1.2 = p.1.1.1 + Z.of_nat (length p.2) - 1) (puts es) →
  (Print (MsgUploaded sp) ∈ es → c' = size) →
  byte_ranges_ok size sp es.
Proof.
  intros Ht Hle Hf Hup. unfold byte_ranges_ok. split_and!.
  - intros i s e Hi. pose proof (tiles_lookup _ _ _ _ _ _ Ht Hi). lia.
  - intros s e Hi. destruct (put_ranges es) as [|[??] ?]; simplify_eq/=. by destruct Ht.
  - intros i s e s' e'. apply tiles_next with (1 := Ht).
  - intros i j s e s' e'. apply tiles_increasing with (1 := Ht).
  - intros s e t c Hin. rewrite Forall_forall in Hf.
    apply Hf in Hin. simpl in Hin. lia.
  - intros Hin x. rewrite <- (Hup Hin). by apply tiles_cover.
Qed.

Lemma puts_app es1 es2 : puts (es1 ++ es2) = puts es1 ++ puts es2.
Proof. apply omap_app. Qed.

Lemma put_ranges_app es1 es2 :
  put_ranges (es1 ++ es2) = put_ranges es1 ++ put_ranges es2.
Proof. unfold put_ranges. by rewrite puts_app, fmap_app. Qed.

Lemma puts_cons_put url s e t c rs es :
  puts (Http (PutChunk url s e t c) rs :: es) = (s, e, t, c) :: puts es.
Proof. reflexivity. Qed.

(** ** Reading a file in chunks *)

Lemma read_app n f : (read n f).1 ++ (read n f).2 = f.
Proof.
  revert n. induction f as [|b f IH]; intros n; simpl; [done|].
  destruct (n =? 0); simpl; [done|].
  specialize (IH (n - 1)). destruct (read (n - 1) f); simpl in *. by f_equal.
Qed.

Lemma read_nil n f : 0 < n → (read n f).1 = [] → f = [].
Proof.
  intros Hn. destruct f as [|b f]; simpl; [done|].
  destruct (Z.eqb_spec n 0); [lia|]. by destruct (read (n - 1) f).
Qed.

(** ** The transfer loop *)

Lemma transfer_loop_body server url_error report upload_url file_size
    chunk_size f start_index h :
  transfer_loop server url_error report upload_url file_size chunk_size f
                start_index h =
  match read chunk_size f with
  | ([], _) => ([], Ret Break)
  | (b :: c, rest) =>
      let chunk := b :: c in
      let end_index := start_index + Z.of_nat (length chunk) - 1 in
      match put_target url_error upload_url with
      | inl e => ([], Raise (url_exn e))
      | inr url =>
          let rq := PutChunk url start_index end_index file_size chunk in
          let upload_response := server h rq in
          if accepted (status_code upload_response) then
            let '(es, r) :=
              transfer_loop server url_error report upload_url file_size
                            chunk_size rest (end_index + 1)
                            (h ++ [Http rq upload_response]) in
            (Http rq upload_response :: es, r)
          else
            let '(es, r) :=
              bind (report upload_response) (λ _, ret Return)
                   (h ++ [Http rq upload_response]) in
            (Http rq upload_response :: es, r)
      end
  end.
Proof.
  rewrite transfer_loop_equation_1.
  destruct (inspect (read chunk_size f)) as [p E].
  etransitivity; [|by rewrite E].
  destruct p as [[|b c] rest]; reflexivity.
Qed.

(** The events of the loop: accepted chunk submissions, then nothing more
    (end of file, or an upload URL that [requests] refuses), or one rejected
    submission and what its report printed. *)
Lemma transfer_loop_shape server url_error report url size cs f start h es r :
  transfer_loop server url_error report url size cs f start h = (es, r) →
  ∃ oks, Forall (λ e, is_accepted_put e = true) oks ∧
    ((es = oks ∧ (r = Ret Break ∨ ∃ e, r = Raise (url_exn e))) ∨
     (∃ rq h' lines,
        es = oks ++ Http rq (server h' rq) :: lines ∧
        is_rejected_put (Http rq (server h' rq)) = true ∧
        bind (report (server h' rq)) (λ _, ret Return)
             (h' ++ [Http rq (server h' rq)]) = (lines, r))).
Proof.
  remember (length f) as n eqn:Hn. revert f Hn start h es r.
  induction n as [n IH] using lt_wf_ind. intros f -> start h es r.
  rewrite transfer_loop_body.
  pose proof (read_app cs f) as Happ.
  destruct (read cs f) as [[|b c] rest]; simpl in *.
  { intros [= <- <-]. exists []. split; [apply Forall_nil_2|]. left. eauto. }
  destruct (put_target url_error url) as [e|u].
  { intros [= <- <-]. exists []. split; [apply Forall_nil_2|]. left. eauto. }
  set (rq := PutChunk _ _ _ _ _). set (rs := server h rq).
  destruct (accepted (status_code rs)) eqn:Hacc; last first.
  { destruct (bind _ _ _) as [lines r'] eqn:E. intros [= <- <-].
    exists []. split; [apply Forall_nil_2|]. right.
    exists rq, h, lines. fold rs. simpl. by rewrite Hacc. }
  destruct (transfer_loop _ _ _ _ _ _ rest _ _) as [es' r'] eqn:E.
  intros [= <- <-].
  eapply (IH (length rest)) in E as (oks & Hoks & Hes);
    [|subst f; simpl; rewrite length_app; lia|done].
  exists (Http rq rs :: oks). split; [by apply Forall_cons_2|].
  destruct Hes as [[-> Hr]|(rq' & h' & lines & -> & He & Hl)];
    [left|right]; eauto 10.
Qed.

Lemma bind_ret_Return_outcome (m : M unit) h :
  (bind m (λ _, ret Return) h).2 ≠ Ret Break.
Proof. rewrite bind_outcome. by destruct (m h).2. Qed.

Lemma bind_ret_Return_events (m : M unit) h :
  (bind m (λ _, ret Return) h).1 = (m h).1.
Proof.
  rewrite bind_events. destruct (m h) as [es [[]|c|x]]; simpl; by rewrite app_nil_r.
Qed.

Lemma emits_transfer_loop (P : Event → Prop) server url_error report url size cs f start :
  (∀ u s e t c rs, P (Http (PutChunk u s e t c) rs)) →
  (∀ rs, emits P (report rs)) →
  emits P (transfer_loop server url_error report url size cs f start).
Proof.
  intros Hput Hrep h.
  destruct (transfer_loop server url_error report url size cs f start h) as [es r] eqn:E.
  apply transfer_loop_shape in E as (oks & Hoks & Hes). simpl.
  assert (Forall P oks) as Hok.
  { eapply Forall_impl; [exact Hoks|]. intros [[]| |]; simpl; try done. }
  destruct Hes as [[-> _]|(rq & h' & lines & -> & He & Hl)]; [done|].
  apply Forall_app. split; [done|]. apply Forall_cons_2.
  - destruct rq; simpl in He; try done.
  - pose proof (bind_ret_Return_events (report (server h' rq))
                  (h' ++ [Http rq (server h' rq)])) as Hev.
    rewrite Hl in Hev. simpl in Hev. rewrite Hev. apply Hrep.
Qed.

Lemma puts_error_lines lines :
  Forall (λ e, is_error_line e = true) lines → puts lines = [].
Proof.
  induction 1 as [|e es He _ IH]; [done|].
  destruct e as [[]|[]|]; try done; exact IH.
Qed.

Lemma transfer_loop_inv server url_error report url size cs :
  0 < cs →
  (∀ rs, emits (λ e, is_error_line e = true) (report rs)) →
  ∀ f start h es r,
  transfer_loop server url_error report url size cs f start h = (es, r) →
  Forall (λ p, p.1.2 = size ∧ p.2 ≠ [] ∧
               p.1.1.2 = p.1.1.1 + Z.of_nat (length p.2) - 1) (puts es) ∧
  tiles start (put_ranges es)
        (start + Z.of_nat (length (concat (snd <$> puts es)))) ∧
  concat (snd <$> puts es) `prefix_of` f ∧
  (r = Ret Break → concat (snd <$> puts es) = f).
Proof.
  intros Hcs Hrep f. remember (length f) as n eqn:Hn. revert f Hn.
  induction n as [n IH] using lt_wf_ind. intros f -> start h es r.
  rewrite transfer_loop_body.
  pose proof (read_app cs f) as Happ. pose proof (read_nil cs f Hcs) as Hnil.
  destruct (read cs f) as [[|b c] rest]; simpl in *.
  { intros [= <- <-]. simpl. rewrite Hnil by done.
    split_and!; first [done | lia | apply Forall_nil_2]. }
  destruct (put_target url_error url) as [e|u].
  { intros [= <- <-]. simpl.
    split_and!; first [done | lia | apply Forall_nil_2 | apply prefix_nil]. }
  set (rq := PutChunk _ _ _ _ _). set (rs := server h rq).
  destruct (accepted (status_code rs)); last first.
  { pose proof (bind_ret_Return_outcome (report rs) (h ++ [Http rq rs])) as Hr.
    pose proof (bind_ret_Return_events (report rs) (h ++ [Http rq rs])) as Hev.
    destruct (bind _ _ _) as [lines r'] eqn:E. intros [= <- <-].
    simpl in Hr, Hev.
    assert (puts lines = []) as Hl.
    { apply puts_error_lines. rewrite Hev. apply Hrep. }
    unfold put_ranges. subst rq. rewrite puts_cons_put, Hl. simpl.
    rewrite app_nil_r.
    split_and!; try first [done | lia].
    - apply Forall_cons_2; [|apply Forall_nil_2]. simpl. by split_and!.
    - rewrite <- Happ. by apply (prefix_app_r (b :: c) (b :: c) rest). }
  destruct (transfer_loop _ _ _ _ _ _ rest _ _) as [es' r'] eqn:E.
  intros [= <- <-].
  eapply (IH (length rest)) in E as (H1 & H2 & H3 & H4);
    [|subst f; simpl; rewrite length_app; lia|done].
  unfold put_ranges in *. subst rq.
  rewrite puts_cons_put, !fmap_cons, concat_cons, length_app. cbn [fst snd tiles].
  split_and!; try first [done | lia].
  - apply Forall_cons_2; [|done]. simpl. by split_and!.
  - replace (start + Z.of_nat (length (b :: c) + length (concat (puts es').*2))%nat)
      with (start + Z.of_nat (S (length c)) - 1 + 1 +
            Z.of_nat (length (concat (puts es').*2))) by (simpl length; lia).
    done.
  - rewrite <- Happ. by apply (prefix_app (b :: c)).
  - intros ->. by rewrite H4.
Qed.

(** The transfer proper, from byte 0 of a file [f]. *)
Lemma transfer_ranges server url_error report url cs f h es r :
  0 < cs →
  (∀ rs, emits (λ e, is_error_line e = true) (report rs)) →
  transfer_loop server url_error report url (Z.of_nat (length f)) cs f 0 h = (es, r) →
  ∃ c', tiles 0 (put_ranges es) c' ∧ c' ≤ Z.of_nat (length f) ∧
        (r = Ret Break → c' = Z.of_nat (length f)) ∧
        Forall (λ p, p.1.2 = Z.of_nat (length f) ∧ p.2 ≠ [] ∧
                     p.1.1.2 = p.1.1.1 + Z.of_nat (length p.2) - 1) (puts es).
Proof.
  intros Hcs Hrep E.
  destruct (transfer_loop_inv _ _ _ _ _ _ Hcs Hrep _ _ _ _ _ E)
    as (H1 & H2 & H3 & H4).
  eexists. split; [exact H2|]. split_and!; [|by intros ->%H4|done].
  apply prefix_length in H3. lia.
Qed.

Lemma main_report_lines sp rs :
  emits (λ e, is_error_line e = true) (Main.report_chunk_error sp rs).
Proof.
  unfold Main.report_chunk_error.
  apply emits_bind; [apply emits_response_json|]. intros _. by apply emits_print.
Qed.

Lemma standalone_report_lines sp rs :
  emits (λ e, is_error_line e = true) (Standalone.report_chunk_error sp rs).
Proof.
  unfold Standalone.report_chunk_error.
  apply emits_bind; [by apply emits_print|]. intros _.
  apply emits_bind; [apply emits_response_json|]. intros _. by apply emits_print.
Qed.

(** ** Byte ranges of an upload *)

Lemma byte_ranges_ok_no_puts size sp es :
  0 ≤ size → puts es = [] → Print (MsgUploaded sp) ∉ es →
  byte_ranges_ok size sp es.
Proof.
  intros Hsize Hputs Hno. apply (byte_ranges_ok_intro _ _ _ 0).
  - unfold put_ranges. by rewrite Hputs.
  - done.
  - rewrite Hputs. apply Forall_nil_2.
  - done.
Qed.

Lemma transfer_loop_no_uploaded_line server url_error report url size cs f start h sp :
  (∀ rs, emits (λ e, is_error_line e = true) (report rs)) →
  Print (MsgUploaded sp) ∉ (transfer_loop server url_error report url size cs f start h).1.
Proof.
  intros Hrep Hin.
  assert (emits (λ e, e ≠ Print (MsgUploaded sp))
                (transfer_loop server url_error report url size cs f start)) as Hem.
  { apply emits_transfer_loop; [done|]. intros rs.
    eapply emits_mono; [apply Hrep|]. by intros [[]|[]|]. }
  specialize (Hem h). rewrite Forall_forall in Hem. by apply Hem in Hin.
Qed.

(** The events of an upload around its transfer loop: the session request
    before, the success line after when the loop ended by [break]. *)
Lemma byte_ranges_ok_transfer server url_error report url cs f h sp e0 :
  0 < cs →
  (∀ rs, emits (λ e, is_error_line e = true) (report rs)) →
  puts [e0] = [] → e0 ≠ Print (MsgUploaded sp) →
  byte_ranges_ok (Z.of_nat (length f)) sp
    (let '(es, r) :=
       bind (transfer_loop server url_error report url (Z.of_nat (length f)) cs f 0)
            (λ how, match how with
                    | Break => print (MsgUploaded sp)
                    | Return => ret tt
                    end) h in
     (e0 :: es, r)).1.
Proof.
  intros Hcs Hrep He0 Hne. unfold bind.
  pose proof (transfer_loop_no_uploaded_line server url_error report url
                (Z.of_nat (length f)) cs f 0 h sp Hrep) as Hno.
  destruct (transfer_loop _ _ _ _ _ _ _ _ _) as [es r] eqn:E. simpl in Hno.
  apply transfer_ranges in E as (c' & Ht & Hle & Hbreak & Hall); [|done..].
  assert (∀ tl, puts tl = [] → puts (e0 :: es ++ tl) = puts es) as Hputs.
  { intros tl Htl. change (e0 :: es ++ tl) with ([e0] ++ es ++ tl).
    by rewrite !puts_app, He0, Htl, app_nil_r. }
  assert (∀ tl, puts tl = [] →
                (Print (MsgUploaded sp) ∈ e0 :: es ++ tl → c' = Z.of_nat (length f)) →
                byte_ranges_ok (Z.of_nat (length f)) sp (e0 :: es ++ tl)) as Hok.
  { intros tl Htl Hup. apply (byte_ranges_ok_intro _ _ _ c'); try done.
    - unfold put_ranges. by rewrite Hputs.
    - by rewrite Hputs. }
  destruct r as [[]|c|x]; simpl.
  - apply Hok; [done|]. auto.
  - apply Hok; [done|]. rewrite app_nil_r.
    intros [?|?]%elem_of_cons; done.
  - rewrite <- (app_nil_r es). apply Hok; [done|]. rewrite app_nil_r.
    intros [?|?]%elem_of_cons; done.
  - rewrite <- (app_nil_r es). apply Hok; [done|]. rewrite app_nil_r.
    intros [?|?]%elem_of_cons; done.
Qed.

Lemma main_upload_ranges server url_error fs tok site drive lp sp h f :
  fs lp = Some f →
  byte_ranges_ok (Z.of_nat (length f)) sp
    (Main.upload_file_to_sharepoint server url_error fs tok site drive lp sp h).1.
Proof.
  intros Hf. unfold Main.upload_file_to_sharepoint. rewrite bind_request.
  cbv zeta.
  set (rq := CreateUploadSession _ _ _ _). set (rs := server h rq).
  destruct (decide (status_code rs ≠ 200)).
  { rewrite bind_response_json. destruct (json rs); simpl.
    - apply byte_ranges_ok_no_puts; [lia|done|].
      intros [?|[?|?%elem_of_nil]%elem_of_cons]%elem_of_cons; done.
    - apply byte_ranges_ok_no_puts; [lia|done|].
      intros [?|?%elem_of_nil]%elem_of_cons; done. }
  rewrite bind_response_json. destruct (json rs) as [doc|]; simpl.
  2:{ apply byte_ranges_ok_no_puts; [lia|done|].
      intros [?|?%elem_of_nil]%elem_of_cons; done. }
  rewrite Hf.
  by apply byte_ranges_ok_transfer; [|apply main_report_lines|..].
Qed.

Lemma standalone_upload_ranges server url_error fs tok site drive lp sp h f :
  fs lp = Some f →
  byte_ranges_ok (Z.of_nat (length f)) sp
    (Standalone.upload_file_to_sharepoint server url_error fs tok site drive lp sp h).1.
Proof.
  intros Hf. unfold Standalone.upload_file_to_sharepoint. rewrite Hf.
  rewrite bind_request. cbv zeta.
  set (rq := CreateUploadSession _ _ _ _). set (rs := server h rq).
  destruct (decide (status_code rs ≠ 200)).
  { rewrite bind_print, bind_response_json. destruct (json rs); simpl.
    - apply byte_ranges_ok_no_puts; [lia|done|].
      intros [?|[?|[?|?%elem_of_nil]%elem_of_cons]%elem_of_cons]%elem_of_cons; done.
    - apply byte_ranges_ok_no_puts; [lia|done|].
      intros [?|[?|?%elem_of_nil]%elem_of_cons]%elem_of_cons; done. }
  rewrite bind_response_json. destruct (json rs) as [doc|]; simpl.
  2:{ apply byte_ranges_ok_no_puts; [lia|done|].
      intros [?|?%elem_of_nil]%elem_of_cons; done. }
  destruct (Standalone.truthy (uploadUrl doc)); simpl.
  2:{ apply byte_ranges_ok_no_puts; [lia|done|].
      intros [?|[?|?%elem_of_nil]%elem_of_cons]%elem_of_cons; done. }
  by apply byte_ranges_ok_transfer; [|apply standalone_report_lines|..].
Qed.

(** C8.  For a zero-byte file the loop ends at its first read: it sends no
    chunk and prints nothing.  The only request either script makes for such
    a file is the one that opens the upload session. *)
Theorem zero_byte_file_sends_no_chunk server url_error fs tok site drive lp sp h :
  fs lp = Some [] →
  (∀ report url size cs start h',
     transfer_loop server url_error report url size cs [] start h' = ([], Ret Break)) ∧
  let main_es :=
    (Main.upload_file_to_sharepoint server url_error fs tok site drive lp sp h).1 in
  let alone_es :=
    (Standalone.upload_file_to_sharepoint server url_error fs tok site drive lp sp h).1 in
  puts main_es = [] ∧ puts alone_es = [] ∧
  filter (λ e, is_request e = true) main_es
    = [Http (CreateUploadSession (bearer tok) site drive sp)
            (server h (CreateUploadSession (bearer tok) site drive sp))] ∧
  filter (λ e, is_request e = true) alone_es
    = [Http (CreateUploadSession (bearer tok) site drive sp)
            (server h (CreateUploadSession (bearer tok) site drive sp))].
Proof.
  intros Hf.
  assert (∀ report url size cs start h',
            transfer_loop server url_error report url size cs [] start h'
            = ([], Ret Break)) as Hloop.
  { intros. by rewrite transfer_loop_body. }
  split; [done|]. cbv zeta.
  unfold Main.upload_file_to_sharepoint, Standalone.upload_file_to_sharepoint.
  rewrite Hf, !bind_request. cbv zeta.
  set (rq := CreateUploadSession _ _ _ _). set (rs := server h rq).
  destruct (decide (status_code rs ≠ 200)).
  { rewrite bind_print, !bind_response_json. by destruct (json rs); split_and!. }
  rewrite !bind_response_json. destruct (json rs) as [doc|]; [|by split_and!].
  unfold bind. rewrite !Hloop.
  destruct (Standalone.truthy (uploadUrl doc)); by split_and!.
Qed.

Lemma zero_byte_file_sends_no_chunk_witness :
  demo_fs "/repo/sub/b.txt" = Some [] ∧
  puts (Main.upload_file_to_sharepoint demo_server demo_url_error demo_fs (Some "tok") "site"
          "drive" "/repo/sub/b.txt" "Docs/sub/b.txt" []).1 = [].
Proof.
  split; [reflexivity|].
  apply (zero_byte_file_sends_no_chunk demo_server demo_url_error demo_fs (Some "tok") "site"
           "drive" "/repo/sub/b.txt" "Docs/sub/b.txt" []).
  reflexivity.
Defined.

(** ** Strings and paths *)

Lemma append_cons c s t : String c s +:+ t = String c (s +:+ t).
Proof. reflexivity. Qed.

Lemma append_nil_l t : "" +:+ t = t.
Proof. reflexivity. Qed.

Ltac str_simpl := repeat (rewrite append_cons || rewrite append_nil_l || simpl).

Lemma append_nil_r s : s +:+ "" = s.
Proof. induction s; str_simpl; congruence. Qed.

Lemma append_assoc s1 s2 s3 : (s1 +:+ s2) +:+ s3 = s1 +:+ (s2 +:+ s3).
Proof. induction s1; str_simpl; congruence. Qed.

Lemma append_inj_l s x y : s +:+ x = s +:+ y → x = y.
Proof. induction s; str_simpl; [done|]. intros [= ?]. auto. Qed.

Lemma no_sep_split a b x y :
  no_sep a = true → no_sep b = true →
  a +:+ String "/" x = b +:+ String "/" y → a = b ∧ x = y.
Proof.
  revert b. induction a as [|c a IH]; intros [|c' b]; str_simpl.
  - by intros _ _ [= ->].
  - intros _ H [= <- _]. done.
  - intros H _ [= -> _]. done.
  - intros [_ Ha]%andb_true_iff [_ Hb]%andb_true_iff [= -> E].
    destruct (IH _ Ha Hb E) as [-> ->]. done.
Qed.

Lemma no_sep_no_slash a b y : no_sep a = true → a ≠ b +:+ String "/" y.
Proof.
  revert b. induction a as [|c a IH]; intros [|c' b]; str_simpl; try done.
  - intros H [= -> _]. done.
  - intros [_ Ha]%andb_true_iff [= _ E]. by apply (IH b).
Qed.

Lemma valid_name_no_sep n : valid_name n = true → no_sep n = true.
Proof. unfold valid_name. rewrite !andb_true_iff. tauto. Qed.

Lemma valid_name_nonempty n : valid_name n = true → n ≠ "".
Proof.
  unfold valid_name. rewrite !andb_true_iff, !negb_true_iff.
  intros [[[H _] _] _] ->. done.
Qed.

Lemma relpath_cons a rest :
  rest ≠ [] → relpath (a :: rest) = a +:+ String "/" (relpath rest).
Proof. by destruct rest. Qed.

Lemma relpath_snoc rel d :
  rel ≠ [] → relpath (rel ++ [d]) = relpath rel +:+ String "/" d.
Proof.
  induction rel as [|a rel IH]; [done|]. intros _.
  destruct rel as [|b rel]; [done|].
  change ((a :: b :: rel) ++ [d]) with (a :: ((b :: rel) ++ [d])).
  rewrite relpath_cons by done. rewrite IH by done.
  rewrite (relpath_cons a (b :: rel)) by done.
  change (String "/" (relpath (b :: rel) +:+ String "/" d))
    with (String "/" (relpath (b :: rel)) +:+ String "/" d).
  by rewrite append_assoc.
Qed.

Lemma relpath_inj l1 l2 :
  Forall (λ n, valid_name n = true) l1 →
  Forall (λ n, valid_name n = true) l2 →
  l1 ≠ [] → l2 ≠ [] → relpath l1 = relpath l2 → l1 = l2.
Proof.
  revert l2. induction l1 as [|a l1 IH]; [done|].
  intros [|b l2]; [done|].
  intros [Ha%valid_name_no_sep H1]%Forall_cons [Hb%valid_name_no_sep H2]%Forall_cons _ _.
  destruct l1 as [|a' l1], l2 as [|b' l2].
  - simpl. by intros ->.
  - rewrite (relpath_cons b) by done. simpl. intros E. by apply no_sep_no_slash in E.
  - rewrite (relpath_cons a) by done. simpl. intros E. symmetry in E.
    by apply no_sep_no_slash in E.
  - rewrite !relpath_cons by done. intros [-> E]%no_sep_split; [|done..].
    f_equal. by apply IH.
Qed.

(** A name does not start with a separator, nor does a relative path. *)
Lemma valid_name_head n :
  valid_name n = true → ∃ c s, n = String c s ∧ c ≠ "/"%char ∧
                               (c = "."%char → ∃ c' s', s = String c' s' ∧ c' ≠ "/"%char).
Proof.
  unfold valid_name. rewrite !andb_true_iff, !negb_true_iff.
  intros [[[H1 H2] H3] H4]. destruct n as [|c s]; [done|].
  exists c, s. simpl in H4. apply andb_true_iff in H4 as [Hc Hs].
  apply negb_true_iff, Ascii.eqb_neq in Hc. split_and!; [done|done|].
  intros ->. destruct s as [|c' s']; [done|]. exists c', s'. split; [done|].
  simpl in Hs. apply andb_true_iff in Hs as [Hc' _].
  by apply negb_true_iff, Ascii.eqb_neq in Hc'.
Qed.

Lemma relpath_head l :
  Forall (λ n, valid_name n = true) l → l ≠ [] →
  ∃ c s, relpath l = String c s ∧ c ≠ "/"%char ∧
         (c = "."%char → ∃ c' s', s = String c' s' ∧ c' ≠ "/"%char).
Proof.
  destruct l as [|a l]; [done|]. intros [Ha Hl]%Forall_cons _.
  destruct (valid_name_head _ Ha) as (c & s & -> & Hc & Hdot).
  destruct l as [|b l].
  - exists c, s. eauto.
  - rewrite relpath_cons by done. simpl. eexists c, _. split_and!; [done|done|].
    intros Hd. destruct (Hdot Hd) as (c' & s' & -> & Hc'). simpl. eauto.
Qed.

Lemma normalize_relpath l :
  Forall (λ n, valid_name n = true) l → l ≠ [] →
  normalize_file (relpath l) = relpath l.
Proof.
  intros Hl Hne. destruct (relpath_head l Hl Hne) as (c & s & -> & Hc & Hdot).
  unfold normalize_file.
  destruct (decide (c = "/"%char)) as [->|]; [done|].
  destruct (decide (c = "."%char)) as [->|].
  - destruct (Hdot eq_refl) as (c' & s' & -> & Hc').
    destruct c' as [[] [] [] [] [] [] [] []]; try done.
  - destruct c as [[] [] [] [] [] [] [] []]; try done.
Qed.

Lemma relpath_not_abs l :
  Forall (λ n, valid_name n = true) l → l ≠ [] →
  starts_with_sep (relpath l) = false.
Proof.
  intros Hl Hne. destruct (relpath_head l Hl Hne) as (c & s & -> & Hc & _).
  simpl. destruct c as [[] [] [] [] [] [] [] []]; try done.
Qed.

Lemma ends_with_sep_no_sep n : no_sep n = true → ends_with_sep n = false.
Proof.
  induction n as [|c n IH]; [done|]. simpl.
  intros [Hc Hn]%andb_true_iff. apply negb_true_iff, Ascii.eqb_neq in Hc.
  specialize (IH Hn).
  destruct c as [[] [] [] [] [] [] [] []]; try done; by destruct n.
Qed.

Lemma ends_with_sep_cons c t :
  t ≠ "" → ends_with_sep (String c t) = ends_with_sep t.
Proof.
  intros Ht. destruct t as [|c' t]; [done|].
  simpl. by destruct c as [[] [] [] [] [] [] [] []].
Qed.

Lemma ends_with_sep_app s t :
  t ≠ "" → ends_with_sep (s +:+ t) = ends_with_sep t.
Proof.
  intros Ht. induction s as [|c s IH]; [done|].
  rewrite append_cons, ends_with_sep_cons; [done|].
  destruct s; [by rewrite append_nil_l|by rewrite append_cons].
Qed.

Lemma relpath_no_trailing_sep l :
  Forall (λ n, valid_name n = true) l → l ≠ [] →
  relpath l ≠ "" ∧ ends_with_sep (relpath l) = false.
Proof.
  intros Hl Hne. split.
  { destruct (relpath_head l Hl Hne) as (c & s & -> & _). done. }
  destruct l as [|a l _] using rev_ind; [done|].
  apply Forall_app in Hl as [Hl [Ha _]%Forall_cons].
  pose proof (valid_name_no_sep _ Ha) as Hs.
  destruct l as [|b l].
  - simpl. by apply ends_with_sep_no_sep.
  - rewrite relpath_snoc by done.
    rewrite ends_with_sep_app by done.
    rewrite ends_with_sep_cons by (by apply valid_name_nonempty).
    by apply ends_with_sep_no_sep.
Qed.

Lemma valid_name_not_abs d : valid_name d = true → starts_with_sep d = false.
Proof. intros H. apply (relpath_not_abs [d]); [by apply Forall_singleton|done]. Qed.

(** The string the scripts hand to [match_file] for a directory is, once
    normalised, the directory's relative path. *)
Lemma dir_query_relpath pre d :
  Forall (λ n, valid_name n = true) pre → valid_name d = true →
  normalize_file (path_join (relpath pre) d) = relpath (pre ++ [d]).
Proof.
  intros Hpre Hd. unfold path_join. rewrite (valid_name_not_abs d Hd).
  destruct pre as [|a pre].
  - simpl. done.
  - destruct (relpath_no_trailing_sep (a :: pre) Hpre) as [Hne Hends]; [done|].
    rewrite decide_False by done. rewrite Hends.
    rewrite relpath_snoc by done.
    change (relpath (a :: pre) +:+ "/" +:+ d)
      with (relpath (a :: pre) +:+ String "/" d).
    rewrite <- relpath_snoc by done.
    apply normalize_relpath; [|by destruct pre].
    apply Forall_app. split; [done|by apply Forall_singleton].
Qed.

Lemma path_join_inj a p1 p2 :
  starts_with_sep p1 = false → starts_with_sep p2 = false →
  path_join a p1 = path_join a p2 → p1 = p2.
Proof.
  unfold path_join. intros -> ->.
  destruct (decide (a = "")); [done|].
  destruct (ends_with_sep a).
  - apply append_inj_l.
  - intros E%append_inj_l. by apply append_inj_l in E.
Qed.

(** ** The walk *)

Lemma Entry_induction (P : Entry → Prop) :
  (∀ n, P (File n)) →
  (∀ n entries, Forall P entries → P (Dir n entries)) →
  ∀ e, P e.
Proof.
  intros Hf Hd. fix IH 1. intros [n|n entries]; [apply Hf|].
  apply Hd. induction entries as [|e entries IHes].
  - apply Forall_nil_2.
  - apply Forall_cons_2; [apply IH|apply IHes].
Qed.

Lemma elem_of_dirnames d entries :
  d ∈ dirnames entries ↔ ∃ sub, Dir d sub ∈ entries.
Proof.
  unfold dirnames. rewrite list_elem_of_omap. split.
  - intros ([n|n sub] & Hin & E); simplify_eq/=. eauto.
  - intros (sub & Hin). exists (Dir d sub). eauto.
Qed.

Lemma elem_of_filenames f entries :
  f ∈ filenames entries ↔ File f ∈ entries.
Proof.
  unfold filenames. rewrite list_elem_of_omap. split.
  - intros ([n|n sub] & Hin & E); simplify_eq/=. eauto.
  - intros Hin. exists (File f). eauto.
Qed.

Lemma NoDup_dirnames entries :
  NoDup (entry_name <$> entries) → NoDup (dirnames entries).
Proof.
  induction entries as [|[n|n sub] entries IH]; simpl.
  - intros _. apply NoDup_nil_2.
  - intros [_ H]%NoDup_cons. by apply IH.
  - intros [Hn H]%NoDup_cons. unfold dirnames. simpl. apply NoDup_cons_2; [|by apply IH].
    intros (sub' & Hin)%elem_of_dirnames. apply Hn.
    apply list_elem_of_fmap. by exists (Dir n sub').
Qed.

Lemma elem_of_list_remove y x l : y ∈ list_remove x l → y ∈ l.
Proof.
  induction l as [|z l IH]; simpl; [done|].
  destruct (decide (x = z)); [by right|].
  intros [->|H]%elem_of_cons; [left|right; auto].
Qed.

Lemma elem_of_list_remove_ne y x l : y ≠ x → y ∈ l → y ∈ list_remove x l.
Proof.
  intros Hne. induction l as [|z l IH]; simpl; [done|].
  intros [->|H]%elem_of_cons.
  - destruct (decide (x = z)); [done|left].
  - destruct (decide (x = z)); [done|right; auto].
Qed.

Lemma not_elem_of_list_remove x l : NoDup l → x ∉ list_remove x l.
Proof.
  induction l as [|z l IH]; simpl; [intros _; apply not_elem_of_nil|].
  intros [Hz Hl]%NoDup_cons. destruct (decide (x = z)) as [->|Hne]; [done|].
  intros [->|H]%elem_of_cons; [done|]. by apply IH.
Qed.

Lemma elem_of_prune_1 spec rel dirs d :
  d ∈ prune spec rel dirs →
  d ∈ dirs ∧ ∀ rules, spec = Some rules →
                      match_file rules (path_join (relpath rel) d) = false.
Proof.
  unfold prune.
  assert (∀ d, d ∈ (if decide (".git" ∈ dirs) then list_remove ".git" dirs else dirs)
               → d ∈ dirs) as Hsub.
  { intros d'. destruct (decide _); [apply elem_of_list_remove|done]. }
  destruct spec as [rules|].
  - intros [Hm Hin]%list_elem_of_filter. split; [auto|]. by intros ? [= <-].
  - intros Hin. split; [auto|done].
Qed.

Lemma not_git_in_prune spec rel dirs : NoDup dirs → ".git" ∉ prune spec rel dirs.
Proof.
  intros Hnd. unfold prune.
  assert (".git" ∉ (if decide (".git" ∈ dirs) then list_remove ".git" dirs else dirs))
    as Hno.
  { destruct (decide _); [by apply not_elem_of_list_remove|done]. }
  destruct spec as [rules|]; [|done].
  by intros [_ ?]%list_elem_of_filter.
Qed.

Lemma elem_of_prune_2 spec rel dirs d :
  d ∈ dirs → step_kept spec rel d → d ∈ prune spec rel dirs.
Proof.
  intros Hin [Hgit Hrules]. unfold prune.
  assert (d ∈ (if decide (".git" ∈ dirs) then list_remove ".git" dirs else dirs))
    as Hin'.
  { destruct (decide _); [by apply elem_of_list_remove_ne|done]. }
  destruct spec as [rules|]; [|done].
  apply list_elem_of_filter. split; [by apply Hrules|done].
Qed.

Lemma wf_tree_elem entries e :
  wf_tree entries = true → e ∈ entries → wf_entry e = true.
Proof.
  unfold wf_tree. rewrite andb_true_iff, forallb_forall.
  intros [H _] Hin. by apply H, list_elem_of_In.
Qed.

Lemma wf_tree_NoDup entries :
  wf_tree entries = true → NoDup (entry_name <$> entries).
Proof.
  unfold wf_tree. rewrite andb_true_iff. intros [_ H]. by apply bool_decide_eq_true in H.
Qed.

Lemma wf_entry_Dir n sub : wf_entry (Dir n sub) = true →
  valid_name n = true ∧ wf_tree sub = true.
Proof.
  simpl. unfold wf_tree. rewrite !andb_true_iff. tauto.
Qed.

Lemma walk_dir_sound spec e :
  ∀ n entries, e = Dir n entries → wf_tree entries = true →
  ∀ top rel0 root rel files,
    (root, rel, files) ∈ walk_dir spec top rel0 e →
    ∃ ds target, rel = rel0 ++ ds ∧ files = filenames target ∧
                 dir_at entries ds target ∧ path_kept spec rel0 ds.
Proof.
  induction e as [n|n entries IH] using Entry_induction; [done|].
  intros ? ? [= <- <-] Hwf top rel0 root rel files. simpl.
  intros [[= -> -> ->]|Hin]%elem_of_cons.
  { exists [], entries. by rewrite app_nil_r. }
  apply list_elem_of_In, in_flat_map in Hin as (e' & He'%list_elem_of_In & Hin).
  apply list_elem_of_In in Hin.
  destruct e' as [?|d sub]; [by apply elem_of_nil in Hin|].
  destruct (decide (d ∈ _)) as [Hd|]; [|by apply elem_of_nil in Hin].
  rewrite Forall_forall in IH.
  pose proof (wf_tree_elem _ _ Hwf He') as [_ Hsub]%wf_entry_Dir.
  destruct (IH _ He' d sub eq_refl Hsub _ _ _ _ _ Hin)
    as (ds & target & -> & -> & Hat & Hkept).
  exists (d :: ds), target. rewrite <- app_assoc. split_and!; try done.
  - simpl. eauto.
  - simpl. split; [|done]. split.
    + intros ->. revert Hd. apply not_git_in_prune, NoDup_dirnames, wf_tree_NoDup, Hwf.
    + by apply elem_of_prune_1 in Hd as [_ ?].
Qed.

Lemma walk_dir_complete spec ds :
  ∀ entries target top rel0 n,
    dir_at entries ds target → path_kept spec rel0 ds →
    ∃ root, (root, rel0 ++ ds, filenames target)
              ∈ walk_dir spec top rel0 (Dir n entries).
Proof.
  induction ds as [|d ds IH]; intros entries target top rel0 n; simpl.
  - intros -> _. exists top. rewrite app_nil_r. left.
  - intros (sub & Hsub & Hat) [Hstep Hkept].
    destruct (IH sub target (path_join top d) (rel0 ++ [d]) d Hat Hkept)
      as [root Hin].
    exists root. right. apply list_elem_of_In, in_flat_map.
    exists (Dir d sub). split; [by apply list_elem_of_In|].
    rewrite decide_True.
    + apply list_elem_of_In. by rewrite <- app_assoc in Hin.
    + apply elem_of_prune_2; [|done]. apply elem_of_dirnames. eauto.
Qed.

Lemma dir_at_valid entries dirs target :
  wf_tree entries = true → dir_at entries dirs target →
  Forall (λ n, valid_name n = true) dirs ∧ wf_tree target = true.
Proof.
  revert entries. induction dirs as [|d dirs IH]; intros entries Hwf; simpl.
  - intros ->. split; [apply Forall_nil_2|done].
  - intros (sub & Hsub & Hat).
    pose proof (wf_tree_elem _ _ Hwf Hsub) as [Hd Hwf']%wf_entry_Dir.
    destruct (IH _ Hwf' Hat). split; [by apply Forall_cons_2|done].
Qed.

Lemma has_file_valid entries dirs f :
  wf_tree entries = true → has_file entries dirs f →
  Forall (λ n, valid_name n = true) (dirs ++ [f]).
Proof.
  intros Hwf (target & Hat & Hf).
  destruct (dir_at_valid _ _ _ Hwf Hat) as [Hdirs Hwf'].
  apply Forall_app. split; [done|]. apply Forall_singleton.
  apply (wf_tree_elem _ _ Hwf' Hf).
Qed.

Lemma path_kept_no_git spec rel0 ds : path_kept spec rel0 ds → ".git" ∉ ds.
Proof.
  revert rel0. induction ds as [|d ds IH]; intros rel0; simpl.
  - intros _. apply not_elem_of_nil.
  - intros [[Hd _] Hk] [Heq|Hin]%elem_of_cons; [done|]. by apply (IH _ Hk).
Qed.

Lemma path_kept_prefix spec rel0 ds pre rules :
  path_kept spec rel0 ds →
  Forall (λ n, valid_name n = true) (rel0 ++ ds) →
  pre ≠ [] → pre `prefix_of` ds → spec = Some rules →
  rules (relpath (rel0 ++ pre)) = false.
Proof.
  revert rel0 pre. induction ds as [|d ds IH]; intros rel0 pre; simpl.
  - intros _ _ Hne Hpre. by apply prefix_nil_inv in Hpre.
  - intros [[_ Hd] Hk] Hvalid Hne Hpre Hspec.
    destruct pre as [|d' pre]; [done|].
    apply prefix_cons_inv_1 in Hpre as Heq. subst d'.
    apply prefix_cons_inv_2 in Hpre.
    destruct pre as [|d' pre].
    + specialize (Hd rules Hspec). unfold match_file in Hd.
      rewrite dir_query_relpath in Hd; [done| |].
      * apply Forall_app in Hvalid as [? _]. done.
      * apply Forall_app in Hvalid as [_ [? _]%Forall_cons]. done.
    + replace (rel0 ++ d :: d' :: pre) with ((rel0 ++ [d]) ++ d' :: pre)
        by (by rewrite <- app_assoc).
      apply (IH (rel0 ++ [d])); try done. by rewrite <- app_assoc.
Qed.

Lemma path_kept_intro spec rel0 ds :
  Forall (λ n, valid_name n = true) (rel0 ++ ds) → ".git" ∉ ds →
  (∀ rules pre, spec = Some rules → pre ≠ [] → pre `prefix_of` ds →
                rules (relpath (rel0 ++ pre)) = false) →
  path_kept spec rel0 ds.
Proof.
  revert rel0. induction ds as [|d ds IH]; intros rel0; simpl; [done|].
  intros Hvalid Hgit Hrules. split; [split|].
  - intros ->. apply Hgit. left.
  - intros rules Hspec. unfold match_file. rewrite dir_query_relpath.
    + apply (Hrules rules [d] Hspec); [done|]. by apply prefix_cons, prefix_nil.
    + apply Forall_app in Hvalid as [? _]. done.
    + apply Forall_app in Hvalid as [_ [? _]%Forall_cons]. done.
  - apply IH.
    + by rewrite <- app_assoc.
    + intros Hin. apply Hgit. by right.
    + intros rules pre Hspec Hne Hpre. rewrite <- app_assoc. simpl.
      apply (Hrules rules (d :: pre) Hspec); [done|]. by apply prefix_cons.
Qed.

Lemma walk_file_not_git spec top entries root rel files f' dirs f :
  wf_tree entries = true →
  (root, rel, files) ∈ os_walk spec top entries → f' ∈ files →
  has_file entries dirs f →
  relpath (rel ++ [f']) = relpath (dirs ++ [f]) →
  ".git" ∉ dirs.
Proof.
  intros Hwf Hw Hf' Hf E. unfold os_walk in Hw.
  eapply walk_dir_sound in Hw as (ds & target & -> & -> & Hat & Hkept); [|done..].
  simpl in E. apply relpath_inj in E.
  - apply app_inj_tail in E as [<- <-]. by apply path_kept_no_git in Hkept.
  - apply (has_file_valid entries); [done|].
    exists target. split; [done|]. by apply elem_of_filenames.
  - by apply has_file_valid with (1 := Hwf).
  - by destruct ds.
  - by destruct dirs.
Qed.

Lemma walk_file_not_abs spec top entries root rel files f' :
  wf_tree entries = true →
  (root, rel, files) ∈ os_walk spec top entries → f' ∈ files →
  starts_with_sep (relpath (rel ++ [f'])) = false.
Proof.
  intros Hwf Hw Hf'. unfold os_walk in Hw.
  eapply walk_dir_sound in Hw as (ds & target & -> & -> & Hat & Hkept); [|done..].
  simpl. apply relpath_not_abs; [|by destruct ds].
  apply (has_file_valid entries); [done|].
  exists target. split; [done|]. by apply elem_of_filenames.
Qed.

(** ** The local path set *)

Lemma elem_of_scan_files spec rel files acc p :
  p ∈ Main.scan_files spec rel files acc ↔
  p ∈ acc ∨ ∃ f, f ∈ files ∧ p = relpath (rel ++ [f]) ∧ file_kept spec p.
Proof.
  unfold Main.scan_files. revert acc.
  induction files as [|f files IH]; intros acc; simpl.
  - split; [by left|]. intros [?|(f & ?%elem_of_nil & _)]; done.
  - rewrite IH. unfold file_kept. split.
    + intros [Hin|(f' & Hf' & -> & Hk)].
      * destruct spec as [rules|].
        -- destruct (match_file rules (relpath (rel ++ [f]))) eqn:Hm; [by left|].
           apply elem_of_union in Hin as [?|Hs]; [by left|]. apply elem_of_singleton in Hs as ->.
           right. exists f. split_and!; [left|done|]. by intros ? [= <-].
        -- apply elem_of_union in Hin as [?|Hs]; [by left|]. apply elem_of_singleton in Hs as ->.
           right. exists f. split_and!; [left|done|done].
      * right. exists f'. split_and!; [by right|done|done].
    + intros [Hin|(f' & [->|Hf']%elem_of_cons & -> & Hk)].
      * left. destruct spec as [rules|]; [|apply elem_of_union; by left].
        destruct (match_file rules _); [done|apply elem_of_union; by left].
      * left. destruct spec as [rules|].
        -- rewrite (Hk rules eq_refl). apply elem_of_union. right.
           by apply elem_of_singleton.
        -- apply elem_of_union. right. by apply elem_of_singleton.
      * right. eauto.
Qed.

Lemma elem_of_local_scan cfg spec entries p :
  p ∈ Main.local_scan cfg spec entries ↔
  ∃ root rel files f,
    (root, rel, files) ∈ os_walk spec (Main.LOCAL_DIRECTORY_PATH cfg) entries ∧
    f ∈ files ∧ p = relpath (rel ++ [f]) ∧ file_kept spec p.
Proof.
  unfold Main.local_scan.
  generalize (os_walk spec (Main.LOCAL_DIRECTORY_PATH cfg) entries) as w.
  intros w.
  assert (∀ acc, p ∈ foldl (λ acc '(root, rel, files),
                              Main.scan_files spec rel files acc) acc w ↔
                 p ∈ acc ∨ ∃ root rel files f, (root, rel, files) ∈ w ∧
                   f ∈ files ∧ p = relpath (rel ++ [f]) ∧ file_kept spec p) as H.
  { induction w as [|[[root rel] files] w IH]; intros acc; simpl.
    - split; [by left|]. intros [?|(?&?&?&?& ?%elem_of_nil &_)]; done.
    - rewrite IH, elem_of_scan_files. split.
      + intros [[?|(f & ? & ? & ?)]|(root' & rel' & files' & f & ? & ?)].
        * by left.
        * right. exists root, rel, files, f. split; [left|done].
        * right. exists root', rel', files', f. split; [by right|done].
      + intros [?|(root' & rel' & files' & f & [[= -> -> ->]|?]%elem_of_cons & ?)].
        * left. by left.
        * left. right. eauto.
        * right. exists root', rel', files', f. eauto. }
  rewrite H. split; [|by right]. intros [?%elem_of_empty|?]; done.
Qed.

(** Every path of the local set is the relative path of a file of the tree
    whose directories all survived the pruning and which no rule matches. *)
Lemma local_scan_sound cfg spec entries p :
  wf_tree entries = true → p ∈ Main.local_scan cfg spec entries →
  ∃ dirs f, p = relpath (dirs ++ [f]) ∧ has_file entries dirs f ∧
            path_kept spec [] dirs ∧ file_kept spec p.
Proof.
  intros Hwf (root & rel & files & f & Hw & Hf & -> & Hk)%elem_of_local_scan.
  unfold os_walk in Hw.
  eapply walk_dir_sound in Hw as (ds & target & -> & -> & Hat & Hkept); [|done..].
  exists ds, f. split_and!; try done.
  exists target. split; [done|]. by apply elem_of_filenames.
Qed.

Lemma local_scan_complete cfg spec entries dirs f :
  has_file entries dirs f → path_kept spec [] dirs →
  file_kept spec (relpath (dirs ++ [f])) →
  relpath (dirs ++ [f]) ∈ Main.local_scan cfg spec entries.
Proof.
  intros (target & Hat & Hf) Hkept Hk. apply elem_of_local_scan.
  destruct (walk_dir_complete spec dirs entries target
              (Main.LOCAL_DIRECTORY_PATH cfg) [] (Main.LOCAL_DIRECTORY_PATH cfg)
              Hat Hkept) as [root Hin].
  exists root, dirs, (filenames target), f. split_and!; try done.
  by apply elem_of_filenames.
Qed.

Lemma local_scan_path cfg spec entries dirs f :
  wf_tree entries = true → has_file entries dirs f →
  relpath (dirs ++ [f]) ∈ Main.local_scan cfg spec entries →
  path_kept spec [] dirs ∧ file_kept spec (relpath (dirs ++ [f])).
Proof.
  intros Hwf Hf Hin.
  destruct (local_scan_sound _ _ _ _ Hwf Hin) as (dirs' & f' & E & Hf' & Hk & Hfk).
  apply relpath_inj in E.
  - by apply app_inj_tail in E as [-> ->].
  - by apply has_file_valid with (1 := Hwf).
  - by apply has_file_valid with (1 := Hwf).
  - by destruct dirs.
  - by destruct dirs'.
Qed.

(** C6, as amended.  For a well-formed local tree and any rule set: a file
    whose relative path matches a rule, or that lies under a directory whose
    relative path matches a rule, is not in the local path set; a file that
    matches no rule, lies under no matching directory and under no directory
    named [.git] is in it. *)
Theorem ignore_correctness cfg spec entries dirs f :
  wf_tree entries = true → has_file entries dirs f →
  (ignored spec dirs f →
   relpath (dirs ++ [f]) ∉ Main.local_scan cfg spec entries) ∧
  (¬ ignored spec dirs f → ".git" ∉ dirs →
   relpath (dirs ++ [f]) ∈ Main.local_scan cfg spec entries).
Proof.
  intros Hwf Hf.
  pose proof (has_file_valid _ _ _ Hwf Hf) as Hvalid.
  assert (normalize_file (relpath (dirs ++ [f])) = relpath (dirs ++ [f])) as Hnorm.
  { apply normalize_relpath; [done|by destruct dirs]. }
  split.
  - intros (rules & Hspec & Hor) Hin.
    destruct (local_scan_path _ _ _ _ _ Hwf Hf Hin) as [Hk Hfk].
    destruct Hor as [Hm|(pre & Hne & Hpre & Hm)].
    + specialize (Hfk rules Hspec). unfold match_file in Hfk.
      rewrite Hnorm in Hfk. congruence.
    + apply Forall_app in Hvalid as [Hdirs _].
      pose proof (path_kept_prefix spec [] dirs pre rules Hk Hdirs Hne Hpre Hspec).
      simpl in *. congruence.
  - intros Hnot Hgit. apply local_scan_complete; [done| |].
    + apply path_kept_intro; [by apply Forall_app in Hvalid as [? _]|done|].
      intros rules pre Hspec Hne Hpre. simpl.
      destruct (rules (relpath pre)) eqn:Hm; [|done].
      destruct Hnot. exists rules. split; [done|]. right. eauto.
    + intros rules Hspec. unfold match_file. rewrite Hnorm.
      destruct (rules _) eqn:Hm; [|done].
      destruct Hnot. exists rules. split; [done|]. by left.
Qed.

Lemma ignore_correctness_witness :
  wf_tree demo_tree = true ∧ has_file demo_tree ["sub"] "b.txt" ∧
  has_file demo_tree ["sub"] "x.log" ∧
  ("sub/x.log" ∉ Main.local_scan demo_main_cfg (Some demo_rules) demo_tree) ∧
  ("sub/b.txt" ∈ Main.local_scan demo_main_cfg (Some demo_rules) demo_tree).
Proof.
  assert (∀ f, File f ∈ [File "b.txt"; File "x.log"; Dir "build" [File "o"]] →
               has_file demo_tree ["sub"] f) as Hhas.
  { intros f Hf. eexists. split; [|exact Hf]. simpl. eexists. split; [|reflexivity].
    do 2 right. left. }
  split; [reflexivity|]. split; [apply Hhas; left|].
  split; [apply Hhas; right; left|]. split.
  - apply (ignore_correctness demo_main_cfg (Some demo_rules) demo_tree
             ["sub"] "x.log"); [reflexivity|apply Hhas; right; left|].
    exists demo_rules. split; [done|]. by left.
  - apply (ignore_correctness demo_main_cfg (Some demo_rules) demo_tree
             ["sub"] "b.txt"); [reflexivity|apply Hhas; left| |].
    + intros (rules & [= <-] & [Hm|(pre & Hne & Hpre & Hm)]); [done|].
      destruct pre as [|d pre]; [done|].
      apply prefix_cons_inv_1 in Hpre as Hd. subst d.
      apply prefix_cons_inv_2, prefix_nil_inv in Hpre. by subst pre.
    + by intros [?|?%elem_of_nil]%elem_of_cons.
Defined.

(** C6 as the claim states it fails: a file under [.git] matches no rule and
    lies under no matching directory, yet it is not in the local path set. *)
Lemma ignore_correctness_counterexample :
  wf_tree demo_tree = true ∧ has_file demo_tree [".git"] "config" ∧
  (¬ ignored None [".git"] "config") ∧
  (relpath ([".git"] ++ ["config"]) ∉ Main.local_scan demo_main_cfg None demo_tree).
Proof.
  split; [reflexivity|]. split.
  { eexists. split; [|left]. simpl. eexists. split; [|reflexivity]. right. left. }
  split.
  { by intros (rules & [=] & _). }
  apply (bool_decide_unpack (_ ∉ _)). vm_compute. exact I.
Qed.

(** ** The remote listing *)

Lemma listing_run_ok_prepend {A} es1 (run : list Event * Outcome A) :
  Forall (λ e, is_listing_phase e = true) es1 →
  Forall (λ e, is_fatal_listing e = false) es1 →
  listing_run_ok run → listing_run_ok (es1 ++ run.1, run.2).
Proof.
  intros H1 H2 [H3 H4]. split; simpl; [by apply Forall_app|].
  destruct run as [es [a|c|x]]; simpl in *; try by apply Forall_app.
  destruct H4 as (-> & es' & e & ip & st & -> & He & Hes').
  split; [done|]. exists (es1 ++ es'), e, ip, st.
  rewrite <- app_assoc. split_and!; [done|done|by apply Forall_app].
Qed.

Lemma list_items_ok recurse item_path items :
  (∀ p h, listing_run_ok (recurse p h)) →
  ∀ remote_files h,
    listing_run_ok (Main.list_items recurse item_path items remote_files h).
Proof.
  intros Hrec. induction items as [|item items IH]; intros acc h; simpl.
  { split; simpl; apply Forall_nil_2. }
  destruct (item_has_file item); [apply IH|].
  destruct (item_has_folder item); [|apply IH].
  rewrite bind_emit.
  set (h1 := h ++ [Sleep]). set (cp := path_join _ _).
  specialize (Hrec cp h1). unfold bind.
  destruct (recurse cp h1) as [es1 [sub|c|x]] eqn:E.
  - specialize (IH (sub ∪ acc) (h1 ++ es1)).
    destruct (Main.list_items _ _ _ _ _) as [es2 r2].
    destruct Hrec as [Hp Hf]. simpl in *.
    apply (listing_run_ok_prepend (Sleep :: es1) (es2, r2)); [|by apply Forall_cons_2|done].
    by apply Forall_cons_2.
  - by apply (listing_run_ok_prepend [Sleep] (es1, Exit c)); [repeat constructor..|].
  - by apply (listing_run_ok_prepend [Sleep] (es1, Raise x)); [repeat constructor..|].
Qed.

Lemma get_remote_files_ok server cfg depth tok site drive :
  ∀ item_path h,
    listing_run_ok
      (Main.get_remote_files_recursive server cfg depth tok site drive item_path h).
Proof.
  induction depth as [|depth IH]; intros item_path h; simpl.
  { split; simpl; apply Forall_nil_2. }
  rewrite bind_request. cbv zeta.
  set (rq := GetChildren _ _ _ _). set (rs := server h rq).
  destruct (Main.is_http_error (status_code rs)) eqn:Herr.
  - destruct (decide (status_code rs = 404)) as [E|E].
    + rewrite bind_print. simpl. split; simpl.
      * by repeat apply Forall_cons_2.
      * repeat apply Forall_cons_2; try done. simpl.
        by rewrite Herr, bool_decide_eq_true_2.
    + rewrite !bind_print. simpl. split; simpl.
      * by repeat apply Forall_cons_2.
      * split; [done|]. exists [], (Http rq rs), item_path, (status_code rs).
        split_and!; [done| |done]. simpl. by rewrite Herr, bool_decide_eq_false_2.
  - assert (Forall (λ e, is_fatal_listing e = false) [Http rq rs]) as Hnf.
    { apply Forall_singleton. simpl. by rewrite Herr. }
    rewrite bind_response_json. destruct (json rs) as [doc|].
    + pose proof (list_items_ok _ item_path (value doc) (IH) ∅
                    (h ++ [Http rq rs])) as Hok.
      destruct (Main.list_items _ _ _ _ _) as [es r].
      by apply (listing_run_ok_prepend [Http rq rs] (es, r)); [repeat constructor|..].
    + split; simpl; [by apply Forall_singleton|done].
Qed.

Lemma clean_or_aborted_listing {A} (run : list Event * Outcome A) :
  listing_run_ok run → clean_or_aborted run.
Proof.
  intros Hok. destruct run as [es [a|c|x]].
  - left. by destruct Hok.
  - right. eauto.
  - left. by destruct Hok.
Qed.

Lemma clean_or_aborted_clean {A} (m : M A) h :
  emits (λ e, is_fatal_listing e = false) m → clean_or_aborted (m h).
Proof. intros H. left. apply H. Qed.

Lemma clean_or_aborted_bind {A B} (m : M A) (k : A → M B) h :
  clean_or_aborted (m h) →
  (∀ a, emits (λ e, is_fatal_listing e = false) (k a)) →
  clean_or_aborted (bind m k h).
Proof.
  intros Hm Hk. unfold bind. destruct (m h) as [e1 [a|c|x]] eqn:E.
  - destruct Hm as [Hm|[_ [c [=]]]]. simpl in Hm.
    specialize (Hk a (h ++ e1)). destruct (k a (h ++ e1)) as [e2 r2].
    left. simpl in *. by apply Forall_app.
  - destruct Hm as [Hm|[Hm _]]; [by left|]. right. eauto.
  - destruct Hm as [Hm|[_ [c [=]]]]. by left.
Qed.

Lemma clean_or_aborted_print {B} msg (k : unit → M B) h :
  (∀ h', clean_or_aborted (k tt h')) → clean_or_aborted (bind (print msg) k h).
Proof.
  intros Hk. rewrite bind_print. specialize (Hk (h ++ [Print msg])).
  destruct (k tt _) as [es r]. destruct Hk as [Hk|[Hk [c Hc]]].
  - left. by apply Forall_cons_2.
  - right. split; [|eauto].
    by apply (listing_run_ok_prepend [Print msg] (es, r)); [repeat constructor..|].
Qed.

Lemma emits_delete_item (P : Event → Prop) server tok site drive item_id :
  (∀ rs, P (Http (DeleteItem (bearer tok) site drive item_id) rs)) →
  (∀ m, P (Print m)) →
  emits P (Main.delete_sharepoint_item server tok site drive item_id).
Proof.
  intros Hd Hp. unfold Main.delete_sharepoint_item.
  apply emits_bind; [by apply emits_request|].
  intros rs. destruct (decide _); by apply emits_print.
Qed.

Lemma emits_main_upload (P : Event → Prop) server url_error fs tok site drive lp sp :
  (∀ rs, P (Http (CreateUploadSession (bearer tok) site drive sp) rs)) →
  (∀ u s e t c rs, P (Http (PutChunk u s e t c) rs)) →
  (∀ m, P (Print m)) →
  emits P (Main.upload_file_to_sharepoint server url_error fs tok site drive lp sp).
Proof.
  intros Hc Hput Hp. unfold Main.upload_file_to_sharepoint.
  apply emits_bind; [by apply emits_request|].
  intros rs. destruct (decide _).
  { apply emits_bind; [apply emits_response_json|]. intros _. by apply emits_print. }
  apply emits_bind; [apply emits_response_json|]. intros doc.
  destruct (fs lp); [|apply emits_raise].
  apply emits_bind.
  - apply emits_transfer_loop; [done|]. intros rs'.
    eapply emits_mono; [apply main_report_lines|]. by intros [[]|[]|].
  - intros []; [by apply emits_print|apply emits_ret].
Qed.

Lemma emits_upload_step (P : Event → Prop) server url_error fs cfg tok local_files :
  (∀ a s d sp rs, sp ∈ (path_join (Main.SHAREPOINT_BASE_FOLDER cfg) <$> elements local_files) →
                  P (Http (CreateUploadSession a s d sp) rs)) →
  (∀ u s e t c rs, P (Http (PutChunk u s e t c) rs)) →
  (∀ m, P (Print m)) →
  emits P (Main.upload_step server url_error fs cfg tok local_files).
Proof.
  intros Hc Hput Hp. unfold Main.upload_step.
  apply emits_bind; [by apply emits_print|]. intros _.
  apply emits_for_each. intros p Hin. apply emits_main_upload; try done.
  intros rs. apply Hc. apply list_elem_of_fmap. exists p. split; [done|].
  unfold sorted in Hin. by rewrite merge_sort_Permutation in Hin.
Qed.

Lemma deletion_step_clean_or_aborted server cfg tok local_files depth h :
  clean_or_aborted (Main.deletion_step server cfg tok local_files depth h).
Proof.
  unfold Main.deletion_step. destruct (Main.SYNC_DELETIONS cfg).
  2:{ apply clean_or_aborted_clean. by apply emits_print. }
  apply clean_or_aborted_print. intros h'.
  apply clean_or_aborted_bind.
  { apply clean_or_aborted_listing, get_remote_files_ok. }
  intros rm. destruct (decide _); [|by apply emits_print].
  apply emits_bind; [by apply emits_print|]. intros _.
  apply emits_for_each. intros p _.
  apply emits_bind; [by apply emits_print|]. intros _.
  destruct (rm !! p); [|apply emits_raise].
  by apply emits_delete_item.
Qed.

Lemma emits_get_access_token (P : Event → Prop) result :
  (∀ m, P (Print m)) → emits P (Main.get_access_token result).
Proof.
  intros Hp. unfold Main.get_access_token. destruct result.
  - apply emits_bind; [by apply emits_print|intros; apply emits_ret].
  - repeat (apply emits_bind; [by apply emits_print|intros _]). apply emits_ret.
Qed.

Lemma main_clean_or_aborted server url_error fs cfg spec entries token_result depth h :
  clean_or_aborted (Main.main server url_error fs cfg spec entries token_result depth h).
Proof.
  unfold Main.main. do 2 (apply clean_or_aborted_print; intros ?).
  assert (∀ k : option string → M unit, ∀ h,
            (∀ h', clean_or_aborted (k token_result h')) →
            clean_or_aborted (bind (Main.get_access_token token_result) k h))
    as Htok.
  { intros k h0 Hk. unfold Main.get_access_token.
    destruct token_result.
    - rewrite bind_assoc. apply clean_or_aborted_print. intros h1.
      rewrite bind_ret_l. apply Hk.
    - do 4 (rewrite bind_assoc; apply clean_or_aborted_print; intros ?).
      rewrite bind_ret_l. apply Hk. }
  apply Htok. intros h1.
  apply clean_or_aborted_bind; [apply deletion_step_clean_or_aborted|].
  intros _. apply emits_bind; [|intros _; by apply emits_print].
  by apply emits_upload_step.
Qed.

(** C4.  If any children listing of a run of [main.py] fails with an HTTP
    error status other than 404, the run ends with [exit(1)], the failed
    request and its two error lines are the last things it did, and the
    whole run contains no upload-session, chunk or delete request: nothing
    is done with what the listing had found so far. *)
Theorem fatal_listing_error_aborts server url_error fs cfg spec entries token_result
    depth h e :
  e ∈ (Main.main server url_error fs cfg spec entries token_result depth h).1 →
  is_fatal_listing e = true →
  let run := Main.main server url_error fs cfg spec entries token_result depth h in
  run.2 = Exit 1 ∧
  Forall (λ e, is_create_session e = false ∧ is_put e = false ∧
               is_delete e = false) run.1 ∧
  ∃ es' e' item_path st,
    run.1 = es' ++ [e'; Print (MsgListError item_path st);
                    Print MsgResponseText] ∧
    is_fatal_listing e' = true.
Proof.
  intros Hin He run.
  destruct (main_clean_or_aborted server url_error fs cfg spec entries token_result depth h)
    as [Hclean|[[Hphase Hend] [c Hc]]]; fold run in Hin |- *.
  { rewrite Forall_forall in Hclean. apply Hclean in Hin. congruence. }
  fold run in Hphase, Hend, Hc. rewrite Hc in Hend.
  destruct Hend as (-> & es' & e' & ip & st & Hes & He' & _).
  split_and!; [done| |eauto 10].
  eapply Forall_impl; [exact Hphase|].
  intros [[]| |]; simpl; try done.
Qed.

Lemma fatal_listing_error_aborts_witness :
  let run := Main.main demo_server demo_url_error demo_fs demo_failing_cfg (Some demo_rules)
                       demo_tree (Some "tok") 10 [] in
  run.2 = Exit 1 ∧
  Forall (λ e, is_create_session e = false ∧ is_put e = false ∧
               is_delete e = false) run.1.
Proof.
  pose proof (fatal_listing_error_aborts demo_server demo_url_error demo_fs demo_failing_cfg
                (Some demo_rules) demo_tree (Some "tok") 10 []
                (Http (GetChildren "Bearer tok" "site" "drive" "root:/Other")
                      (mkResponse 500 None))) as H.
  cbv zeta in *. apply proj2 in H as H'.
  - split; [|exact (proj1 H')]. apply H; [|reflexivity].
    vm_compute. do 4 right. left.
  - vm_compute. do 4 right. left.
  - reflexivity.
Defined.

(** ** Not-found responses *)

(** The handler of HTTP errors looks at the status only, never at the
    folder whose listing failed: a 404 answer to the children listing of any
    folder, the base folder or a nested one, makes the call print the line
    written for the base folder and return the empty mapping; and the loop
    of the enclosing call then goes on with the items that follow the
    folder, its dictionary unchanged. *)
Theorem not_found_is_empty_listing server cfg depth tok site drive item_path h :
  let api_path :=
    if decide (item_path = "")
    then "root:/" +:+ Main.SHAREPOINT_BASE_FOLDER cfg
    else "root:/" +:+ Main.SHAREPOINT_BASE_FOLDER cfg +:+ "/" +:+ item_path in
  let rq := GetChildren (bearer tok) site drive api_path in
  status_code (server h rq) = 404 →
  Main.get_remote_files_recursive server cfg (S depth) tok site drive
                                  item_path h
  = ([Http rq (server h rq);
      Print (MsgFolderNotFound (Main.SHAREPOINT_BASE_FOLDER cfg))], Ret ∅) ∧
  ∀ recurse parent_path item items remote_files h' es,
    item_has_file item = false → item_has_folder item = true →
    recurse (path_join parent_path (item_name item)) (h' ++ [Sleep])
      = (es, Ret ∅) →
    Main.list_items recurse parent_path (item :: items) remote_files h'
    = let '(es', r) := Main.list_items recurse parent_path items remote_files
                                       (h' ++ Sleep :: es) in
      (Sleep :: es ++ es', r).
Proof.
  intros api_path rq H404. split.
  - simpl. fold api_path. fold rq. rewrite bind_request. cbv zeta.
    rewrite H404. reflexivity.
  - intros recurse parent_path item items acc h' es Hfile Hfolder Hrec.
    simpl. rewrite Hfile, Hfolder, bind_emit. unfold bind. rewrite Hrec.
    rewrite (left_id_L ∅ (∪)). rewrite <- app_assoc. simpl.
    by destruct (Main.list_items _ _ _ _ _).
Qed.

Lemma not_found_is_empty_listing_witness :
  status_code (demo_server [] (GetChildren "Bearer tok" "site" "drive"
                                           "root:/Docs/old")) = 404 ∧
  Main.get_remote_files_recursive demo_server demo_main_cfg 1 (Some "tok")
                                  "site" "drive" "old" []
  = ([Http (GetChildren "Bearer tok" "site" "drive" "root:/Docs/old")
           (mkResponse 404 None);
      Print (MsgFolderNotFound "Docs")], Ret ∅).
Proof.
  split; [reflexivity|].
  apply (not_found_is_empty_listing demo_server demo_main_cfg 0 (Some "tok")
           "site" "drive" "old" []).
  reflexivity.
Defined.

(** C3 fails on [main.py]: the comment and the line of the handler speak
    of the base folder, but the handler runs for a 404 at any depth.  Here
    the base folder [Docs] exists and is listed with status 200; it holds
    the files [a.txt] and [stale.txt] and the folder [old], whose own
    listing is answered with 404.  The nested call prints that the folder
    [Docs] was not found, right after [Docs] was listed, and returns the
    empty mapping; the run neither exits nor raises, and returns the two
    files found beside [old]. *)
Theorem nested_not_found_taken_for_base_folder :
  let get p := GetChildren "Bearer tok" "site" "drive" p in
  Main.get_remote_files_recursive demo_server demo_main_cfg 10 (Some "tok")
                                  "site" "drive" "" []
  = ([Http (get "root:/Docs")
           (mkResponse 200
              (Some (mkBody [mkItem "a.txt" "id1" true false;
                             mkItem "old" "id2" false true;
                             mkItem "stale.txt" "id3" true false] None)));
      Sleep;
      Http (get "root:/Docs/old") (mkResponse 404 None);
      Print (MsgFolderNotFound "Docs")],
     Ret (<["a.txt" := "id1"]> (<["stale.txt" := "id3"]> ∅))).
Proof. vm_compute. reflexivity. Qed.

(** ** The deletion step *)

Lemma deletions_none es :
  Forall (λ e, is_delete e = false) es → deletions es = [].
Proof.
  induction 1 as [|e es He _ IH]; [done|].
  destruct e as [[]| |]; try done; exact IH.
Qed.

Lemma deletions_app es1 es2 :
  deletions (es1 ++ es2) = deletions es1 ++ deletions es2.
Proof. apply omap_app. Qed.

Lemma deletions_print m es : deletions (Print m :: es) = deletions es.
Proof. reflexivity. Qed.

Lemma listing_phase_not_delete es :
  Forall (λ e, is_listing_phase e = true) es →
  Forall (λ e, is_delete e = false) es.
Proof. intros H. eapply Forall_impl; [exact H|]. by intros [[]| |]. Qed.

Lemma elem_of_sorted (s : gset string) p : p ∈ sorted s ↔ p ∈ s.
Proof. unfold sorted. by rewrite merge_sort_Permutation, elem_of_elements. Qed.

Lemma NoDup_sorted (s : gset string) : NoDup (sorted s).
Proof. unfold sorted. rewrite merge_sort_Permutation. apply NoDup_elements. Qed.

Lemma Sorted_sorted (s : gset string) : Sorted String.le (sorted s).
Proof. apply Sorted_merge_sort. apply _. Qed.

Lemma delete_item_run server tok site drive item_id h :
  let rq := DeleteItem (bearer tok) site drive item_id in
  let rs := server h rq in
  Main.delete_sharepoint_item server tok site drive item_id h
  = ([Http rq rs;
      Print (if decide (status_code rs = 204) then MsgDeleted item_id
             else MsgDeleteError item_id (status_code rs))], Ret tt).
Proof.
  intros rq rs. unfold Main.delete_sharepoint_item. rewrite bind_request.
  fold rq. cbv zeta. fold rs. by destruct (decide _).
Qed.

(** The deletion loop of lines 161-164 over any list of paths that the
    remote index knows: it returns, having asked for the deletion of the
    item of every path, in order, whatever the answers were. *)
Lemma delete_loop_run server cfg tok (rm : gmap string string) l h :
  (∀ p, p ∈ l → is_Some (rm !! p)) →
  let run :=
    for_each l (λ file_path,
      bind (print (MsgDeleting file_path)) (λ _,
      match rm !! file_path with
      | Some item_id =>
          Main.delete_sharepoint_item server tok (Main.SITE_ID cfg)
                                      (Main.DRIVE_ID cfg) item_id
      | None => raise KeyError
      end)) h in
  run.2 = Ret tt ∧ Forall2 (λ p item_id, rm !! p = Some item_id) l (deletions run.1).
Proof.
  intros Hl run. subst run.
  match goal with |- context [for_each l ?b h] => set (body := b) end.
  destruct (for_each_omap
              (λ e, match e with
                    | Http (DeleteItem _ _ _ item_id) _ => Some item_id
                    | _ => None
                    end)
              (λ p, match rm !! p with Some i => [i] | None => [] end)
              l body h) as [Hr Hd]; [|split; [exact Hr|]].
  - intros p h' Hp. destruct (Hl p Hp) as [i Hi]. subst body. cbv beta.
    rewrite Hi, bind_print, delete_item_run. done.
  - unfold deletions. rewrite Hd. clear -Hl.
    induction l as [|p l IH]; simpl; [apply Forall2_nil_2|].
    destruct (Hl p) as [i Hi]; [left|]. rewrite Hi. simpl.
    apply Forall2_cons_2; [done|]. apply IH. intros q Hq. apply Hl. by right.
Qed.

(** C1.  With deletion-sync enabled and a listing that returned the index
    [rm], the deletion step returns and its DELETE requests are, in sorted
    order and once each, the items of exactly the paths that are keys of
    [rm] and not in the local set; when there is no such path it sends no
    DELETE request at all. *)
Theorem deletion_set_correct server cfg tok local_files depth h les
    (rm : gmap string string) :
  Main.SYNC_DELETIONS cfg = true →
  Main.get_remote_files_recursive server cfg depth tok (Main.SITE_ID cfg)
    (Main.DRIVE_ID cfg) ""
    (h ++ [Print (MsgInfo "Sync deletions enabled. Comparing remote files with local files...")])
  = (les, Ret rm) →
  let run := Main.deletion_step server cfg tok local_files depth h in
  ∃ paths,
    run.2 = Ret tt ∧
    Forall2 (λ p item_id, rm !! p = Some item_id) paths (deletions run.1) ∧
    (∀ p, p ∈ paths ↔ p ∈ dom rm ∧ p ∉ local_files) ∧
    NoDup paths ∧ Sorted String.le paths ∧
    (dom rm ∖ local_files = ∅ → Forall (λ e, is_delete e = false) run.1).
Proof.
  intros Hsync Hlist run. exists (sorted (dom rm ∖ local_files)).
  assert (deletions les = []) as Hles.
  { apply deletions_none, listing_phase_not_delete.
    pose proof (get_remote_files_ok server cfg depth tok (Main.SITE_ID cfg)
                  (Main.DRIVE_ID cfg) "" (h ++ [Print (MsgInfo "Sync deletions enabled. Comparing remote files with local files...")])) as [Hok _].
    by rewrite Hlist in Hok. }
  assert (Forall (λ e, is_delete e = false) les) as Hles'.
  { apply listing_phase_not_delete.
    pose proof (get_remote_files_ok server cfg depth tok (Main.SITE_ID cfg)
                  (Main.DRIVE_ID cfg) "" (h ++ [Print (MsgInfo "Sync deletions enabled. Comparing remote files with local files...")])) as [Hok _].
    by rewrite Hlist in Hok. }
  assert (∀ p, p ∈ sorted (dom rm ∖ local_files) ↔ p ∈ dom rm ∧ p ∉ local_files)
    as Hmem.
  { intros p. by rewrite elem_of_sorted, elem_of_difference. }
  subst run. unfold Main.deletion_step. rewrite Hsync, bind_print.
  rewrite (bind_run _ _ _ _ _ Hlist).
  destruct (decide (dom rm ∖ local_files ≠ ∅)) as [Hne|Heq].
  - rewrite bind_print.
    match goal with |- context [for_each ?l ?b ?h0] =>
      pose proof (delete_loop_run server cfg tok rm l h0) as Hloop;
      destruct (for_each l b h0) as [es r] eqn:E end.
    destruct Hloop as [Hr Hd].
    { intros p [Hp _]%Hmem. by apply elem_of_dom. }
    cbn [fst snd] in *. subst r.
    split_and!; try done.
    + by rewrite deletions_print, deletions_app, Hles, deletions_print.
    + apply NoDup_sorted.
    + apply Sorted_sorted.
  - apply dec_stable in Heq. cbn [fst snd print emit].
    split_and!; try done.
    + rewrite deletions_print, deletions_app, Hles, Heq. apply Forall2_nil_2.
    + apply NoDup_sorted.
    + apply Sorted_sorted.
    + intros _. apply Forall_cons_2; [done|]. apply Forall_app. split; [done|].
      by apply Forall_singleton.
Qed.

Lemma deletion_set_correct_witness :
  let rm : gmap string string := <["a.txt" := "id1"]> (<["stale.txt" := "id3"]> ∅) in
  let run := Main.deletion_step demo_server demo_main_cfg (Some "tok")
                                {["a.txt"]} 10 [] in
  ∃ paths,
    run.2 = Ret tt ∧
    Forall2 (λ p item_id, rm !! p = Some item_id) paths (deletions run.1) ∧
    (∀ p, p ∈ paths ↔ p ∈ dom rm ∧ p ∉ ({["a.txt"]} : gset string)).
Proof.
  intros rm run.
  destruct (deletion_set_correct demo_server demo_main_cfg (Some "tok")
              {["a.txt"]} 10 []
              (Main.get_remote_files_recursive demo_server demo_main_cfg 10
                 (Some "tok") "site" "drive" ""
                 [Print (MsgInfo "Sync deletions enabled. Comparing remote files with local files...")]).1
              rm) as (paths & H1 & H2 & H3 & _).
  - reflexivity.
  - vm_compute. reflexivity.
  - exists paths. split_and!; [exact H1|exact H2|exact H3].
Defined.

(** ** Failures of single items *)

Lemma sessions_app es1 es2 : sessions (es1 ++ es2) = sessions es1 ++ sessions es2.
Proof. apply omap_app. Qed.

Lemma sessions_none es :
  Forall (λ e, is_create_session e = false) es → sessions es = [].
Proof.
  induction 1 as [|e es He _ IH]; [done|].
  destruct e as [[]| |]; try done; exact IH.
Qed.

Lemma accepted_put_not_rejected e :
  is_accepted_put e = true → is_rejected_put e = false.
Proof. destruct e as [[]| |]; simpl; try done. by intros ->. Qed.

Lemma transfer_loop_sessions server url_error report url size cs f start h :
  (∀ rs, emits (λ e, is_error_line e = true) (report rs)) →
  sessions (transfer_loop server url_error report url size cs f start h).1 = [].
Proof.
  intros Hrep. apply sessions_none. apply emits_transfer_loop; [done|].
  intros rs. eapply emits_mono; [apply Hrep|]. by intros [[]|[]|].
Qed.

Lemma main_report_run sp rs doc h :
  json rs = Some doc →
  Main.report_chunk_error sp rs h
  = ([Print (MsgChunkError sp (status_code rs))], Ret tt).
Proof.
  intros Hj. unfold Main.report_chunk_error.
  by rewrite bind_response_json, Hj.
Qed.

(** With an upload URL that [requests] takes and reports that return, the
    loop ends by [break] or by [return]. *)
Lemma transfer_loop_no_raise server url_error report url size cs f start h :
  (∀ e, put_target url_error url ≠ inl e) →
  (∀ h0 rq h', (report (server h0 rq) h').2 = Ret tt) →
  (transfer_loop server url_error report url size cs f start h).2 = Ret Break ∨
  (transfer_loop server url_error report url size cs f start h).2 = Ret Return.
Proof.
  intros Hurl Hrep. remember (length f) as n eqn:Hn. revert f Hn start h.
  induction n as [n IH] using lt_wf_ind. intros f -> start h.
  rewrite transfer_loop_body.
  pose proof (read_app cs f) as Happ.
  destruct (read cs f) as [[|b c] rest]; simpl in *; [by left|].
  destruct (put_target url_error url) as [e|u] eqn:Hu; [by destruct (Hurl e)|].
  set (rq := PutChunk _ _ _ _ _). set (rs := server h rq).
  destruct (accepted _).
  - specialize (IH (length rest)).
    match goal with |- context [transfer_loop server url_error report ?a ?b ?c rest ?d ?e] =>
      specialize (IH ltac:(subst f; simpl; rewrite length_app; lia) rest eq_refl d e);
      destruct (transfer_loop server url_error report a b c rest d e) as [es r] end.
    done.
  - right. rewrite run_cons_outcome, bind_outcome. subst rs. by rewrite Hrep.
Qed.

(** One upload of [main.py] that raises nothing returns, having opened one
    session, whatever the statuses it received. *)
Lemma main_upload_returns server url_error fs tok site drive lp sp h :
  is_Some (fs lp) →
  (∀ h' rq, is_Some (json (server h' rq))) →
  (∀ h' rq doc, is_create_session (Http rq (server h' rq)) = true →
                status_code (server h' rq) = 200 →
                json (server h' rq) = Some doc →
                (∀ e, put_target url_error (uploadUrl doc) ≠ inl e)) →
  (Main.upload_file_to_sharepoint server url_error fs tok site drive lp sp h).2 = Ret tt ∧
  sessions (Main.upload_file_to_sharepoint server url_error fs tok site drive lp sp h).1
    = [sp].
Proof.
  intros [f Hf] Hjson Hurl. unfold Main.upload_file_to_sharepoint.
  rewrite bind_request. cbv zeta.
  set (rq := CreateUploadSession _ _ _ _). set (rs := server h rq).
  destruct (Hjson h rq) as [doc Hdoc]. fold rs in Hdoc.
  destruct (decide (status_code rs ≠ 200)) as [|E];
    rewrite bind_response_json, Hdoc; [done|].
  apply dec_stable in E. rewrite Hf.
  pose proof (Hurl h rq doc eq_refl E Hdoc) as Hu.
  rewrite run_cons_events, run_cons_outcome, bind_events, bind_outcome.
  match goal with |- context [transfer_loop ?a ?k ?b ?c ?d ?e ?g ?i ?j] =>
    pose proof (transfer_loop_no_raise a k b c d e g i j Hu) as Hr;
    pose proof (transfer_loop_sessions a k b c d e g i j
                  (main_report_lines sp)) as Hs;
    destruct (transfer_loop a k b c d e g i j) as [es r] end.
  cbn [fst snd] in *.
  change (sessions (Http rq rs :: ?l)) with (sp :: sessions l).
  rewrite sessions_app, Hs.
  destruct Hr as [-> | ->]; try done.
  intros h0 rq0 h1. destruct (Hjson h0 rq0) as [doc0 Hdoc0].
  by rewrite (main_report_run _ _ _ _ Hdoc0).
Qed.

Lemma main_upload_session_failure server url_error fs tok site drive lp sp h :
  let rq := CreateUploadSession (bearer tok) site drive sp in
  status_code (server h rq) ≠ 200 →
  Main.upload_file_to_sharepoint server url_error fs tok site drive lp sp h
  = match json (server h rq) with
    | Some _ =>
        ([Http rq (server h rq);
          Print (MsgSessionError sp (status_code (server h rq)))], Ret tt)
    | None => ([Http rq (server h rq)], Raise JSONDecodeError)
    end.
Proof.
  intros rq Hst. unfold Main.upload_file_to_sharepoint.
  rewrite bind_request. fold rq. cbv zeta. rewrite decide_True by done.
  rewrite bind_response_json. by destruct (json (server h rq)).
Qed.

Lemma main_upload_chunk_rejection server url_error fs tok site drive lp sp h e :
  (∀ h' rq, is_Some (json (server h' rq))) →
  let run := Main.upload_file_to_sharepoint server url_error fs tok site drive lp sp h in
  e ∈ run.1 → is_rejected_put e = true →
  run.2 = Ret tt ∧
  ∃ es' st, run.1 = es' ++ [e; Print (MsgChunkError sp st)] ∧
            Forall (λ e', is_rejected_put e' = false) es'.
Proof.
  intros Hjson run. subst run. unfold Main.upload_file_to_sharepoint.
  rewrite bind_request. cbv zeta.
  set (rq := CreateUploadSession _ _ _ _). set (rs := server h rq).
  destruct (Hjson h rq) as [doc Hdoc]. fold rs in Hdoc.
  destruct (decide (status_code rs ≠ 200)); rewrite bind_response_json, Hdoc.
  { simpl. intros [->|[->|?%elem_of_nil]%elem_of_cons]%elem_of_cons; done. }
  destruct (fs lp) as [f|].
  2:{ simpl. intros [->|?%elem_of_nil]%elem_of_cons; done. }
  unfold bind.
  destruct (transfer_loop _ _ _ _ _ _ _ _ _) as [es r] eqn:E.
  apply transfer_loop_shape in E as (oks & Hoks & Hes).
  assert (Forall (λ e', is_rejected_put e' = false) oks) as Hoks'.
  { eapply Forall_impl; [exact Hoks|]. apply accepted_put_not_rejected. }
  assert (∀ tl, Forall (λ e', is_rejected_put e' = false) tl →
                e ∈ Http rq rs :: oks ++ tl → is_rejected_put e = true → False)
    as Hno.
  { intros tl Htl Hin He.
    assert (Forall (λ e', is_rejected_put e' = false) (Http rq rs :: oks ++ tl)) as Hall.
    { apply Forall_cons_2; [done|]. by apply Forall_app. }
    rewrite Forall_forall in Hall. apply Hall in Hin. congruence. }
  destruct Hes as [[-> [-> | [e1 ->]]]|(rq' & h' & lines & -> & He' & Hl)]; simpl.
  - intros Hin He. destruct (Hno [Print (MsgUploaded sp)]); [by repeat constructor|done..].
  - intros Hin He. destruct (Hno []); [constructor|by rewrite app_nil_r|done].
  - destruct (Hjson h' rq') as [doc' Hdoc'].
    unfold bind in Hl. rewrite (main_report_run _ _ _ _ Hdoc') in Hl.
    simpl in Hl. injection Hl as <- <-. simpl. rewrite app_nil_r.
    intros Hin He. split; [done|].
    assert (e = Http rq' (server h' rq')) as ->.
    { apply elem_of_cons in Hin as [->|Hin]; [done|].
      apply elem_of_app in Hin as [Hin|Hin].
      - rewrite Forall_forall in Hoks'. apply Hoks' in Hin. congruence.
      - apply elem_of_cons in Hin as [->|Hin]; [done|].
        apply list_elem_of_singleton in Hin as ->. done. }
    exists (Http rq rs :: oks), (status_code (server h' rq')).
    split; [done|]. by apply Forall_cons_2.
Qed.

Lemma upload_step_run server url_error fs cfg tok local_files h :
  (∀ p, p ∈ local_files →
        is_Some (fs (path_join (Main.LOCAL_DIRECTORY_PATH cfg) p))) →
  (∀ h' rq, is_Some (json (server h' rq))) →
  (∀ h' rq doc, is_create_session (Http rq (server h' rq)) = true →
                status_code (server h' rq) = 200 →
                json (server h' rq) = Some doc →
                (∀ e, put_target url_error (uploadUrl doc) ≠ inl e)) →
  (Main.upload_step server url_error fs cfg tok local_files h).2 = Ret tt ∧
  sessions (Main.upload_step server url_error fs cfg tok local_files h).1
    = path_join (Main.SHAREPOINT_BASE_FOLDER cfg) <$> sorted local_files.
Proof.
  intros Hfs Hjson Hurl. unfold Main.upload_step. rewrite bind_print.
  rewrite run_cons_events, run_cons_outcome.
  match goal with |- context [for_each ?l ?b ?h0] =>
    destruct (for_each_omap
                (λ e, match e with
                      | Http (CreateUploadSession _ _ _ sp) _ => Some sp
                      | _ => None
                      end)
                (λ p, [path_join (Main.SHAREPOINT_BASE_FOLDER cfg) p])
                l b h0) as [Hr Hs] end.
  { intros p h' Hp%elem_of_sorted. by apply main_upload_returns; [apply Hfs|..]. }
  split; [done|].
  change (sessions (Print ?m :: ?l)) with (sessions l).
  unfold sessions. rewrite Hs.
  generalize (sorted local_files). intros l.
  induction l as [|x l IH]; [done|].
  rewrite !fmap_cons, concat_cons, IH. done.
Qed.

(** What holds of C7 in [main.py].  A deletion returns after logging,
    whatever the status, and the deletion loop asks for every item in turn.
    When the responses carry JSON documents: an upload whose session request
    is not answered with 200 logs the error and returns without sending a
    chunk; an upload in which a chunk is rejected logs the error and
    returns, the rejected request being the last request of that upload, so
    that it is not sent again; and as long as no exception is raised (every
    listed file can be read and a session opened with 200 comes with an
    upload URL), the upload loop opens a session for every local file, in
    sorted order, whatever statuses the earlier files met. *)
Lemma per_item_failures_with_json_bodies server url_error fs cfg tok :
  (∀ site drive item_id h,
     let rq := DeleteItem (bearer tok) site drive item_id in
     let rs := server h rq in
     Main.delete_sharepoint_item server tok site drive item_id h
     = ([Http rq rs;
         Print (if decide (status_code rs = 204) then MsgDeleted item_id
                else MsgDeleteError item_id (status_code rs))], Ret tt)) ∧
  (∀ (rm : gmap string string) l h,
     (∀ p, p ∈ l → is_Some (rm !! p)) →
     let run :=
       for_each l (λ file_path,
         bind (print (MsgDeleting file_path)) (λ _,
         match rm !! file_path with
         | Some item_id =>
             Main.delete_sharepoint_item server tok (Main.SITE_ID cfg)
                                         (Main.DRIVE_ID cfg) item_id
         | None => raise KeyError
         end)) h in
     run.2 = Ret tt ∧
     Forall2 (λ p item_id, rm !! p = Some item_id) l (deletions run.1)) ∧
  ((∀ h' rq, is_Some (json (server h' rq))) →
   (∀ site drive lp sp h,
      let rq := CreateUploadSession (bearer tok) site drive sp in
      status_code (server h rq) ≠ 200 →
      Main.upload_file_to_sharepoint server url_error fs tok site drive lp sp h
      = ([Http rq (server h rq);
          Print (MsgSessionError sp (status_code (server h rq)))], Ret tt)) ∧
   (∀ site drive lp sp h e,
      let run := Main.upload_file_to_sharepoint server url_error fs tok site drive lp sp h in
      e ∈ run.1 → is_rejected_put e = true →
      run.2 = Ret tt ∧
      ∃ es' st, run.1 = es' ++ [e; Print (MsgChunkError sp st)] ∧
                Forall (λ e', is_rejected_put e' = false) es') ∧
   (∀ local_files h,
      (∀ p, p ∈ local_files →
            is_Some (fs (path_join (Main.LOCAL_DIRECTORY_PATH cfg) p))) →
      (∀ h' rq doc, is_create_session (Http rq (server h' rq)) = true →
                    status_code (server h' rq) = 200 →
                    json (server h' rq) = Some doc →
                    (∀ e, put_target url_error (uploadUrl doc) ≠ inl e)) →
      (Main.upload_step server url_error fs cfg tok local_files h).2 = Ret tt ∧
      sessions (Main.upload_step server url_error fs cfg tok local_files h).1
        = path_join (Main.SHAREPOINT_BASE_FOLDER cfg) <$> sorted local_files)).
Proof.
  split_and!.
  - intros. apply delete_item_run.
  - intros rm l h Hl. by apply delete_loop_run.
  - intros Hjson. split_and!.
    + intros site drive lp sp h rq Hst.
      rewrite main_upload_session_failure by done. fold rq.
      by destruct (Hjson h rq) as [doc ->].
    + intros. by apply main_upload_chunk_rejection.
    + intros. by apply upload_step_run.
Qed.

(** With JSON error documents the pass goes on: the chunk of [a.txt] is
    rejected, the session for [sub/b.txt] is refused, both are logged and
    both files were tried. *)
Example flaky_store_pass_continues :
  let run := Main.upload_step demo_flaky_server demo_url_error demo_fs demo_main_cfg
               (Some "tok") ({["a.txt"; "sub/b.txt"]} : gset string) [] in
  run.2 = Ret tt ∧ sessions run.1 = ["Docs/a.txt"; "Docs/sub/b.txt"] ∧
  Print (MsgChunkError "Docs/a.txt" 500) ∈ run.1 ∧
  Print (MsgSessionError "Docs/sub/b.txt" 503) ∈ run.1.
Proof.
  intros run. subst run.
  assert (∀ h' rq, is_Some (json (demo_flaky_server h' rq))) as Hjson.
  { intros h' [a s d p|a s d i|a s d sp|u s e t c]; simpl; eauto.
    destruct (decide (sp = "Docs/sub/b.txt")); simpl; eauto. }
  destruct (per_item_failures_with_json_bodies demo_flaky_server demo_url_error demo_fs
              demo_main_cfg (Some "tok")) as (_ & _ & H).
  destruct (H Hjson) as (_ & _ & Hstep).
  destruct (Hstep ({["a.txt"; "sub/b.txt"]} : gset string) []) as [Hr Hs].
  - intros p [->%elem_of_singleton| ->%elem_of_singleton]%elem_of_union;
      vm_compute; eauto.
  - intros h' [a s d p|a s d i|a s d sp|u s e t c] doc; simpl; try done.
    destruct (decide (sp = "Docs/sub/b.txt")); simpl; [done|].
    by intros _ _ [= <-].
  - split; [exact Hr|]. split; [rewrite Hs; vm_compute; reflexivity|].
    split; vm_compute; repeat first [left | right].
Qed.

(** C7 fails on [main.py]: the line that reports a failed session (and the
    one that reports a rejected chunk) formats [response.json()], which
    raises when the body of the response is not JSON.  Here the session
    request for [Docs/a.txt] is answered with 503 and such a body: nothing
    is logged for it, the run ends with the exception, and no session is
    ever requested for the next local file, [sub/b.txt]. *)
Theorem session_failure_ends_pass :
  let local_files := Main.local_scan demo_main_cfg (Some demo_rules) demo_tree in
  let run := Main.main demo_gateway_server demo_url_error demo_fs demo_main_cfg
                       (Some demo_rules) demo_tree (Some "tok") 10 [] in
  sorted local_files = ["a.txt"; "sub/b.txt"] ∧
  run.2 = Raise JSONDecodeError ∧
  sessions run.1 = ["Docs/a.txt"] ∧
  last run.1 = Some (Http (CreateUploadSession "Bearer tok" "site" "drive"
                                               "Docs/a.txt")
                          (mkResponse 503 None)) ∧
  Forall (λ e, ∀ sp st, e ≠ Print (MsgSessionError sp st)) run.1.
Proof.
  vm_compute. split_and!; try reflexivity.
  repeat (apply Forall_cons_2; [done|]). apply Forall_nil_2.
Qed.

(** ** What gets uploaded *)

Lemma elem_of_sessions sp es :
  sp ∈ sessions es ↔ ∃ a s d rs, Http (CreateUploadSession a s d sp) rs ∈ es.
Proof.
  unfold sessions. rewrite list_elem_of_omap. split.
  - intros ([[]| |] & Hin & E); simplify_eq/=. eauto.
  - intros (a & s & d & rs & Hin). eexists. split; [exact Hin|done].
Qed.

Lemma emits_deletion_step server cfg tok local_files depth :
  emits (λ e, is_create_session e = false ∧ is_put e = false)
        (Main.deletion_step server cfg tok local_files depth).
Proof.
  unfold Main.deletion_step. destruct (Main.SYNC_DELETIONS cfg);
    [|by apply emits_print].
  apply emits_bind; [by apply emits_print|]. intros _.
  apply emits_bind.
  { intros h. eapply Forall_impl; [apply get_remote_files_ok|].
    by intros [[]| |]. }
  intros rm. destruct (decide _); [|by apply emits_print].
  apply emits_bind; [by apply emits_print|]. intros _.
  apply emits_for_each. intros p _.
  apply emits_bind; [by apply emits_print|]. intros _.
  destruct (rm !! p); [|apply emits_raise].
  by apply emits_delete_item.
Qed.

(** Every upload session of a run of [main.py] is for a path of the local
    set. *)
Lemma main_sessions server url_error fs cfg spec entries token_result depth h sp :
  sp ∈ sessions (Main.main server url_error fs cfg spec entries token_result depth h).1 →
  ∃ p, p ∈ Main.local_scan cfg spec entries ∧
       sp = path_join (Main.SHAREPOINT_BASE_FOLDER cfg) p.
Proof.
  intros (a & s & d & rs & Hin)%elem_of_sessions.
  set (P := λ e, match e with
                 | Http (CreateUploadSession _ _ _ sp) _ =>
                     ∃ p, p ∈ Main.local_scan cfg spec entries ∧
                          sp = path_join (Main.SHAREPOINT_BASE_FOLDER cfg) p
                 | Http (PutChunk _ _ _ _ _) _ => True
                 | _ => True
                 end).
  assert (emits P (Main.main server url_error fs cfg spec entries token_result depth))
    as Hemits.
  { unfold Main.main.
    do 2 (apply emits_bind; [by apply emits_print|intros _]).
    apply emits_bind; [by apply emits_get_access_token|intros tok].
    apply emits_bind.
    { eapply emits_mono; [apply emits_deletion_step|].
      by intros [[]| |] [? ?]. }
    intros _. apply emits_bind; [|intros _; by apply emits_print].
    apply emits_upload_step; try done.
    intros ? ? ? sp' ? (p & -> & Hp%elem_of_elements)%list_elem_of_fmap.
    simpl. eauto. }
  specialize (Hemits h). rewrite Forall_forall in Hemits.
  apply (Hemits _ Hin).
Qed.

Lemma emits_standalone_upload (P : Event → Prop) server url_error fs tok site drive lp sp :
  (∀ rs, P (Http (CreateUploadSession (bearer tok) site drive sp) rs)) →
  (∀ u s e t c rs, P (Http (PutChunk u s e t c) rs)) →
  (∀ m, P (Print m)) →
  emits P (Standalone.upload_file_to_sharepoint server url_error fs tok site drive lp sp).
Proof.
  intros Hc Hput Hp. unfold Standalone.upload_file_to_sharepoint.
  destruct (fs lp); [|by apply emits_print].
  apply emits_bind; [by apply emits_request|].
  intros rs. destruct (decide _).
  { apply emits_bind; [by apply emits_print|]. intros _.
    apply emits_bind; [apply emits_response_json|]. intros _. by apply emits_print. }
  apply emits_bind; [apply emits_response_json|]. intros doc.
  destruct (Standalone.truthy _); cbn [negb]; [|by apply emits_print].
  apply emits_bind.
  - apply emits_transfer_loop; [done|]. intros rs'.
    eapply emits_mono; [apply standalone_report_lines|]. by intros [[]|[]|].
  - intros []; [by apply emits_print|apply emits_ret].
Qed.

Lemma emits_get_gitignore_spec {B} (P : Event → Prop) gitignore
    (k : option Rules → M B) :
  (∀ m, P (Print m)) → emits P (k gitignore) →
  emits P (bind (Standalone.get_gitignore_spec gitignore) k).
Proof.
  intros Hp Hk h. unfold Standalone.get_gitignore_spec.
  destruct gitignore; rewrite bind_assoc, bind_print, bind_ret_l.
  - specialize (Hk (h ++ [Print (MsgInfo "Found .gitignore, applying rules.")])).
    destruct (k _ _). by apply Forall_cons_2.
  - specialize (Hk (h ++ [Print (MsgInfo "No .gitignore file found in the root directory.")])).
    destruct (k _ _). by apply Forall_cons_2.
Qed.

(** Every upload session of a run of [sharepoint_upload.py] is for a file
    that the walk yielded. *)
Lemma standalone_sessions server url_error fs cfg spec entries token_result h sp :
  sp ∈ sessions (Standalone.main server url_error fs cfg spec (Some entries)
                                 token_result h).1 →
  ∃ root rel files f,
    (root, rel, files)
      ∈ os_walk spec (Standalone.LOCAL_DIRECTORY_PATH cfg) entries ∧
    f ∈ files ∧
    sp = path_join (Standalone.SHAREPOINT_BASE_FOLDER cfg) (relpath (rel ++ [f])).
Proof.
  intros (a & s & d & rs & Hin)%elem_of_sessions.
  set (P := λ e, match e with
                 | Http (CreateUploadSession _ _ _ sp) _ =>
                     ∃ root rel files f,
                       (root, rel, files)
                         ∈ os_walk spec (Standalone.LOCAL_DIRECTORY_PATH cfg)
                                   entries ∧
                       f ∈ files ∧
                       sp = path_join (Standalone.SHAREPOINT_BASE_FOLDER cfg)
                                      (relpath (rel ++ [f]))
                 | _ => True
                 end).
  assert (emits P (Standalone.main server url_error fs cfg spec (Some entries) token_result))
    as Hemits.
  { unfold Standalone.main.
    destruct (Standalone.contains _ _); [by apply emits_print|].
    apply emits_bind.
    { unfold Standalone.get_access_token. destruct token_result.
      - apply emits_bind; [by apply emits_print|intros; apply emits_ret].
      - repeat (apply emits_bind; [by apply emits_print|intros _]).
        apply emits_ret. }
    intros tok. destruct (Standalone.truthy tok); [|apply emits_ret].
    apply emits_bind; [by apply emits_print|intros _].
    apply emits_get_gitignore_spec; [done|].
    apply emits_bind; [|intros _; by apply emits_print].
    apply emits_for_each. intros [[root rel] files] Hw.
    unfold Standalone.upload_files. apply emits_for_each. intros f Hf.
    destruct (match spec with Some _ => _ | None => _ end);
      [by apply emits_print|].
    apply emits_standalone_upload; try done.
    intros rs'. simpl. eauto 10. }
  specialize (Hemits h). rewrite Forall_forall in Hemits.
  apply (Hemits _ Hin).
Qed.

(** C9.  For a well-formed local tree and any rule set, a file whose path
    passes through a directory named [.git], at any depth, is not in the
    local path set of [main.py], and neither script opens an upload session
    for its destination path. *)
Theorem git_directory_excluded server url_error fs cfg acfg spec entries dirs f
    token_result depth h :
  wf_tree entries = true → has_file entries dirs f → ".git" ∈ dirs →
  (relpath (dirs ++ [f]) ∉ Main.local_scan cfg spec entries) ∧
  (path_join (Main.SHAREPOINT_BASE_FOLDER cfg) (relpath (dirs ++ [f]))
     ∉ sessions (Main.main server url_error fs cfg spec entries token_result depth h).1) ∧
  (path_join (Standalone.SHAREPOINT_BASE_FOLDER acfg) (relpath (dirs ++ [f]))
     ∉ sessions (Standalone.main server url_error fs acfg spec (Some entries)
                                 token_result h).1).
Proof.
  intros Hwf Hf Hgit.
  assert (starts_with_sep (relpath (dirs ++ [f])) = false) as Hrel.
  { apply relpath_not_abs; [by apply has_file_valid with (1 := Hwf)|by destruct dirs]. }
  assert (relpath (dirs ++ [f]) ∉ Main.local_scan cfg spec entries) as Hscan.
  { intros Hin. destruct (local_scan_path _ _ _ _ _ Hwf Hf Hin) as [Hk _].
    by apply path_kept_no_git in Hk. }
  split_and!; [done| |].
  - intros (p & Hp & E)%main_sessions.
    pose proof Hp as (root & rel & files & f' & Hw & Hf' & -> & _)%elem_of_local_scan.
    apply path_join_inj in E; [|done|by eapply walk_file_not_abs].
    by rewrite E in Hscan.
  - intros (root & rel & files & f' & Hw & Hf' & E)%standalone_sessions.
    apply path_join_inj in E; [|done|by eapply walk_file_not_abs].
    by eapply walk_file_not_git.
Qed.

Lemma git_directory_excluded_witness :
  wf_tree demo_tree = true ∧ has_file demo_tree [".git"] "config" ∧
  (".git/config" ∉ Main.local_scan demo_main_cfg None demo_tree) ∧
  ("Docs/.git/config"
     ∉ sessions (Main.main demo_server demo_url_error demo_fs demo_main_cfg None demo_tree
                           (Some "tok") 10 []).1) ∧
  ("Docs/.git/config"
     ∉ sessions (Standalone.main demo_server demo_url_error demo_fs demo_alone_cfg None
                                 (Some demo_tree) (Some "tok") []).1).
Proof.
  assert (has_file demo_tree [".git"] "config") as Hhas.
  { eexists. split; [|left]. simpl. eexists. split; [|reflexivity]. right. left. }
  split; [reflexivity|]. split; [exact Hhas|].
  apply (git_directory_excluded demo_server demo_url_error demo_fs demo_main_cfg demo_alone_cfg
           None demo_tree [".git"] "config" (Some "tok") 10 []);
    [reflexivity|exact Hhas|left].
Defined.

(** ** A local file that is gone *)

(** C10.  In [sharepoint_upload.py], the upload of a local path that does
    not exist prints the missing-file line and returns without any request;
    the loop over the files of the directory then goes on with the files
    that follow. *)
Theorem missing_local_file_skipped server url_error fs cfg tok site drive lp sp h :
  fs lp = None →
  Standalone.upload_file_to_sharepoint server url_error fs tok site drive lp sp h
  = ([Print (MsgFileNotFound lp)], Ret tt) ∧
  ∀ spec root rel filename files h',
    path_join root filename = lp →
    match spec with
    | Some rules => match_file rules (relpath (rel ++ [filename]))
    | None => false
    end = false →
    Standalone.upload_files server url_error fs cfg tok spec root rel
                            (filename :: files) h'
    = let '(es, r) := Standalone.upload_files server url_error fs cfg tok spec root rel
                        files (h' ++ [Print (MsgFileNotFound lp)]) in
      (Print (MsgFileNotFound lp) :: es, r).
Proof.
  intros Hfs.
  assert (∀ site drive sp h,
            Standalone.upload_file_to_sharepoint server url_error fs tok site drive lp sp h
            = ([Print (MsgFileNotFound lp)], Ret tt)) as Hup.
  { intros. unfold Standalone.upload_file_to_sharepoint. by rewrite Hfs. }
  split; [apply Hup|].
  intros spec root rel filename files h' Hlp Hspec.
  unfold Standalone.upload_files. simpl. rewrite Hspec, Hlp.
  unfold bind at 1. rewrite Hup. simpl.
  by destruct (for_each _ _ _).
Qed.

Lemma missing_local_file_skipped_witness :
  demo_fs "/repo/gone.txt" = None ∧
  Standalone.upload_file_to_sharepoint demo_server demo_url_error demo_fs (Some "tok") "site"
    "drive" "/repo/gone.txt" "Docs/gone.txt" []
  = ([Print (MsgFileNotFound "/repo/gone.txt")], Ret tt).
Proof.
  split; [reflexivity|].
  apply (missing_local_file_skipped demo_server demo_url_error demo_fs demo_alone_cfg
           (Some "tok") "site" "drive" "/repo/gone.txt" "Docs/gone.txt" []).
  reflexivity.
Defined.

(** ** A missing access token *)

(** [sharepoint_upload.py] does nothing without a token: its run makes no
    request. *)
Lemma standalone_without_token server url_error fs cfg spec entries h :
  Forall (λ e, is_request e = false)
         (Standalone.main server url_error fs cfg spec entries None h).1.
Proof.
  unfold Standalone.main. destruct entries as [entries|].
  - destruct (Standalone.contains _ _); [by repeat constructor|].
    simpl. by repeat constructor.
  - by repeat constructor.
Qed.

(** C5 fails on [main.py]: when no token is obtained the run goes on with
    [None] as the token and sends its listing, delete, session and chunk
    requests with the header [Bearer None]. *)
Theorem main_goes_on_without_token :
  let run := Main.main demo_server demo_url_error demo_fs demo_main_cfg (Some demo_rules)
                       demo_tree None 10 [] in
  run.2 = Ret tt ∧
  Print MsgTokenError ∈ run.1 ∧
  Http (GetChildren "Bearer None" "site" "drive" "root:/Docs")
       (demo_server [] (GetChildren "Bearer None" "site" "drive" "root:/Docs"))
    ∈ run.1 ∧
  Http (DeleteItem "Bearer None" "site" "drive" "id3") (mkResponse 204 None)
    ∈ run.1 ∧
  Http (CreateUploadSession "Bearer None" "site" "drive" "Docs/a.txt")
       (mkResponse 200 (Some (mkBody [] (Some "https://up")))) ∈ run.1 ∧
  sessions run.1 = ["Docs/a.txt"; "Docs/sub/b.txt"] ∧
  length (puts run.1) = 1%nat.
Proof.
  vm_compute. split_and!; try reflexivity; repeat first [left | right].
Qed.

(** * Further properties *)

(** ** Reading, once more *)

Lemma read_take_drop n f :
  0 ≤ n → read n f = (take (Z.to_nat n) f, drop (Z.to_nat n) f).
Proof.
  revert n. induction f as [|b f IH]; intros n Hn; simpl.
  - by rewrite take_nil, drop_nil.
  - destruct (Z.eqb_spec n 0) as [->|Hne]; [done|].
    replace (Z.to_nat n) with (S (Z.to_nat (n - 1))) by lia.
    rewrite IH by lia. done.
Qed.

Lemma read_length n f :
  0 < n →
  Z.of_nat (length (read n f).1) ≤ n ∧
  ((read n f).2 ≠ [] → Z.of_nat (length (read n f).1) = n).
Proof.
  intros Hn. rewrite read_take_drop by lia. simpl.
  rewrite length_take. split; [lia|].
  intros Hrest.
  assert (Z.to_nat n < length f)%nat; [|lia].
  destruct (decide (Z.to_nat n < length f)%nat); [done|].
  destruct Hrest. apply drop_ge. lia.
Qed.

(** ** An induction principle for the transfer loop *)

Lemma transfer_loop_nil server url_error report url size cs start h :
  transfer_loop server url_error report url size cs [] start h = ([], Ret Break).
Proof. by rewrite transfer_loop_body. Qed.

Lemma transfer_loop_induction server url_error report url size cs
    (P : list byte → Z → History → list Event * Outcome LoopExit → Prop) :
  (∀ f start h, (read cs f).1 = [] → P f start h ([], Ret Break)) →
  (∀ f start h e, (read cs f).1 ≠ [] → put_target url_error url = inl e →
                  P f start h ([], Raise (url_exn e))) →
  (∀ f start h u,
     let chunk := (read cs f).1 in
     let rq := PutChunk u start (start + Z.of_nat (length chunk) - 1) size chunk in
     let rs := server h rq in
     chunk ≠ [] → put_target url_error url = inr u →
     accepted (status_code rs) = false →
     P f start h (Http rq rs :: (report rs (h ++ [Http rq rs])).1,
                  match (report rs (h ++ [Http rq rs])).2 with
                  | Ret _ => Ret Return
                  | Exit c => Exit c
                  | Raise x => Raise x
                  end)) →
  (∀ f start h u,
     let chunk := (read cs f).1 in
     let rest := (read cs f).2 in
     let end_index := start + Z.of_nat (length chunk) - 1 in
     let rq := PutChunk u start end_index size chunk in
     let rs := server h rq in
     let run := transfer_loop server url_error report url size cs rest (end_index + 1)
                              (h ++ [Http rq rs]) in
     chunk ≠ [] → put_target url_error url = inr u →
     accepted (status_code rs) = true →
     P rest (end_index + 1) (h ++ [Http rq rs]) run →
     P f start h (Http rq rs :: run.1, run.2)) →
  ∀ f start h, P f start h (transfer_loop server url_error report url size cs f start h).
Proof.
  intros Hbreak Hnourl Hreject Haccept f.
  remember (length f) as n eqn:Hn. revert f Hn.
  induction n as [n IH] using lt_wf_ind. intros f -> start h.
  rewrite transfer_loop_body.
  pose proof (read_app cs f) as Happ.
  specialize (Hbreak f start h). specialize (Hnourl f start h).
  specialize (Hreject f start h). specialize (Haccept f start h).
  destruct (read cs f) as [[|b c] rest]; simpl in *; [by apply Hbreak|].
  destruct (put_target url_error url) as [e|u]; [by apply Hnourl|].
  specialize (Hreject u). specialize (Haccept u).
  set (rq := PutChunk _ _ _ _ _) in *. set (rs := server h rq) in *.
  destruct (accepted (status_code rs)).
  - specialize (IH (length rest)).
    match goal with |- context [transfer_loop server url_error report ?a ?b ?c rest ?d ?e] =>
      specialize (IH ltac:(subst f; simpl; rewrite length_app; lia) rest eq_refl d e);
      specialize (Haccept ltac:(done) eq_refl eq_refl IH);
      destruct (transfer_loop server url_error report a b c rest d e) as [es r] end.
    exact Haccept.
  - specialize (Hreject ltac:(done) eq_refl eq_refl).
    unfold bind. destruct (report rs _) as [es [[]|c'|x]]; simpl in *;
      by rewrite ?app_nil_r.
Qed.
(** ** The runs of one upload *)

Lemma chunks_error_lines lines :
  Forall (λ e, is_error_line e = true) lines → chunks lines = [].
Proof. intros H. unfold chunks. by rewrite puts_error_lines. Qed.

Lemma put_urls_error_lines lines :
  Forall (λ e, is_error_line e = true) lines → put_urls lines = [].
Proof.
  induction 1 as [|e es He _ IH]; [done|].
  destruct e as [[]|[]|]; try done; exact IH.
Qed.

Lemma chunks_cons_put url s e t c rs es :
  chunks (Http (PutChunk url s e t c) rs :: es) = c :: chunks es.
Proof. reflexivity. Qed.

Lemma put_urls_cons_put url s e t c rs es :
  put_urls (Http (PutChunk url s e t c) rs :: es) = url :: put_urls es.
Proof. reflexivity. Qed.

Lemma chunks_app es1 es2 : chunks (es1 ++ es2) = chunks es1 ++ chunks es2.
Proof. unfold chunks. by rewrite puts_app, fmap_app. Qed.

Lemma put_urls_app es1 es2 : put_urls (es1 ++ es2) = put_urls es1 ++ put_urls es2.
Proof. apply omap_app. Qed.

(** The chunks of the loop: each holds at least one byte and at most
    [cs]; every chunk that is followed by another one holds exactly [cs]. *)
Lemma transfer_loop_chunk_sizes server url_error report url size cs :
  0 < cs →
  (∀ rs, emits (λ e, is_error_line e = true) (report rs)) →
  ∀ f start h i c,
    chunks (transfer_loop server url_error report url size cs f start h).1 !! i = Some c →
    0 < Z.of_nat (length c) ≤ cs ∧
    ((S i < length (chunks (transfer_loop server url_error report url size cs f start h).1))%nat →
     Z.of_nat (length c) = cs).
Proof.
  intros Hcs Hrep.
  apply (transfer_loop_induction server url_error report url size cs
           (λ f start h run, ∀ i c, chunks run.1 !! i = Some c →
              0 < Z.of_nat (length c) ≤ cs ∧
              ((S i < length (chunks run.1))%nat → Z.of_nat (length c) = cs))).
  - intros f start h _ i c. by destruct i.
  - intros f start h e _ _ i c. by destruct i.
  - intros f start h u chunk rq rs Hne Hu Hacc i c. cbn [fst].
    subst rq. rewrite chunks_cons_put, chunks_error_lines by apply Hrep.
    destruct i as [|i]; [|by rewrite lookup_cons, lookup_nil].
    intros [= <-]. destruct (read_length cs f Hcs) as [Hle _]. fold chunk in Hle.
    split; [|simpl; lia]. split; [|done]. destruct chunk; [done|simpl; lia].
  - intros f start h u chunk rest end_index rq rs run Hne Hu Hacc IH i c.
    cbn [fst]. subst rq. rewrite chunks_cons_put.
    destruct i as [|i]; simpl.
    + intros [= <-]. destruct (read_length cs f Hcs) as [Hle Hfull].
      fold chunk in Hle, Hfull. fold rest in Hfull.
      split; [split; [destruct chunk; [done|simpl; lia]|done]|].
      intros Hlen. apply Hfull. intros Hrest.
      subst run. rewrite Hrest, transfer_loop_nil in Hlen. simpl in Hlen. lia.
    + intros Hi. destruct (IH i c Hi) as [H1 H2]. split; [done|].
      intros Hlen. apply H2. lia.
Qed.

(** Every chunk of the loop goes to the URL of the session. *)
Lemma transfer_loop_urls server url_error report url size cs :
  (∀ rs, emits (λ e, is_error_line e = true) (report rs)) →
  ∀ f start h,
    Forall (λ u, put_target url_error url = inr u)
           (put_urls (transfer_loop server url_error report url size cs f start h).1).
Proof.
  intros Hrep.
  apply (transfer_loop_induction server url_error report url size cs
           (λ f start h run,
              Forall (λ u, put_target url_error url = inr u) (put_urls run.1))).
  - intros. apply Forall_nil_2.
  - intros. apply Forall_nil_2.
  - intros f start h u chunk rq rs Hne Hu Hacc. cbn [fst]. subst rq.
    rewrite put_urls_cons_put, put_urls_error_lines by apply Hrep.
    by apply Forall_singleton.
  - intros f start h u chunk rest end_index rq rs run Hne Hu Hacc IH.
    cbn [fst]. subst rq. rewrite put_urls_cons_put. by apply Forall_cons_2.
Qed.

(** The number of chunks of a loop that ran to the end of the file. *)
Lemma transfer_loop_count server url_error report url size cs :
  0 < cs →
  ∀ f start h,
    (transfer_loop server url_error report url size cs f start h).2 = Ret Break →
    Z.of_nat (length (chunks (transfer_loop server url_error report url size cs f start h).1))
    = (Z.of_nat (length f) + cs - 1) / cs.
Proof.
  intros Hcs.
  apply (transfer_loop_induction server url_error report url size cs
           (λ f start h run, run.2 = Ret Break →
              Z.of_nat (length (chunks run.1))
              = (Z.of_nat (length f) + cs - 1) / cs)).
  - intros f start h Hnil _. rewrite (read_nil cs f Hcs Hnil). simpl.
    symmetry. apply Z.div_small. lia.
  - done.
  - intros f start h u chunk rq rs Hne Hu Hacc. cbn [snd].
    by destruct (report rs _).2.
  - intros f start h u chunk rest end_index rq rs run Hne Hu Hacc IH Hr.
    cbn [fst snd] in *. subst rq. rewrite chunks_cons_put. simpl length.
    rewrite Nat2Z.inj_succ, (IH Hr). subst rest chunk.
    rewrite read_take_drop in * by lia. cbn [fst snd] in *.
    rewrite length_drop.
    destruct (decide (length f ≤ Z.to_nat cs)%nat) as [Hle|Hgt].
    + replace (length f - Z.to_nat cs)%nat with 0%nat by lia.
      assert (length f ≠ 0%nat) by (destruct f; [by rewrite take_nil in Hne|done]).
      rewrite (Z.div_small (Z.of_nat 0 + cs - 1)) by lia.
      apply (Z.div_unique _ _ _ (Z.of_nat (length f) - 1)); lia.
    + replace (Z.of_nat (length f) + cs - 1)
        with ((Z.of_nat (length f - Z.to_nat cs) + cs - 1) + 1 * cs) by lia.
      rewrite Z.div_add by lia. lia.
Qed.
Lemma bind_transfer_run (loop : M LoopExit) sp e0 h :
  (let '(es, r) := bind loop (λ how, match how with
                                     | Break => print (MsgUploaded sp)
                                     | Return => ret tt
                                     end) h in
   (e0 :: es, r)) = transfer_run sp e0 (loop h).
Proof.
  unfold transfer_run, bind.
  destruct (loop h) as [es [[]|c|x]]; simpl; by rewrite ?app_nil_r.
Qed.

(** An upload of [main.py] either sends no chunk and prints no success
    line, or it received a session document with status 200, found the file
    and ran the transfer loop on it. *)
Lemma main_upload_cases server url_error fs tok site drive lp sp h :
  let rq := CreateUploadSession (bearer tok) site drive sp in
  let rs := server h rq in
  let run := Main.upload_file_to_sharepoint server url_error fs tok site drive lp sp h in
  (Forall (λ e, is_put e = false ∧ e ≠ Print (MsgUploaded sp)) run.1 ∧
   run.2 ≠ Raise MissingSchema) ∨
  (∃ doc f, status_code rs = 200 ∧ json rs = Some doc ∧ fs lp = Some f ∧
     run = transfer_run sp (Http rq rs)
             (transfer_loop server url_error (Main.report_chunk_error sp) (uploadUrl doc)
                (Z.of_nat (length f)) Main.chunk_size f 0 (h ++ [Http rq rs]))).
Proof.
  intros rq rs run. subst run. unfold Main.upload_file_to_sharepoint.
  rewrite bind_request. fold rq. cbv zeta. fold rs.
  destruct (decide (status_code rs ≠ 200)) as [|E].
  { left. rewrite bind_response_json. destruct (json rs); simpl.
    - split; [|done]. by repeat apply Forall_cons_2.
    - split; [|done]. by repeat apply Forall_cons_2. }
  apply dec_stable in E.
  rewrite bind_response_json. destruct (json rs) as [doc|] eqn:Hdoc.
  2:{ left. simpl. split; [|done]. by repeat apply Forall_cons_2. }
  destruct (fs lp) as [f|] eqn:Hf.
  2:{ left. simpl. split; [|done]. by repeat apply Forall_cons_2. }
  right. exists doc, f. split_and!; try done. apply bind_transfer_run.
Qed.

Lemma standalone_upload_cases server url_error fs tok site drive lp sp h :
  let rq := CreateUploadSession (bearer tok) site drive sp in
  let rs := server h rq in
  let run :=
    Standalone.upload_file_to_sharepoint server url_error fs tok site drive lp sp h in
  (Forall (λ e, is_put e = false ∧ e ≠ Print (MsgUploaded sp)) run.1 ∧
   (run.2 = Ret tt ∨ run.2 = Raise JSONDecodeError)) ∨
  (∃ doc f, status_code rs = 200 ∧ json rs = Some doc ∧ fs lp = Some f ∧
     Standalone.truthy (uploadUrl doc) = true ∧
     run = transfer_run sp (Http rq rs)
             (transfer_loop server url_error (Standalone.report_chunk_error sp)
                (uploadUrl doc) (Z.of_nat (length f)) Standalone.chunk_size f 0
                (h ++ [Http rq rs]))).
Proof.
  intros rq rs run. subst run. unfold Standalone.upload_file_to_sharepoint.
  destruct (fs lp) as [f|] eqn:Hf.
  2:{ left. simpl. split; [|by left]. by repeat apply Forall_cons_2. }
  rewrite bind_request. fold rq. cbv zeta. fold rs.
  destruct (decide (status_code rs ≠ 200)) as [|E].
  { left. rewrite bind_print, bind_response_json. destruct (json rs); simpl.
    - split; [|by left]. by repeat apply Forall_cons_2.
    - split; [|by right]. by repeat apply Forall_cons_2. }
  apply dec_stable in E.
  rewrite bind_response_json. destruct (json rs) as [doc|] eqn:Hdoc.
  2:{ left. simpl. split; [|by right]. by repeat apply Forall_cons_2. }
  destruct (Standalone.truthy (uploadUrl doc)) eqn:Hu; cbn [negb].
  2:{ left. simpl. split; [|by left]. by repeat apply Forall_cons_2. }
  right. exists doc, f. split_and!; try done. apply bind_transfer_run.
Qed.

Lemma no_put_chunks es :
  Forall (λ e, is_put e = false) es → chunks es = [] ∧ put_urls es = [].
Proof.
  induction 1 as [|e es He _ [IH1 IH2]]; [done|].
  destruct e as [[]| |]; try done.
Qed.

Lemma no_put_run sp es :
  Forall (λ e, is_put e = false ∧ e ≠ Print (MsgUploaded sp)) es →
  chunks es = [] ∧ put_urls es = [] ∧ Print (MsgUploaded sp) ∉ es.
Proof.
  intros H. split_and!.
  - apply no_put_chunks. eapply Forall_impl; [exact H|]. by intros ? [? _].
  - apply no_put_chunks. eapply Forall_impl; [exact H|]. by intros ? [? _].
  - intros Hin. rewrite Forall_forall in H. by destruct (H _ Hin).
Qed.

Lemma transfer_run_facts sp e0 server url_error report url size cs f start h :
  (∀ rs, emits (λ e, is_error_line e = true) (report rs)) →
  is_put e0 = false → e0 ≠ Print (MsgUploaded sp) →
  let loop := transfer_loop server url_error report url size cs f start h in
  chunks (transfer_run sp e0 loop).1 = chunks loop.1 ∧
  put_urls (transfer_run sp e0 loop).1 = put_urls loop.1 ∧
  (Print (MsgUploaded sp) ∈ (transfer_run sp e0 loop).1 ↔ loop.2 = Ret Break).
Proof.
  intros Hrep He0 Hne loop.
  pose proof (transfer_loop_no_uploaded_line server url_error report url size cs f start
                h sp Hrep) as Hno. fold loop in Hno.
  unfold transfer_run. cbn [fst snd].
  assert (chunks [e0] = [] ∧ put_urls [e0] = []) as [Hc Hu].
  { apply no_put_chunks. by apply Forall_singleton. }
  change (e0 :: ?l) with ([e0] ++ l).
  rewrite !chunks_app, !put_urls_app, Hc, Hu.
  split_and!.
  - destruct loop.2 as [[]|c|x]; simpl; by rewrite ?app_nil_r.
  - destruct loop.2 as [[]|c|x]; simpl; by rewrite ?app_nil_r.
  - rewrite !elem_of_app, list_elem_of_singleton. split.
    + intros [?|[?|Hin]]; [congruence|done|].
      destruct loop.2 as [[]|c|x]; try done; by apply elem_of_nil in Hin.
    + intros ->. right. right. by apply list_elem_of_singleton.
Qed.

(** ** The byte ranges of an upload, one by one *)

Lemma put_ranges_cons_put url s e t c rs es :
  put_ranges (Http (PutChunk url s e t c) rs :: es) = (s, e) :: put_ranges es.
Proof. reflexivity. Qed.

Lemma put_ranges_error_lines lines :
  Forall (λ e, is_error_line e = true) lines → put_ranges lines = [].
Proof. intros H. unfold put_ranges. by rewrite puts_error_lines. Qed.

Lemma no_put_puts es : Forall (λ e, is_put e = false) es → puts es = [].
Proof.
  induction 1 as [|e es He _ IH]; [done|].
  destruct e as [[]| |]; try done.
Qed.

Lemma ranges_from_nil fuel cs start : ranges_from fuel cs start start = [].
Proof. destruct fuel; cbn [ranges_from]; [done|]. by rewrite Z.ltb_irrefl. Qed.

(** The first range of a file that is not empty is the range of the chunk
    read first; the other ranges are those of the rest of the file. *)
Lemma ranges_from_read fuel cs f start :
  0 < cs → (read cs f).1 ≠ [] → (length f ≤ fuel)%nat →
  let end_index := start + Z.of_nat (length (read cs f).1) - 1 in
  ∃ fuel', (length (read cs f).2 ≤ fuel')%nat ∧
    ranges_from fuel cs start (start + Z.of_nat (length f))
    = (start, end_index)
      :: ranges_from fuel' cs (end_index + 1)
           (end_index + 1 + Z.of_nat (length (read cs f).2)).
Proof.
  intros Hcs Hne Hfuel end_index.
  pose proof (read_app cs f) as Happ.
  destruct (read_length cs f Hcs) as [Hle Hfull].
  assert (length f = length (read cs f).1 + length (read cs f).2)%nat as Hlen.
  { by rewrite <- length_app, Happ. }
  assert (0 < length (read cs f).1)%nat as Hpos.
  { destruct (read cs f).1; [done|simpl; lia]. }
  destruct fuel as [|fuel']; [lia|]. exists fuel'. split; [lia|].
  cbn [ranges_from]. rewrite (proj2 (Z.ltb_lt _ _)) by lia. cbv zeta.
  assert (Z.min (start + cs) (start + Z.of_nat (length f)) = end_index + 1)
    as ->.
  { destruct (decide ((read cs f).2 = [])) as [E|E].
    - rewrite E in Hlen. simpl in Hlen. subst end_index. lia.
    - specialize (Hfull E). subst end_index. lia. }
  f_equal; [f_equal; lia|]. f_equal. lia.
Qed.

(** The ranges the loop sends are the first ranges of the file, and all of
    them, after which the loop is left by [break], when [requests] takes the
    upload URL and no chunk is rejected. *)
Lemma transfer_loop_ranges server url_error report url size cs :
  0 < cs →
  (∀ rs, emits (λ e, is_error_line e = true) (report rs)) →
  ∀ f start h,
    (λ f start h run,
       ∀ fuel, (length f ≤ fuel)%nat →
         put_ranges run.1
           `prefix_of` ranges_from fuel cs start (start + Z.of_nat (length f)) ∧
         (Forall (λ e, is_rejected_put e = false) run.1 →
          (∀ e, put_target url_error url ≠ inl e) →
          run.2 = Ret Break ∧
          put_ranges run.1
          = ranges_from fuel cs start (start + Z.of_nat (length f))))
      f start h (transfer_loop server url_error report url size cs f start h).
Proof.
  intros Hcs Hrep.
  apply transfer_loop_induction.
  - intros f start h Hnil fuel _. rewrite (read_nil cs f Hcs Hnil).
    cbn [length fst snd]. by rewrite Z.add_0_r, ranges_from_nil.
  - intros f start h e _ Hu fuel _. split; [apply prefix_nil|].
    intros _ Hok. by destruct (Hok e).
  - intros f start h u chunk rq rs Hne Hu Hacc fuel Hfuel. cbn [fst snd].
    destruct (ranges_from_read fuel cs f start Hcs Hne Hfuel)
      as (fuel' & _ & ->).
    subst rq. rewrite put_ranges_cons_put.
    rewrite put_ranges_error_lines by apply Hrep.
    split; [apply prefix_cons, prefix_nil|].
    intros [Hrej _]%Forall_cons. cbn [is_rejected_put] in Hrej.
    fold chunk in Hrej. fold rs in Hrej. by rewrite Hacc in Hrej.
  - intros f start h u chunk rest end_index rq rs run Hne Hu Hacc IH fuel
           Hfuel. cbn [fst snd].
    destruct (ranges_from_read fuel cs f start Hcs Hne Hfuel)
      as (fuel' & Hfuel' & ->).
    destruct (IH fuel' Hfuel') as [Hpre Hall].
    subst rq. rewrite put_ranges_cons_put. split; [by apply prefix_cons|].
    intros [_ Htl]%Forall_cons Hok. by destruct (Hall Htl Hok) as [-> ->].
Qed.

(** A remote store that accepts every chunk rejects none. *)
Lemma transfer_loop_none_rejected server url_error report url size cs :
  (∀ h' u s e t c,
     accepted (status_code (server h' (PutChunk u s e t c))) = true) →
  (∀ rs, emits (λ e, is_error_line e = true) (report rs)) →
  ∀ f start h,
    Forall (λ e, is_rejected_put e = false)
           (transfer_loop server url_error report url size cs f start h).1.
Proof.
  intros Hyes Hrep.
  apply (transfer_loop_induction server url_error report url size cs
           (λ f start h run, Forall (λ e, is_rejected_put e = false) run.1)).
  - intros. apply Forall_nil_2.
  - intros. apply Forall_nil_2.
  - intros f start h u chunk rq rs _ _ Hacc. subst rs rq.
    by rewrite Hyes in Hacc.
  - intros f start h u chunk rest end_index rq rs run _ _ Hacc IH.
    cbn [fst]. apply Forall_cons_2; [|done].
    subst rq. cbn [is_rejected_put]. fold chunk end_index.
    fold rs. by rewrite Hacc.
Qed.

(** The ranges of an upload are those of its transfer loop. *)
Lemma transfer_run_ranges sp e0 server url_error report url cs f h :
  0 < cs →
  (∀ rs, emits (λ e, is_error_line e = true) (report rs)) →
  is_put e0 = false → e0 ≠ Print (MsgUploaded sp) →
  let size := Z.of_nat (length f) in
  let run := transfer_run sp e0
               (transfer_loop server url_error report url size cs f 0 h) in
  put_ranges run.1 `prefix_of` chunk_ranges cs size ∧
  (Forall (λ e, is_rejected_put e = false) run.1 →
   (∀ e, put_target url_error url ≠ inl e) →
   Print (MsgUploaded sp) ∈ run.1 ∧ put_ranges run.1 = chunk_ranges cs size).
Proof.
  intros Hcs Hrep He0 Hne size run.
  pose proof (transfer_loop_ranges server url_error report url size cs Hcs
                Hrep f 0 h (length f) (le_n _)) as [Hpre Hall].
  cbv beta in Hpre, Hall. rewrite Z.add_0_l in Hpre, Hall.
  unfold chunk_ranges. subst size. rewrite Nat2Z.id.
  set (loop := transfer_loop _ _ _ _ _ _ _ _ _) in *.
  assert (put_ranges run.1 = put_ranges loop.1) as Hsame.
  { subst run. unfold transfer_run, put_ranges. cbn [fst].
    change (e0 :: ?l) with ([e0] ++ l). rewrite !puts_app.
    rewrite (no_put_puts [e0]) by (by apply Forall_singleton).
    by destruct loop.2 as [[]|c|x]; cbn [puts omap]; rewrite app_nil_r. }
  rewrite Hsame. split; [done|].
  intros Hno Hok.
  assert (Forall (λ e, is_rejected_put e = false) loop.1) as Hno'.
  { subst run. unfold transfer_run in Hno. cbn [fst] in Hno.
    apply Forall_cons in Hno as [_ Hno]. by apply Forall_app in Hno as [Hno _]. }
  destruct (Hall Hno' Hok) as [Hbreak Heq]. split; [|done].
  by apply (transfer_run_facts sp e0 server url_error report url _ cs f 0 h).
Qed.

(** What an upload that found its file and received a session document with
    status 200 does: it runs the transfer loop on the file. *)
Lemma main_upload_transfer server url_error fs tok site drive lp sp h doc f :
  let rq := CreateUploadSession (bearer tok) site drive sp in
  let rs := server h rq in
  fs lp = Some f → status_code rs = 200 → json rs = Some doc →
  Main.upload_file_to_sharepoint server url_error fs tok site drive lp sp h
  = transfer_run sp (Http rq rs)
      (transfer_loop server url_error (Main.report_chunk_error sp)
         (uploadUrl doc) (Z.of_nat (length f)) Main.chunk_size f 0
         (h ++ [Http rq rs])).
Proof.
  intros rq rs Hf Hst Hdoc. unfold Main.upload_file_to_sharepoint.
  rewrite bind_request. fold rq. cbv zeta. fold rs.
  rewrite decide_False by (by intros ?).
  rewrite bind_response_json, Hdoc, Hf. apply bind_transfer_run.
Qed.

Lemma standalone_upload_transfer server url_error fs tok site drive lp sp h
    doc f :
  let rq := CreateUploadSession (bearer tok) site drive sp in
  let rs := server h rq in
  fs lp = Some f → status_code rs = 200 → json rs = Some doc →
  Standalone.truthy (uploadUrl doc) = true →
  Standalone.upload_file_to_sharepoint server url_error fs tok site drive lp
                                       sp h
  = transfer_run sp (Http rq rs)
      (transfer_loop server url_error (Standalone.report_chunk_error sp)
         (uploadUrl doc) (Z.of_nat (length f)) Standalone.chunk_size f 0
         (h ++ [Http rq rs])).
Proof.
  intros rq rs Hf Hst Hdoc Hu. unfold Standalone.upload_file_to_sharepoint.
  rewrite Hf, bind_request. fold rq. cbv zeta. fold rs.
  rewrite decide_False by (by intros ?).
  rewrite bind_response_json, Hdoc, Hu. cbn [negb]. apply bind_transfer_run.
Qed.

Lemma put_target_truthy url_error url :
  (∀ e, put_target url_error url ≠ inl e) → Standalone.truthy url = true.
Proof.
  intros Hok. destruct url as [u|]; [|by destruct (Hok NoScheme)].
  simpl in *. destruct (decide (u = "")); [by destruct (Hok NoScheme)|done].
Qed.

(** The ranges of the two scripts' uploads are first ranges of the file. *)
Lemma main_upload_ranges_prefix server url_error fs tok site drive lp sp h f :
  fs lp = Some f →
  put_ranges (Main.upload_file_to_sharepoint server url_error fs tok site
                drive lp sp h).1
    `prefix_of` chunk_ranges Main.chunk_size (Z.of_nat (length f)).
Proof.
  intros Hf.
  destruct (main_upload_cases server url_error fs tok site drive lp sp h)
    as [[Hno _]|(doc & f' & _ & _ & Hf' & ->)].
  - unfold put_ranges. rewrite no_put_puts; [apply prefix_nil|].
    eapply Forall_impl; [exact Hno|]. by intros ? [? _].
  - rewrite Hf in Hf'. injection Hf' as <-.
    by apply transfer_run_ranges; [|apply main_report_lines|..].
Qed.

Lemma standalone_upload_ranges_prefix server url_error fs tok site drive lp
    sp h f :
  fs lp = Some f →
  put_ranges (Standalone.upload_file_to_sharepoint server url_error fs tok
                site drive lp sp h).1
    `prefix_of` chunk_ranges Standalone.chunk_size (Z.of_nat (length f)).
Proof.
  intros Hf.
  destruct (standalone_upload_cases server url_error fs tok site drive lp sp h)
    as [[Hno _]|(doc & f' & _ & _ & Hf' & _ & ->)].
  - unfold put_ranges. rewrite no_put_puts; [apply prefix_nil|].
    eapply Forall_impl; [exact Hno|]. by intros ? [? _].
  - rewrite Hf in Hf'. injection Hf' as <-.
    by apply transfer_run_ranges; [|apply standalone_report_lines|..].
Qed.

(** The uploads of the two scripts against a remote store that accepts every
    chunk hold no rejected chunk. *)
Lemma uploads_none_rejected server url_error fs tok site drive lp sp h :
  (∀ h' u s e t c,
     accepted (status_code (server h' (PutChunk u s e t c))) = true) →
  Forall (λ e, is_rejected_put e = false)
         (Main.upload_file_to_sharepoint server url_error fs tok site drive
            lp sp h).1 ∧
  Forall (λ e, is_rejected_put e = false)
         (Standalone.upload_file_to_sharepoint server url_error fs tok site
            drive lp sp h).1.
Proof.
  intros Hyes.
  assert (∀ es, Forall (λ e, is_put e = false ∧ e ≠ Print (MsgUploaded sp)) es →
                Forall (λ e, is_rejected_put e = false) es) as Hleft.
  { intros es Hes. eapply Forall_impl; [exact Hes|].
    intros [[]| |] [? _]; done. }
  assert (∀ report rq rs url size cs f h',
            (∀ rs, emits (λ e, is_error_line e = true) (report rs)) →
            is_put (Http rq rs) = false →
            Forall (λ e, is_rejected_put e = false)
              (transfer_run sp (Http rq rs)
                 (transfer_loop server url_error report url size cs f 0 h')).1)
    as Hright.
  { intros report rq rs url size cs f h' Hrep Hrq. unfold transfer_run.
    cbn [fst]. apply Forall_cons_2; [by destruct rq|].
    apply Forall_app. split; [by apply transfer_loop_none_rejected|].
    destruct (transfer_loop _ _ _ _ _ _ _ _ _).2 as [[]|c|x];
      by repeat constructor. }
  split.
  - destruct (main_upload_cases server url_error fs tok site drive lp sp h)
      as [[Hno _]|(doc & f & _ & _ & _ & ->)]; [by apply Hleft|].
    apply Hright; [apply main_report_lines|done].
  - destruct (standalone_upload_cases server url_error fs tok site drive lp sp
                h) as [[Hno _]|(doc & f & _ & _ & _ & _ & ->)];
      [by apply Hleft|].
    apply Hright; [apply standalone_report_lines|done].
Qed.

(** C2.  Whatever the remote store answers, the chunk submissions of one
    upload of an existing file, by [main.py] and by [sharepoint_upload.py],
    have non-empty byte ranges that start at 0, follow one another without
    gap or overlap in strictly increasing order and never reach beyond the
    file size (so the cursor only grows and never exceeds it), and on a
    transfer that reports success they cover exactly the bytes of the file.
    The ranges sent are always the first of the ranges that cut the file
    into chunks of the script's chunk size.  They are all of these ranges,
    and the upload reports success, whenever the session request was
    answered with status 200 and a document whose upload URL [requests]
    takes, and no chunk was rejected. *)
Theorem upload_byte_ranges server url_error fs tok site drive lp sp h f :
  fs lp = Some f →
  let size := Z.of_nat (length f) in
  let rq := CreateUploadSession (bearer tok) site drive sp in
  let main_es :=
    (Main.upload_file_to_sharepoint server url_error fs tok site drive lp sp
       h).1 in
  let alone_es :=
    (Standalone.upload_file_to_sharepoint server url_error fs tok site drive
       lp sp h).1 in
  byte_ranges_ok size sp main_es ∧
  byte_ranges_ok size sp alone_es ∧
  put_ranges main_es `prefix_of` chunk_ranges Main.chunk_size size ∧
  put_ranges alone_es `prefix_of` chunk_ranges Standalone.chunk_size size ∧
  (∀ doc,
     status_code (server h rq) = 200 → json (server h rq) = Some doc →
     (∀ e, put_target url_error (uploadUrl doc) ≠ inl e) →
     (Forall (λ e, is_rejected_put e = false) main_es →
      Print (MsgUploaded sp) ∈ main_es ∧
      put_ranges main_es = chunk_ranges Main.chunk_size size) ∧
     (Forall (λ e, is_rejected_put e = false) alone_es →
      Print (MsgUploaded sp) ∈ alone_es ∧
      put_ranges alone_es = chunk_ranges Standalone.chunk_size size)).
Proof.
  intros Hf size rq main_es alone_es. split_and!.
  - by apply main_upload_ranges.
  - by apply standalone_upload_ranges.
  - by apply main_upload_ranges_prefix.
  - by apply standalone_upload_ranges_prefix.
  - intros doc Hst Hdoc Hok. subst main_es alone_es. split.
    + rewrite (main_upload_transfer _ _ _ _ _ _ _ _ _ doc f) by done.
      intros Hno.
      by apply transfer_run_ranges; [|apply main_report_lines|..].
    + rewrite (standalone_upload_transfer _ _ _ _ _ _ _ _ _ doc f)
        by (try done; by apply (put_target_truthy url_error)).
      intros Hno.
      by apply transfer_run_ranges; [|apply standalone_report_lines|..].
Qed.

Lemma upload_byte_ranges_witness :
  let main_es :=
    (Main.upload_file_to_sharepoint demo_server demo_url_error demo_big_fs
       (Some "tok") "site" "drive" "/repo/big.bin" "Docs/big.bin" []).1 in
  let alone_es :=
    (Standalone.upload_file_to_sharepoint demo_server demo_url_error
       demo_big_fs (Some "tok") "site" "drive" "/repo/big.bin" "Docs/big.bin"
       []).1 in
  demo_big_fs "/repo/big.bin" = Some demo_big_file ∧
  byte_ranges_ok 4194305 "Docs/big.bin" main_es ∧
  byte_ranges_ok 4194305 "Docs/big.bin" alone_es ∧
  Print (MsgUploaded "Docs/big.bin") ∈ main_es ∧
  put_ranges main_es = [(0, 4194303); (4194304, 4194304)] ∧
  Print (MsgUploaded "Docs/big.bin") ∈ alone_es ∧
  put_ranges alone_es
  = [(0, 1048575); (1048576, 2097151); (2097152, 3145727);
     (3145728, 4194303); (4194304, 4194304)].
Proof.
  intros main_es alone_es.
  assert (Z.of_nat (length demo_big_file) = 4194305) as Hlen.
  { unfold demo_big_file. rewrite length_replicate.
    unfold Main.chunk_size. lia. }
  pose proof (upload_byte_ranges demo_server demo_url_error demo_big_fs
                (Some "tok") "site" "drive" "/repo/big.bin" "Docs/big.bin" []
                demo_big_file eq_refl) as H.
  cbv zeta in H. rewrite Hlen in H. fold main_es alone_es in H.
  destruct H as (Hmain & Halone & _ & _ & Hall).
  destruct (Hall (mkBody [] (Some "https://up")) eq_refl eq_refl)
    as [Hm Ha].
  { intros e He. vm_compute in He. discriminate He. }
  destruct (uploads_none_rejected demo_server demo_url_error demo_big_fs
              (Some "tok") "site" "drive" "/repo/big.bin" "Docs/big.bin" [])
    as [Hno_m Hno_a]; [reflexivity|].
  destruct (Hm Hno_m) as [Hm1 Hm2]. destruct (Ha Hno_a) as [Ha1 Ha2].
  split_and!; [reflexivity|exact Hmain|exact Halone|exact Hm1| |exact Ha1|].
  - rewrite Hm2. reflexivity.
  - rewrite Ha2. reflexivity.
Defined.

(** ** What an upload sends *)

(** X1.  The chunks an upload sends, in order, are consecutive pieces of the
    file: joined they are always a prefix of its content, and the whole
    content when the upload printed its success line.  This holds of
    [main.py] and of [sharepoint_upload.py], whatever the remote store
    answers. *)
Theorem upload_sends_file_content server url_error fs tok site drive lp sp h f :
  fs lp = Some f →
  let main_es :=
    (Main.upload_file_to_sharepoint server url_error fs tok site drive lp sp h).1 in
  let alone_es :=
    (Standalone.upload_file_to_sharepoint server url_error fs tok site drive lp sp h).1 in
  concat (chunks main_es) `prefix_of` f ∧
  concat (chunks alone_es) `prefix_of` f ∧
  (Print (MsgUploaded sp) ∈ main_es → concat (chunks main_es) = f) ∧
  (Print (MsgUploaded sp) ∈ alone_es → concat (chunks alone_es) = f).
Proof.
  intros Hf main_es alone_es.
  assert (∀ report cs url h' (run : list Event * Outcome unit) e0,
            0 < cs →
            (∀ rs, emits (λ e, is_error_line e = true) (report rs)) →
            is_put e0 = false → e0 ≠ Print (MsgUploaded sp) →
            run = transfer_run sp e0
                    (transfer_loop server url_error report url (Z.of_nat (length f)) cs
                                   f 0 h') →
            concat (chunks run.1) `prefix_of` f ∧
            (Print (MsgUploaded sp) ∈ run.1 → concat (chunks run.1) = f))
    as Hloop.
  { intros report cs url h' run e0 Hcs Hrep He0 Hne ->.
    destruct (transfer_run_facts sp e0 server url_error report url (Z.of_nat (length f))
                cs f 0 h' Hrep He0 Hne) as (-> & _ & ->).
    destruct (transfer_loop _ _ _ _ _ _ _ _ _) as [es r] eqn:E.
    destruct (transfer_loop_inv _ _ _ _ _ _ Hcs Hrep _ _ _ _ _ E)
      as (_ & _ & H3 & H4).
    done. }
  assert (∀ es, Forall (λ e, is_put e = false ∧ e ≠ Print (MsgUploaded sp)) es →
                concat (chunks es) `prefix_of` f ∧
                (Print (MsgUploaded sp) ∈ es → concat (chunks es) = f)) as Hnone.
  { intros es (-> & _ & Hno)%no_put_run. split; [apply prefix_nil|done]. }
  assert (concat (chunks main_es) `prefix_of` f ∧
          (Print (MsgUploaded sp) ∈ main_es → concat (chunks main_es) = f))
    as [? ?].
  { subst main_es.
    destruct (main_upload_cases server url_error fs tok site drive lp sp h)
      as [[Hno _]|(doc & f' & _ & _ & Hf' & Hrun)]; [by apply Hnone|].
    rewrite Hf in Hf'. injection Hf' as <-.
    eapply Hloop; [|apply main_report_lines| | |exact Hrun]; done. }
  assert (concat (chunks alone_es) `prefix_of` f ∧
          (Print (MsgUploaded sp) ∈ alone_es → concat (chunks alone_es) = f))
    as [? ?].
  { subst alone_es.
    destruct (standalone_upload_cases server url_error fs tok site drive lp sp h)
      as [[Hno _]|(doc & f' & _ & _ & Hf' & _ & Hrun)]; [by apply Hnone|].
    rewrite Hf in Hf'. injection Hf' as <-.
    eapply Hloop; [|apply standalone_report_lines| | |exact Hrun]; done. }
  done.
Qed.

Lemma upload_sends_file_content_witness :
  demo_fs "/repo/a.txt" = Some ["x"; "y"; "z"]%byte ∧
  concat (chunks (Main.upload_file_to_sharepoint demo_server demo_url_error demo_fs
                    (Some "tok") "site" "drive" "/repo/a.txt" "Docs/a.txt"
                    []).1) = ["x"; "y"; "z"]%byte.
Proof.
  split; [reflexivity|].
  apply (upload_sends_file_content demo_server demo_url_error demo_fs (Some "tok") "site"
           "drive" "/repo/a.txt" "Docs/a.txt" [] ["x"; "y"; "z"]%byte).
  - reflexivity.
  - vm_compute. do 2 right. left.
Defined.
(** X2.  No chunk is empty and none is larger than the chunk size of the
    script, 4 MiB in [main.py] and 1 MiB in [sharepoint_upload.py]; a chunk
    that is followed by another chunk of the same upload has exactly that
    size. *)
Theorem upload_chunk_sizes server url_error fs tok site drive lp sp h i c :
  let main_es :=
    (Main.upload_file_to_sharepoint server url_error fs tok site drive lp sp h).1 in
  let alone_es :=
    (Standalone.upload_file_to_sharepoint server url_error fs tok site drive lp sp h).1 in
  (chunks main_es !! i = Some c →
   0 < Z.of_nat (length c) ≤ Main.chunk_size ∧
   ((S i < length (chunks main_es))%nat →
    Z.of_nat (length c) = Main.chunk_size)) ∧
  (chunks alone_es !! i = Some c →
   0 < Z.of_nat (length c) ≤ Standalone.chunk_size ∧
   ((S i < length (chunks alone_es))%nat →
    Z.of_nat (length c) = Standalone.chunk_size)).
Proof.
  intros main_es alone_es. split.
  - subst main_es.
    destruct (main_upload_cases server url_error fs tok site drive lp sp h)
      as [[(Hno & _ & _)%no_put_run _]|(doc & f & _ & _ & _ & ->)].
    { rewrite Hno. by destruct i. }
    destruct (transfer_run_facts sp
                (Http (CreateUploadSession (bearer tok) site drive sp)
                      (server h (CreateUploadSession (bearer tok) site drive sp)))
                server url_error (Main.report_chunk_error sp) (uploadUrl doc)
                (Z.of_nat (length f)) Main.chunk_size f 0
                (h ++ [Http (CreateUploadSession (bearer tok) site drive sp)
                         (server h (CreateUploadSession (bearer tok) site drive sp))]))
      as (-> & _ & _); [apply main_report_lines|done..|].
    apply transfer_loop_chunk_sizes; [done|apply main_report_lines].
  - subst alone_es.
    destruct (standalone_upload_cases server url_error fs tok site drive lp sp h)
      as [[(Hno & _ & _)%no_put_run _]|(doc & f & _ & _ & _ & _ & ->)].
    { rewrite Hno. by destruct i. }
    destruct (transfer_run_facts sp
                (Http (CreateUploadSession (bearer tok) site drive sp)
                      (server h (CreateUploadSession (bearer tok) site drive sp)))
                server url_error (Standalone.report_chunk_error sp) (uploadUrl doc)
                (Z.of_nat (length f)) Standalone.chunk_size f 0
                (h ++ [Http (CreateUploadSession (bearer tok) site drive sp)
                         (server h (CreateUploadSession (bearer tok) site drive sp))]))
      as (-> & _ & _); [apply standalone_report_lines|done..|].
    apply transfer_loop_chunk_sizes; [done|apply standalone_report_lines].
Qed.

Lemma upload_chunk_sizes_witness :
  chunks (Main.upload_file_to_sharepoint demo_server demo_url_error demo_fs (Some "tok")
            "site" "drive" "/repo/a.txt" "Docs/a.txt" []).1 !! 0%nat
  = Some ["x"; "y"; "z"]%byte ∧
  0 < Z.of_nat (length ["x"; "y"; "z"]%byte) ≤ Main.chunk_size.
Proof.
  assert (chunks (Main.upload_file_to_sharepoint demo_server demo_url_error demo_fs
                    (Some "tok") "site" "drive" "/repo/a.txt" "Docs/a.txt"
                    []).1 !! 0%nat = Some ["x"; "y"; "z"]%byte) as Hc
    by reflexivity.
  split; [exact Hc|].
  exact (proj1 (proj1 (upload_chunk_sizes demo_server demo_url_error demo_fs (Some "tok")
                         "site" "drive" "/repo/a.txt" "Docs/a.txt" [] 0%nat
                         ["x"; "y"; "z"]%byte) Hc)).
Defined.

(** X3.  An upload that printed its success line for a file of [n] bytes
    sent the quotient of [n + chunk size - 1] by the chunk size chunk
    requests, that is [n] over the chunk size rounded up: none for an empty
    file, one for a file of at most one chunk. *)
Theorem successful_upload_chunk_count server url_error fs tok site drive lp sp h f :
  fs lp = Some f →
  let main_es :=
    (Main.upload_file_to_sharepoint server url_error fs tok site drive lp sp h).1 in
  let alone_es :=
    (Standalone.upload_file_to_sharepoint server url_error fs tok site drive lp sp h).1 in
  (Print (MsgUploaded sp) ∈ main_es →
   Z.of_nat (length (chunks main_es))
   = (Z.of_nat (length f) + Main.chunk_size - 1) / Main.chunk_size) ∧
  (Print (MsgUploaded sp) ∈ alone_es →
   Z.of_nat (length (chunks alone_es))
   = (Z.of_nat (length f) + Standalone.chunk_size - 1) / Standalone.chunk_size).
Proof.
  intros Hf main_es alone_es. split.
  - subst main_es.
    destruct (main_upload_cases server url_error fs tok site drive lp sp h)
      as [[(_ & _ & Hno)%no_put_run _]|(doc & f' & _ & _ & Hf' & ->)]; [done|].
    rewrite Hf in Hf'. injection Hf' as <-.
    match goal with |- context [transfer_run sp ?e0 (transfer_loop _ _ ?rep ?u ?sz ?cs ?g ?st ?h0)] =>
      destruct (transfer_run_facts sp e0 server url_error rep u sz cs g st h0)
        as (-> & _ & ->); [apply main_report_lines|done..|] end.
    by apply transfer_loop_count.
  - subst alone_es.
    destruct (standalone_upload_cases server url_error fs tok site drive lp sp h)
      as [[(_ & _ & Hno)%no_put_run _]|(doc & f' & _ & _ & Hf' & _ & ->)]; [done|].
    rewrite Hf in Hf'. injection Hf' as <-.
    match goal with |- context [transfer_run sp ?e0 (transfer_loop _ _ ?rep ?u ?sz ?cs ?g ?st ?h0)] =>
      destruct (transfer_run_facts sp e0 server url_error rep u sz cs g st h0)
        as (-> & _ & ->); [apply standalone_report_lines|done..|] end.
    by apply transfer_loop_count.
Qed.

Lemma successful_upload_chunk_count_witness :
  demo_fs "/repo/a.txt" = Some ["x"; "y"; "z"]%byte ∧
  Z.of_nat (length (chunks (Main.upload_file_to_sharepoint demo_server demo_url_error demo_fs
                              (Some "tok") "site" "drive" "/repo/a.txt"
                              "Docs/a.txt" []).1))
  = (Z.of_nat 3 + Main.chunk_size - 1) / Main.chunk_size.
Proof.
  split; [reflexivity|].
  apply (successful_upload_chunk_count demo_server demo_url_error demo_fs (Some "tok") "site"
           "drive" "/repo/a.txt" "Docs/a.txt" [] ["x"; "y"; "z"]%byte).
  - reflexivity.
  - vm_compute. do 2 right. left.
Defined.

(** X4.  Every chunk of an upload is sent to the [uploadUrl] of the
    document with which the remote store answered, with status 200, the
    session request of that same upload; that URL is not empty. *)
Theorem chunks_go_to_session_url server url_error fs tok site drive lp sp h u :
  let rq := CreateUploadSession (bearer tok) site drive sp in
  let main_es :=
    (Main.upload_file_to_sharepoint server url_error fs tok site drive lp sp h).1 in
  let alone_es :=
    (Standalone.upload_file_to_sharepoint server url_error fs tok site drive lp sp h).1 in
  u ∈ put_urls main_es ∨ u ∈ put_urls alone_es →
  status_code (server h rq) = 200 ∧ u ≠ "" ∧
  ∃ doc, json (server h rq) = Some doc ∧ uploadUrl doc = Some u.
Proof.
  intros rq main_es alone_es.
  assert (∀ url, put_target url_error url = inr u → u ≠ "" ∧ url = Some u) as Htarget.
  { intros [u'|]; simpl; [|done]. destruct (decide (u' = "")); [done|].
    destruct (url_error u'); [done|]. by intros [= ->]. }
  intros [Hin|Hin].
  - subst main_es.
    destruct (main_upload_cases server url_error fs tok site drive lp sp h)
      as [[(_ & Hno & _)%no_put_run _]|(doc & f & Hst & Hdoc & _ & Hrun)].
    { rewrite Hno in Hin. by apply elem_of_nil in Hin. }
    rewrite Hrun in Hin.
    match type of Hin with context [transfer_run sp ?e0 (transfer_loop _ _ ?rep ?url ?sz ?cs ?g ?st ?h0)] =>
      destruct (transfer_run_facts sp e0 server url_error rep url sz cs g st h0)
        as (_ & Hu & _); [apply main_report_lines|done..|];
      rewrite Hu in Hin;
      pose proof (transfer_loop_urls server url_error rep url sz cs (main_report_lines sp)
                    g st h0) as Hall end.
    rewrite Forall_forall in Hall. apply Hall, Htarget in Hin as [? ?]. eauto.
  - subst alone_es.
    destruct (standalone_upload_cases server url_error fs tok site drive lp sp h)
      as [[(_ & Hno & _)%no_put_run _]|(doc & f & Hst & Hdoc & _ & _ & Hrun)].
    { rewrite Hno in Hin. by apply elem_of_nil in Hin. }
    rewrite Hrun in Hin.
    match type of Hin with context [transfer_run sp ?e0 (transfer_loop _ _ ?rep ?url ?sz ?cs ?g ?st ?h0)] =>
      destruct (transfer_run_facts sp e0 server url_error rep url sz cs g st h0)
        as (_ & Hu & _); [apply standalone_report_lines|done..|];
      rewrite Hu in Hin;
      pose proof (transfer_loop_urls server url_error rep url sz cs
                    (standalone_report_lines sp) g st h0) as Hall end.
    rewrite Forall_forall in Hall. apply Hall, Htarget in Hin as [? ?]. eauto.
Qed.

Lemma chunks_go_to_session_url_witness :
  let rq := CreateUploadSession (bearer (Some "tok")) "site" "drive" "Docs/a.txt" in
  status_code (demo_server [] rq) = 200 ∧ "https://up" ≠ "" ∧
  ∃ doc, json (demo_server [] rq) = Some doc ∧ uploadUrl doc = Some "https://up".
Proof.
  apply (chunks_go_to_session_url demo_server demo_url_error demo_fs (Some "tok") "site"
           "drive" "/repo/a.txt" "Docs/a.txt" [] "https://up").
  left. vm_compute. left.
Defined.
(** ** How programs end *)

Lemma ends_with_ret {A} E C (a : A) : ends_with E C (ret a).
Proof. by intros h. Qed.

Lemma ends_with_emit E C e : ends_with E C (emit e).
Proof. by intros h. Qed.

Lemma ends_with_print E C m : ends_with E C (print m).
Proof. by intros h. Qed.

Lemma ends_with_request E C server rq : ends_with E C (request server rq).
Proof. by intros h. Qed.

Lemma ends_with_raise {A} (E : Exn → Prop) C x : E x → ends_with E C (@raise A x).
Proof. by intros H h. Qed.

Lemma ends_with_exit {A} E (C : Z → Prop) c : C c → ends_with E C (@exit A c).
Proof. by intros H h. Qed.

Lemma ends_with_bind {A B} E C (m : M A) (k : A → M B) :
  ends_with E C m → (∀ a, ends_with E C (k a)) → ends_with E C (bind m k).
Proof.
  intros Hm Hk h. rewrite bind_outcome. specialize (Hm h).
  destruct (m h) as [es [a|c|x]]; simpl in *; [apply Hk|done..].
Qed.

Lemma ends_with_for_each {A} E C (l : list A) (body : A → M unit) :
  (∀ x, x ∈ l → ends_with E C (body x)) → ends_with E C (for_each l body).
Proof.
  induction l as [|x l IH]; intros H; simpl; [apply ends_with_ret|].
  apply ends_with_bind; [apply H; left|]. intros _. apply IH.
  intros y Hy. apply H. by right.
Qed.

Lemma ends_with_mono {A} (E E' : Exn → Prop) (C C' : Z → Prop) (m : M A) :
  ends_with E C m → (∀ x, E x → E' x) → (∀ c, C c → C' c) → ends_with E' C' m.
Proof.
  intros Hm HE HC h. specialize (Hm h). destruct (m h).2; auto.
Qed.

Lemma ends_with_response_json (E : Exn → Prop) C rs :
  E JSONDecodeError → ends_with E C (response_json rs).
Proof.
  intros H. unfold response_json.
  destruct (json rs); [apply ends_with_ret|by apply ends_with_raise].
Qed.

(** The loop raises what [requests] raises for a URL it refuses; apart from
    that it ends as its reports do. *)
Lemma ends_with_transfer_loop (E : Exn → Prop) C server url_error report url
    size cs f start :
  (∀ rs, ends_with E C (report rs)) →
  ends_with (λ x, E x ∨ ∃ e, x = url_exn e ∧ put_target url_error url = inl e)
            C (transfer_loop server url_error report url size cs f start).
Proof.
  intros Hrep h. revert f start h.
  apply (transfer_loop_induction server url_error report url size cs
           (λ f start h run,
              match run.2 with
              | Ret _ => True
              | Exit c => C c
              | Raise x =>
                  E x ∨ ∃ e, x = url_exn e ∧ put_target url_error url = inl e
              end)).
  - done.
  - intros. simpl. right. eauto.
  - intros f start h u chunk rq rs _ _ _. cbn [snd].
    specialize (Hrep rs (h ++ [Http rq rs])).
    destruct (report rs _).2; auto.
  - intros f start h u chunk rest end_index rq rs run _ _ _ IH. exact IH.
Qed.

(** With a URL that [requests] refuses, the loop raises at its first chunk,
    if there is one. *)
Lemma transfer_loop_no_url server url_error report url size cs f start h e :
  0 < cs → put_target url_error url = inl e →
  transfer_loop server url_error report url size cs f start h
  = if decide (f = []) then ([], Ret Break) else ([], Raise (url_exn e)).
Proof.
  intros Hcs Hu. rewrite transfer_loop_body.
  pose proof (read_nil cs f Hcs) as Hnil.
  destruct (read cs f) as [[|b c] rest] eqn:R; simpl in *.
  - by rewrite decide_True by auto.
  - rewrite Hu. destruct f; [done|]. by rewrite decide_False.
Qed.

Lemma put_target_falsy url_error url :
  url = None ∨ url = Some "" → put_target url_error url = inl NoScheme.
Proof. by intros [-> | ->]. Qed.

Lemma put_target_refused url_error u e :
  u ≠ "" → url_error u = Some e → put_target url_error (Some u) = inl e.
Proof. intros Hu He. simpl. by rewrite decide_False, He. Qed.


Lemma main_report_ends sp rs :
  ends_with (λ x, x = JSONDecodeError) (λ _, False)
            (Main.report_chunk_error sp rs).
Proof.
  unfold Main.report_chunk_error.
  apply ends_with_bind; [by apply ends_with_response_json|].
  intros _. apply ends_with_print.
Qed.

Lemma standalone_report_ends sp rs :
  ends_with (λ x, x = JSONDecodeError) (λ _, False)
            (Standalone.report_chunk_error sp rs).
Proof.
  unfold Standalone.report_chunk_error.
  apply ends_with_bind; [apply ends_with_print|]. intros _.
  apply ends_with_bind; [by apply ends_with_response_json|].
  intros _. apply ends_with_print.
Qed.

(** X5.  What makes an upload of [main.py] raise right after its session
    request, when that request was answered with status 200 and a JSON
    object: a local file that is not there raises [FileNotFoundError]; for
    a file that is not empty, an upload URL that [requests] refuses raises
    the exception of that refusal, which is [MissingSchema] when the
    document has no [uploadUrl], an empty one, or one without a scheme.  In
    each case the session request is the only thing the upload did. *)
Theorem main_upload_exceptions server url_error fs tok site drive lp sp h doc :
  let rq := CreateUploadSession (bearer tok) site drive sp in
  let rs := server h rq in
  let run :=
    Main.upload_file_to_sharepoint server url_error fs tok site drive lp sp h in
  status_code rs = 200 → json rs = Some doc →
  (fs lp = None → run = ([Http rq rs], Raise FileNotFoundError)) ∧
  (∀ f e, fs lp = Some f → f ≠ [] →
          put_target url_error (uploadUrl doc) = inl e →
          run = ([Http rq rs], Raise (url_exn e))) ∧
  (∀ f, fs lp = Some f → f ≠ [] →
        uploadUrl doc = None ∨ uploadUrl doc = Some "" ∨
        (∃ u, uploadUrl doc = Some u ∧ url_error u = Some NoScheme) →
        run = ([Http rq rs], Raise MissingSchema)).
Proof.
  intros rq rs run Hst Hdoc. subst run.
  unfold Main.upload_file_to_sharepoint.
  rewrite bind_request. fold rq. cbv zeta. fold rs.
  rewrite decide_False by (by intros ?).
  rewrite bind_response_json, Hdoc.
  assert (∀ f e, fs lp = Some f → f ≠ [] →
                 put_target url_error (uploadUrl doc) = inl e →
                 (let '(es, r) :=
                    match fs lp with
                    | Some f =>
                        bind (transfer_loop server url_error
                                (Main.report_chunk_error sp) (uploadUrl doc)
                                (Z.of_nat (length f)) Main.chunk_size f 0)
                             (λ how, match how with
                                     | Break => print (MsgUploaded sp)
                                     | Return => ret tt
                                     end)
                    | None => raise FileNotFoundError
                    end (h ++ [Http rq rs]) in
                  (Http rq rs :: es, r))
                 = ([Http rq rs], Raise (url_exn e))) as Hrefused.
  { intros f e Hf Hne Hu. rewrite Hf. unfold bind.
    rewrite (transfer_loop_no_url _ _ _ _ _ _ _ _ _ e) by done.
    by rewrite decide_False. }
  split_and!.
  - by intros ->.
  - exact Hrefused.
  - intros f Hf Hne Hurl.
    apply (Hrefused f NoScheme Hf Hne).
    destruct Hurl as [Hu|[Hu|(u & Hu & He)]].
    + apply put_target_falsy. by left.
    + apply put_target_falsy. by right.
    + rewrite Hu. simpl. destruct (decide (u = "")); [done|]. by rewrite He.
Qed.

Lemma main_upload_exceptions_witness :
  let rq := CreateUploadSession "Bearer tok" "site" "drive" in
  Main.upload_file_to_sharepoint demo_server demo_url_error demo_fs
    (Some "tok") "site" "drive" "/repo/gone.txt" "Docs/gone.txt" []
  = ([Http (rq "Docs/gone.txt")
           (mkResponse 200 (Some (mkBody [] (Some "https://up"))))],
     Raise FileNotFoundError) ∧
  Main.upload_file_to_sharepoint demo_schemeless_server demo_url_error
    demo_fs (Some "tok") "site" "drive" "/repo/a.txt" "Docs/a.txt" []
  = ([Http (rq "Docs/a.txt") (mkResponse 200 (Some (mkBody [] (Some "up"))))],
     Raise MissingSchema).
Proof.
  intros rq. split.
  - apply (main_upload_exceptions demo_server demo_url_error demo_fs
             (Some "tok") "site" "drive" "/repo/gone.txt" "Docs/gone.txt" []
             (mkBody [] (Some "https://up")) eq_refl eq_refl).
    reflexivity.
  - apply (main_upload_exceptions demo_schemeless_server demo_url_error
             demo_fs (Some "tok") "site" "drive" "/repo/a.txt" "Docs/a.txt"
             [] (mkBody [] (Some "up")) eq_refl eq_refl)
      with (f := ["x"; "y"; "z"]%byte); [reflexivity|done|].
    right. right. by exists "up".
Defined.

(** X6.  The guard of [sharepoint_upload.py] on the upload URL covers a
    missing and an empty URL only.  When the session request for an
    existing file was answered with status 200 and a JSON object: without
    an [uploadUrl], or with an empty one, the upload prints that it could
    not get the URL and returns, having sent no chunk; with any other URL
    that [requests] refuses (one without a scheme, say) the upload of a file
    that is not empty raises the exception of that refusal right after the
    session request. *)
Theorem standalone_upload_exceptions server url_error fs tok site drive lp sp
    h doc f :
  let rq := CreateUploadSession (bearer tok) site drive sp in
  let rs := server h rq in
  let run :=
    Standalone.upload_file_to_sharepoint server url_error fs tok site drive lp
                                         sp h in
  fs lp = Some f → status_code rs = 200 → json rs = Some doc →
  (uploadUrl doc = None ∨ uploadUrl doc = Some "" →
   run = ([Http rq rs; Print (MsgNoUploadUrl sp)], Ret tt)) ∧
  (∀ u e, uploadUrl doc = Some u → u ≠ "" → url_error u = Some e → f ≠ [] →
          run = ([Http rq rs], Raise (url_exn e))).
Proof.
  intros rq rs run Hf Hst Hdoc. subst run.
  unfold Standalone.upload_file_to_sharepoint.
  rewrite Hf, bind_request. fold rq. cbv zeta. fold rs.
  rewrite decide_False by (by intros ?).
  rewrite bind_response_json, Hdoc. split.
  - by intros [-> | ->].
  - intros u e Hu Hne He Hfne. rewrite Hu. simpl.
    rewrite decide_False by done. cbn [negb]. unfold bind.
    rewrite (transfer_loop_no_url _ _ _ _ _ _ _ _ _ e);
      [|done|by apply put_target_refused].
    by rewrite decide_False.
Qed.

Lemma standalone_upload_exceptions_witness :
  Standalone.upload_file_to_sharepoint demo_schemeless_server demo_url_error
    demo_fs (Some "tok") "site" "drive" "/repo/a.txt" "Docs/a.txt" []
  = ([Http (CreateUploadSession "Bearer tok" "site" "drive" "Docs/a.txt")
           (mkResponse 200 (Some (mkBody [] (Some "up"))))],
     Raise MissingSchema).
Proof.
  apply (standalone_upload_exceptions demo_schemeless_server demo_url_error
           demo_fs (Some "tok") "site" "drive" "/repo/a.txt" "Docs/a.txt" []
           (mkBody [] (Some "up")) ["x"; "y"; "z"]%byte eq_refl eq_refl
           eq_refl)
    with (u := "up") (e := NoScheme); done.
Defined.

(** ** The index built by the remote listing *)

Lemma append_eq_self s x : s +:+ x = s → x = "".
Proof. intros E. apply (append_inj_l s). by rewrite append_nil_r. Qed.

Lemma listing_api_path_inj base p1 p2 :
  listing_api_path base p1 = listing_api_path base p2 → p1 = p2.
Proof.
  unfold listing_api_path.
  destruct (decide (p1 = "")) as [->|H1], (decide (p2 = "")) as [->|H2];
    try done.
  - intros E%append_inj_l. symmetry in E. by apply append_eq_self in E.
  - intros E%append_inj_l. by apply append_eq_self in E.
  - intros E. by do 3 apply append_inj_l in E.
Qed.

Lemma listed_mono base tok site drive es es' ip item :
  es ⊆ es' → listed base tok site drive es ip item →
  listed base tok site drive es' ip item.
Proof. intros Hsub (rs & doc & Hin & ?). exists rs, doc. split; [by apply Hsub|done]. Qed.

Lemma listed_nil base tok site drive ip item :
  ¬ listed base tok site drive [] ip item.
Proof. intros (rs & doc & Hin & _). by apply elem_of_nil in Hin. Qed.

Lemma listed_cons_other base tok site drive e es ip item :
  is_listing e = false →
  listed base tok site drive (e :: es) ip item →
  listed base tok site drive es ip item.
Proof.
  intros He (rs & doc & [<-|Hin]%elem_of_cons & ?); [done|].
  exists rs, doc. done.
Qed.

Lemma listed_app base tok site drive es1 es2 ip item :
  listed base tok site drive (es1 ++ es2) ip item →
  listed base tok site drive es1 ip item ∨
  listed base tok site drive es2 ip item.
Proof.
  intros (rs & doc & [Hin|Hin]%elem_of_app & ?); [left|right];
    by exists rs, doc.
Qed.

(** The loop over the items of one listing. *)
Lemma list_items_indexes base tok site drive recurse ip items :
  (∀ p h es sub, recurse p h = (es, Ret sub) →
                 indexes base tok site drive es sub) →
  ∀ acc h es rm,
    Main.list_items recurse ip items acc h = (es, Ret rm) →
    (∀ p id, rm !! p = Some id →
       acc !! p = Some id ∨
       (∃ item, item ∈ items ∧ item_has_file item = true ∧
                p = path_join ip (item_name item) ∧ id = item_id item) ∨
       (∃ ip' item, listed base tok site drive es ip' item ∧
                    item_has_file item = true ∧
                    p = path_join ip' (item_name item) ∧ id = item_id item)) ∧
    dom acc ⊆ dom rm ∧
    (∀ item, item ∈ items → item_has_file item = true →
             path_join ip (item_name item) ∈ dom rm) ∧
    (∀ ip' item, listed base tok site drive es ip' item →
                 item_has_file item = true →
                 path_join ip' (item_name item) ∈ dom rm).
Proof.
  intros Hrec. induction items as [|item items IH]; intros acc h es rm; simpl.
  { intros [= <- <-]. split_and!.
    - auto.
    - done.
    - intros item Hin. by apply elem_of_nil in Hin.
    - intros ip' item H. by apply listed_nil in H. }
  destruct (item_has_file item) eqn:Hfile.
  { intros E. destruct (IH _ _ _ _ E) as (H1 & H2 & H3 & H4). split_and!.
    - intros p id Hp. destruct (H1 p id Hp) as [Hacc|[(it & Hit & ?)|?]].
      + destruct (decide (p = path_join ip (item_name item))) as [->|Hne].
        * rewrite lookup_insert_eq in Hacc. injection Hacc as <-.
          right. left. exists item. split_and!; [left|done..].
        * rewrite lookup_insert_ne in Hacc by done. by left.
      + right. left. exists it. split; [by right|done].
      + by right; right.
    - intros x Hx. apply H2. rewrite dom_insert. apply elem_of_union. by right.
    - intros it [->|Hit]%elem_of_cons Hf; [|by apply H3].
      apply H2. rewrite dom_insert. apply elem_of_union. left.
      by apply elem_of_singleton.
    - done. }
  destruct (item_has_folder item) eqn:Hfolder.
  2:{ intros E. destruct (IH _ _ _ _ E) as (H1 & H2 & H3 & H4). split_and!.
      - intros p id Hp. destruct (H1 p id Hp) as [Hacc|[(it & Hit & ?)|?]];
          [by left| |by right; right].
        right. left. exists it. split; [by right|done].
      - done.
      - intros it [->|Hit]%elem_of_cons Hf; [congruence|by apply H3].
      - done. }
  rewrite bind_emit. set (cp := path_join ip (item_name item)).
  unfold bind. destruct (recurse cp (h ++ [Sleep])) as [es1 [sub|c|x]] eqn:Er;
    [|done..].
  destruct (Main.list_items recurse ip items (sub ∪ acc) _) as [es2 r2] eqn:E.
  intros [= <- ->].
  destruct (IH _ _ _ _ E) as (H1 & H2 & H3 & H4).
  destruct (Hrec _ _ _ _ Er) as [Hs Hc].
  assert (es1 ⊆ Sleep :: es1 ++ es2) as Hsub1.
  { intros e He. right. apply elem_of_app. by left. }
  assert (es2 ⊆ Sleep :: es1 ++ es2) as Hsub2.
  { intros e He. right. apply elem_of_app. by right. }
  split_and!.
  - intros p id Hp. destruct (H1 p id Hp) as [Hacc|[(it & Hit & ?)|(ip' & it & Hl & ?)]].
    + apply lookup_union_Some_raw in Hacc as [Hsubp|[_ Hacc]]; [|by left].
      destruct (Hs p id Hsubp) as (ip' & it & Hl & ?).
      right. right. exists ip', it. split; [|done].
      by apply (listed_mono _ _ _ _ es1).
    + right. left. exists it. split; [by right|done].
    + right. right. exists ip', it. split; [|done].
      by apply (listed_mono _ _ _ _ es2).
  - intros x Hx. apply H2. rewrite dom_union. apply elem_of_union. by right.
  - intros it [->|Hit]%elem_of_cons Hf; [congruence|by apply H3].
  - intros ip' it Hl Hf.
    apply listed_cons_other in Hl; [|done].
    apply listed_app in Hl as [Hl|Hl]; [|by apply H4].
    apply H2. rewrite dom_union. apply elem_of_union. left. by apply Hc.
Qed.

Lemma get_remote_files_indexes server cfg depth tok site drive :
  ∀ item_path h es rm,
    Main.get_remote_files_recursive server cfg depth tok site drive item_path h
    = (es, Ret rm) →
    indexes (Main.SHAREPOINT_BASE_FOLDER cfg) tok site drive es rm.
Proof.
  induction depth as [|depth IH]; intros ip h es rm; simpl; [done|].
  change (if decide (ip = "") then _ else _)
    with (listing_api_path (Main.SHAREPOINT_BASE_FOLDER cfg) ip).
  rewrite bind_request. cbv zeta.
  set (rq := GetChildren _ _ _ _). set (rs := server h rq).
  destruct (Main.is_http_error (status_code rs)) eqn:Herr.
  - destruct (decide (status_code rs = 404)) as [E|E].
    + rewrite bind_print. simpl. intros [= <- <-]. split.
      * intros p id. by rewrite lookup_empty.
      * intros ip' it (rs' & doc & Hin & Herr' & _).
        apply elem_of_cons in Hin as [[= _ <-]|Hin]; [congruence|].
        apply list_elem_of_singleton in Hin. done.
    + rewrite !bind_print. by simpl.
  - rewrite bind_response_json. destruct (json rs) as [doc|] eqn:Hdoc; [|done].
    destruct (Main.list_items _ _ _ _ _) as [es' r] eqn:E.
    intros [= <- ->].
    destruct (list_items_indexes (Main.SHAREPOINT_BASE_FOLDER cfg) tok site
                drive _ ip (value doc) (IH) _ _ _ _ E) as (H1 & H2 & H3 & H4).
    assert (∀ it, it ∈ value doc →
                  listed (Main.SHAREPOINT_BASE_FOLDER cfg) tok site drive
                         (Http rq rs :: es') ip it) as Hhead.
    { intros it Hit. exists rs, doc. split; [left|done]. }
    split.
    + intros p id Hp.
      destruct (H1 p id Hp) as [Hacc|[(it & Hit & ?)|(ip' & it & Hl & ?)]].
      * by rewrite lookup_empty in Hacc.
      * exists ip, it. split; [by apply Hhead|done].
      * exists ip', it. split; [|done].
        apply (listed_mono _ _ _ _ es'); [|done]. intros e He. by right.
    + intros ip' it (rs' & doc' & Hin & Herr' & Hdoc' & Hit) Hf.
      apply elem_of_cons in Hin as [[= Hip <-]|Hin].
      * apply listing_api_path_inj in Hip as ->.
        rewrite Hdoc in Hdoc'. injection Hdoc' as <-. by apply H3.
      * apply H4; [|done]. by exists rs', doc'.
Qed.

(** X7.  When the remote listing of a folder returns an index, its keys are
    exactly the paths of the items with a ['file'] key in the documents
    that answered, without an HTTP error status, the children requests of
    the run, each path being the item's name joined to the path of the
    folder whose listing holds it; and the value of a key is the id of such
    an item. *)
Theorem listing_index_exact server cfg depth tok site drive folder h es rm :
  Main.get_remote_files_recursive server cfg depth tok site drive folder h
  = (es, Ret rm) →
  let base := Main.SHAREPOINT_BASE_FOLDER cfg in
  (∀ p, p ∈ dom rm ↔
        ∃ item_path item,
          listed base tok site drive es item_path item ∧
          item_has_file item = true ∧
          p = path_join item_path (item_name item)) ∧
  (∀ p id, rm !! p = Some id →
     ∃ item_path item,
       listed base tok site drive es item_path item ∧
       item_has_file item = true ∧
       p = path_join item_path (item_name item) ∧ id = item_id item).
Proof.
  intros [Hs Hc]%get_remote_files_indexes base. split; [|exact Hs].
  intros p. split.
  - intros [id Hp]%elem_of_dom. destruct (Hs p id Hp) as (ip & it & ? & ? & ? & _).
    eauto.
  - intros (ip & it & Hl & Hf & ->). by apply Hc.
Qed.
Lemma listing_index_exact_witness :
  let run := Main.get_remote_files_recursive demo_server demo_main_cfg 10
               (Some "tok") "site" "drive" "" [] in
  let rm : gmap string string :=
    <["a.txt" := "id1"]> (<["stale.txt" := "id3"]> ∅) in
  (∀ p, p ∈ dom rm ↔
        ∃ item_path item,
          listed "Docs" (Some "tok") "site" "drive" run.1 item_path item ∧
          item_has_file item = true ∧
          p = path_join item_path (item_name item)) ∧
  (∀ p id, rm !! p = Some id →
     ∃ item_path item,
       listed "Docs" (Some "tok") "site" "drive" run.1 item_path item ∧
       item_has_file item = true ∧
       p = path_join item_path (item_name item) ∧ id = item_id item).
Proof.
  intros run rm.
  apply (listing_index_exact demo_server demo_main_cfg 10 (Some "tok") "site"
           "drive" "" [] run.1 rm).
  vm_compute. reflexivity.
Defined.

(** ** What the remote listing does *)

Lemma emits_list_items (P : Event → Prop) recurse ip items :
  P Sleep → (∀ p, emits P (recurse p)) →
  ∀ acc, emits P (Main.list_items recurse ip items acc).
Proof.
  intros Hs Hrec. induction items as [|item items IH]; intros acc; simpl.
  { apply emits_ret. }
  destruct (item_has_file item); [apply IH|].
  destruct (item_has_folder item); [|apply IH].
  apply emits_bind; [by apply emits_emit|]. intros _.
  apply emits_bind; [apply Hrec|]. intros sub. apply IH.
Qed.

Lemma emits_get_remote_files (P : Event → Prop) server cfg depth tok site drive :
  (∀ ip rs, P (Http (GetChildren (bearer tok) site drive
                       (listing_api_path (Main.SHAREPOINT_BASE_FOLDER cfg) ip))
                    rs)) →
  P Sleep →
  P (Print (MsgFolderNotFound (Main.SHAREPOINT_BASE_FOLDER cfg))) →
  (∀ ip st, P (Print (MsgListError ip st))) →
  P (Print MsgResponseText) →
  ∀ ip, emits P (Main.get_remote_files_recursive server cfg depth tok site
                                                 drive ip).
Proof.
  intros Hreq Hsleep H404 Herr Htext.
  induction depth as [|depth IH]; intros ip; simpl; [apply emits_raise|].
  change (if decide (ip = "") then _ else _)
    with (listing_api_path (Main.SHAREPOINT_BASE_FOLDER cfg) ip).
  apply emits_bind; [by apply emits_request|]. intros rs.
  destruct (Main.is_http_error _).
  - destruct (decide _).
    + apply emits_bind; [by apply emits_print|]. intros _. apply emits_ret.
    + apply emits_bind; [by apply emits_print|]. intros _.
      apply emits_bind; [by apply emits_print|]. intros _. apply emits_exit.
  - apply emits_bind; [apply emits_response_json|]. intros doc.
    by apply emits_list_items.
Qed.

Lemma prefix_append s t : String.prefix s (s +:+ t) = true.
Proof.
  induction s as [|c s IH]; [by destruct t|].
  rewrite append_cons. simpl. by destruct (Ascii.ascii_dec c c).
Qed.

(** X8.  The remote listing only reads, and only below the base folder:
    every request it makes is a children request that carries the caller's
    token, site and drive, for a path that starts with [root:/] followed by
    the base folder; and all it prints are the not-found line and the two
    lines of a failed listing. *)
Theorem listing_only_reads_below_base server cfg depth tok site drive item_path h :
  Forall (λ e, match e with
               | Http rq _ =>
                   ∃ api_path,
                     rq = GetChildren (bearer tok) site drive api_path ∧
                     String.prefix ("root:/" +:+ Main.SHAREPOINT_BASE_FOLDER cfg)
                                   api_path = true
               | Print m =>
                   m = MsgFolderNotFound (Main.SHAREPOINT_BASE_FOLDER cfg) ∨
                   (∃ ip st, m = MsgListError ip st) ∨ m = MsgResponseText
               | Sleep => True
               end)
         (Main.get_remote_files_recursive server cfg depth tok site drive
                                          item_path h).1.
Proof.
  apply emits_get_remote_files; try done; eauto.
  intros ip rs. eexists. split; [done|]. unfold listing_api_path.
  destruct (decide (ip = "")).
  - rewrite <- (append_nil_r ("root:/" +:+ _)) at 2. apply prefix_append.
  - rewrite <- append_assoc. apply prefix_append.
Qed.
(** ** The deletion step, case by case *)

Lemma length_sorted (s : gset string) : length (sorted s) = size s.
Proof. unfold sorted. by rewrite merge_sort_Permutation. Qed.

Lemma emits_delete_loop server cfg tok (rm : gmap string string) l :
  emits (λ e, is_deletion_event e = true)
    (for_each l (λ file_path,
       bind (print (MsgDeleting file_path)) (λ _,
       match rm !! file_path with
       | Some item_id =>
           Main.delete_sharepoint_item server tok (Main.SITE_ID cfg)
                                       (Main.DRIVE_ID cfg) item_id
       | None => raise KeyError
       end))).
Proof.
  apply emits_for_each. intros p _.
  apply emits_bind; [by apply emits_print|]. intros _.
  destruct (rm !! p); [|apply emits_raise].
  unfold Main.delete_sharepoint_item.
  apply emits_bind; [by apply emits_request|].
  intros rs. destruct (decide _); by apply emits_print.
Qed.

Lemma deletion_step_cases server cfg tok local_files depth h :
  let info := Print (MsgInfo "Sync deletions enabled. Comparing remote files with local files...") in
  let run := Main.deletion_step server cfg tok local_files depth h in
  let listing :=
    Main.get_remote_files_recursive server cfg depth tok (Main.SITE_ID cfg)
                                    (Main.DRIVE_ID cfg) "" (h ++ [info]) in
  (Main.SYNC_DELETIONS cfg = false ∧
   run = ([Print MsgDeletionsDisabled], Ret tt)) ∨
  (Main.SYNC_DELETIONS cfg = true ∧ (∀ rm, listing.2 ≠ Ret rm) ∧
   run = (info :: listing.1, finish listing.2)) ∨
  (∃ rm, Main.SYNC_DELETIONS cfg = true ∧ listing.2 = Ret rm ∧
         dom rm ∖ local_files = ∅ ∧
         run = (info :: listing.1 ++ [Print MsgInSync], Ret tt)) ∨
  (∃ rm es, Main.SYNC_DELETIONS cfg = true ∧ listing.2 = Ret rm ∧
            dom rm ∖ local_files ≠ ∅ ∧
            run = (info :: listing.1 ++
                     Print (MsgFoundToDelete (size (dom rm ∖ local_files))) :: es,
                   Ret tt) ∧
            Forall2 (λ p item_id, rm !! p = Some item_id)
                    (sorted (dom rm ∖ local_files)) (deletions es) ∧
            Forall (λ e, is_deletion_event e = true) es).
Proof.
  intros info run listing. subst run. unfold Main.deletion_step.
  destruct (Main.SYNC_DELETIONS cfg); [|by left]. right.
  rewrite (bind_print _ _ h). fold info.
  destruct listing as [les [rm|c|x]] eqn:El; subst listing; cbn [fst snd finish].
  2,3: left; unfold bind; by rewrite El.
  right. rewrite (bind_run _ _ _ _ _ El).
  destruct (decide (dom rm ∖ local_files ≠ ∅)) as [Hne|Heq].
  - right. rewrite bind_print.
    match goal with |- context [for_each ?l ?b ?h0] =>
      pose proof (delete_loop_run server cfg tok rm l h0) as Hloop;
      pose proof (emits_delete_loop server cfg tok rm l h0) as Hev;
      destruct (for_each l b h0) as [es r] eqn:E end.
    destruct Hloop as [Hr Hd].
    { intros p [Hp _]%elem_of_sorted%elem_of_difference. by apply elem_of_dom. }
    cbn [fst snd] in *. subst r. exists rm, es. done.
  - left. apply dec_stable in Heq. exists rm. done.
Qed.

Lemma listing_events server cfg depth tok site drive ip h :
  Forall (λ e, is_delete e = false ∧ is_create_session e = false ∧
               is_put e = false ∧ ∀ n, e ≠ Print (MsgFoundToDelete n))
         (Main.get_remote_files_recursive server cfg depth tok site drive ip h).1.
Proof. by apply emits_get_remote_files. Qed.

Lemma deletion_events_not_found_line es :
  Forall (λ e, is_deletion_event e = true) es →
  Forall (λ e, ∀ n, e ≠ Print (MsgFoundToDelete n)) es.
Proof. intros H. eapply Forall_impl; [exact H|]. by intros [[]|[]|]. Qed.

(** X9.  Whatever the remote store answers, every DELETE request of the
    deletion step is for the id of an item that a children listing of this
    run returned with a ['file'] key, and whose path (its name joined to
    the path of the listed folder) is not in the local set: no item that
    was not listed as a file, and no file present locally, is deleted. *)
Theorem deletions_are_listed_files server cfg tok local_files depth h id :
  let run := Main.deletion_step server cfg tok local_files depth h in
  id ∈ deletions run.1 →
  ∃ item_path item,
    listed (Main.SHAREPOINT_BASE_FOLDER cfg) tok (Main.SITE_ID cfg)
           (Main.DRIVE_ID cfg) run.1 item_path item ∧
    item_has_file item = true ∧ item_id item = id ∧
    path_join item_path (item_name item) ∉ local_files.
Proof.
  intros run. subst run.
  destruct (deletion_step_cases server cfg tok local_files depth h)
    as [[_ ->]|[(_ & _ & ->)|[(rm & _ & _ & _ & ->)|
        (rm & es & _ & Hl & Hne & -> & Hd & Hes)]]]; cbn [fst].
  - by intros ?%elem_of_nil.
  - rewrite deletions_print, deletions_none; [by intros ?%elem_of_nil|].
    eapply Forall_impl; [apply listing_events|]. by intros ? [? _].
  - rewrite deletions_print, deletions_app, deletions_none;
      [by intros ?%elem_of_nil|].
    eapply Forall_impl; [apply listing_events|]. by intros ? [? _].
  - rewrite deletions_print, deletions_app, deletions_print.
    rewrite (deletions_none (_.1)), app_nil_l.
    2:{ eapply Forall_impl; [apply listing_events|]. by intros ? [? _]. }
    intros [i Hi]%list_elem_of_lookup.
    destruct (Forall2_lookup_r _ _ _ _ _ Hd Hi) as (p & Hp & Hrm).
    apply list_elem_of_lookup_2, elem_of_sorted, elem_of_difference in Hp
      as [_ Hlocal].
    match type of Hl with (?run).2 = _ =>
      destruct run as [les r] eqn:El end.
    cbn [fst snd] in *. subst r.
    apply get_remote_files_indexes in El as [Hs _].
    destruct (Hs p id Hrm) as (ip & it & Hlisted & Hf & -> & ->).
    exists ip, it. split_and!; try done.
    apply (listed_mono _ _ _ _ les); [|done].
    intros e He. right. apply elem_of_app. by left.
Qed.
Lemma deletions_are_listed_files_witness :
  let run := Main.deletion_step demo_server demo_main_cfg (Some "tok")
                                {["a.txt"]} 10 [] in
  "id3" ∈ deletions run.1 ∧
  ∃ item_path item,
    listed "Docs" (Some "tok") "site" "drive" run.1 item_path item ∧
    item_has_file item = true ∧ item_id item = "id3" ∧
    path_join item_path (item_name item) ∉ ({["a.txt"]} : gset string).
Proof.
  intros run.
  assert ("id3" ∈ deletions run.1) as Hin by (vm_compute; left).
  split; [exact Hin|].
  exact (deletions_are_listed_files demo_server demo_main_cfg (Some "tok")
           {["a.txt"]} 10 [] "id3" Hin).
Defined.

(** X10.  The number that the deletion step announces in its [Found ...
    remote files to delete] line is the number of DELETE requests it then
    sends, and it is not zero. *)
Theorem announced_deletion_count server cfg tok local_files depth h n :
  let run := Main.deletion_step server cfg tok local_files depth h in
  Print (MsgFoundToDelete n) ∈ run.1 →
  length (deletions run.1) = n ∧ n ≠ 0%nat ∧ run.2 = Ret tt.
Proof.
  intros run. subst run.
  assert (∀ es, Forall (λ e, ∀ n, e ≠ Print (MsgFoundToDelete n)) es →
                Print (MsgFoundToDelete n) ∉ es) as Hnot.
  { intros es Hes Hin. rewrite Forall_forall in Hes. by apply (Hes _ Hin n). }
  assert (∀ h', Forall (λ e, ∀ n, e ≠ Print (MsgFoundToDelete n))
                  (Main.get_remote_files_recursive server cfg depth tok
                     (Main.SITE_ID cfg) (Main.DRIVE_ID cfg) "" h').1) as Hles.
  { intros h'. eapply Forall_impl; [apply listing_events|]. by intros ? (_ & _ & _ & ?). }
  destruct (deletion_step_cases server cfg tok local_files depth h)
    as [[_ ->]|[(_ & _ & ->)|[(rm & _ & _ & _ & ->)|
        (rm & es & _ & Hl & Hne & -> & Hd & Hes)]]]; cbn [fst snd].
  - by intros [?|?%elem_of_nil]%elem_of_cons.
  - intros [?|Hin]%elem_of_cons; [done|]. by apply Hnot in Hin.
  - intros [?|[Hin|Hin]%elem_of_app]%elem_of_cons; [done|by apply Hnot in Hin|].
    by apply list_elem_of_singleton in Hin.
  - intros Hin.
    assert (n = size (dom rm ∖ local_files)) as ->.
    { apply elem_of_cons in Hin as [?|Hin]; [done|].
      apply elem_of_app in Hin as [Hin|Hin]; [by apply Hnot in Hin|].
      apply elem_of_cons in Hin as [[= ->]|Hin]; [done|].
      apply Hnot in Hin; [done|]. by apply deletion_events_not_found_line. }
    split_and!; [|by intros Hz%size_empty_inv%leibniz_equiv|done].
    rewrite deletions_print, deletions_app, deletions_print.
    rewrite (deletions_none (_.1)), app_nil_l.
    2:{ eapply Forall_impl; [apply listing_events|]. by intros ? [? _]. }
    apply Forall2_length in Hd. by rewrite <- Hd, length_sorted.
Qed.

Lemma announced_deletion_count_witness :
  let run := Main.deletion_step demo_server demo_main_cfg (Some "tok")
                                {["a.txt"]} 10 [] in
  Print (MsgFoundToDelete 1) ∈ run.1 ∧
  length (deletions run.1) = 1%nat ∧ 1%nat ≠ 0%nat ∧ run.2 = Ret tt.
Proof.
  intros run.
  assert (Print (MsgFoundToDelete 1) ∈ run.1) as Hin.
  { vm_compute. do 5 right. left. }
  split; [exact Hin|].
  exact (announced_deletion_count demo_server demo_main_cfg (Some "tok")
           {["a.txt"]} 10 [] 1%nat Hin).
Defined.

(** X11.  The first pass against a base folder that does not exist yet:
    when the listing of the base folder is answered with 404, the deletion
    step prints the not-found line and the in-sync line and returns; the
    children request is the only request it made. *)
Theorem missing_base_folder_deletes_nothing server cfg tok local_files depth h :
  let info := Print (MsgInfo "Sync deletions enabled. Comparing remote files with local files...") in
  let rq := GetChildren (bearer tok) (Main.SITE_ID cfg) (Main.DRIVE_ID cfg)
                        ("root:/" +:+ Main.SHAREPOINT_BASE_FOLDER cfg) in
  Main.SYNC_DELETIONS cfg = true →
  status_code (server (h ++ [info]) rq) = 404 →
  Main.deletion_step server cfg tok local_files (S depth) h
  = ([info; Http rq (server (h ++ [info]) rq);
      Print (MsgFolderNotFound (Main.SHAREPOINT_BASE_FOLDER cfg));
      Print MsgInSync], Ret tt).
Proof.
  intros info rq Hsync H404. unfold Main.deletion_step.
  rewrite Hsync, (bind_print _ _ h). fold info.
  assert (Main.get_remote_files_recursive server cfg (S depth) tok
            (Main.SITE_ID cfg) (Main.DRIVE_ID cfg) "" (h ++ [info])
          = ([Http rq (server (h ++ [info]) rq);
              Print (MsgFolderNotFound (Main.SHAREPOINT_BASE_FOLDER cfg))],
             Ret ∅)) as El.
  { simpl. rewrite bind_request. fold rq. cbv zeta. by rewrite H404. }
  rewrite (bind_run _ _ _ _ _ El).
  rewrite decide_False; [done|].
  intros Hne. apply Hne. rewrite dom_empty_L. apply set_eq. intros x.
  rewrite elem_of_difference. split; [by intros [? _]|by intros ?%elem_of_empty].
Qed.

Lemma missing_base_folder_deletes_nothing_witness :
  let cfg := Main.mkConfig "site" "drive" "/repo" "Docs/old" true in
  let info := Print (MsgInfo "Sync deletions enabled. Comparing remote files with local files...") in
  let rq := GetChildren "Bearer tok" "site" "drive" "root:/Docs/old" in
  Main.deletion_step demo_server cfg (Some "tok") {["a.txt"]} 1 []
  = ([info; Http rq (mkResponse 404 None); Print (MsgFolderNotFound "Docs/old");
      Print MsgInSync], Ret tt).
Proof.
  intros cfg info rq.
  apply (missing_base_folder_deletes_nothing demo_server cfg (Some "tok")
           {["a.txt"]} 0 []); reflexivity.
Defined.
(** ** The whole run of [main.py] *)

(** X12.  With deletion-sync disabled, a run of [main.py] never asks for a
    children listing and never sends a DELETE request. *)
Theorem sync_disabled_never_lists_or_deletes server url_error fs cfg spec entries
    token_result depth h :
  Main.SYNC_DELETIONS cfg = false →
  Forall (λ e, is_listing e = false ∧ is_delete e = false)
         (Main.main server url_error fs cfg spec entries token_result depth h).1.
Proof.
  intros Hsync. revert h. unfold Main.main.
  do 2 (apply emits_bind; [by apply emits_print|intros _]).
  apply emits_bind; [by apply emits_get_access_token|intros tok].
  apply emits_bind.
  { unfold Main.deletion_step. rewrite Hsync. by apply emits_print. }
  intros _. apply emits_bind; [|intros _; by apply emits_print].
  by apply emits_upload_step.
Qed.

Lemma sync_disabled_never_lists_or_deletes_witness :
  Forall (λ e, is_listing e = false ∧ is_delete e = false)
         (Main.main demo_server demo_url_error demo_fs
            (Main.mkConfig "site" "drive" "/repo" "Docs" false)
            (Some demo_rules) demo_tree (Some "tok") 10 []).1.
Proof.
  apply (sync_disabled_never_lists_or_deletes demo_server demo_url_error demo_fs
           (Main.mkConfig "site" "drive" "/repo" "Docs" false)
           (Some demo_rules) demo_tree (Some "tok") 10 []).
  reflexivity.
Defined.

Lemma in_two_phases_first {A B} P Q (m : M A) (k : A → M B) h :
  emits P m → (∀ a h', in_two_phases P Q (k a h').1) →
  in_two_phases P Q (bind m k h).1.
Proof.
  intros Hm Hk. rewrite bind_events. specialize (Hm h).
  destruct (m h) as [es [a|c|x]]; cbn [fst snd].
  - destruct (Hk a (h ++ es)) as (b & a' & -> & Hb & Ha).
    exists (es ++ b), a'. rewrite app_assoc. split_and!; [done| |done].
    by apply Forall_app.
  - exists es, []. split_and!; [done|done|apply Forall_nil_2].
  - exists es, []. split_and!; [done|done|apply Forall_nil_2].
Qed.

Lemma in_two_phases_second {A} P Q (m : M A) h :
  emits Q m → in_two_phases P Q (m h).1.
Proof.
  intros Hm. exists [], (m h).1. split_and!; [done|apply Forall_nil_2|apply Hm].
Qed.

(** X13.  A run of [main.py] deletes before it uploads: its events split
    into a first part without any upload-session or chunk request and a
    second part without any children or DELETE request. *)
Theorem deletions_precede_uploads server url_error fs cfg spec entries token_result
    depth h :
  in_two_phases
    (λ e, is_create_session e = false ∧ is_put e = false)
    (λ e, is_listing e = false ∧ is_delete e = false)
    (Main.main server url_error fs cfg spec entries token_result depth h).1.
Proof.
  unfold Main.main.
  do 2 (apply in_two_phases_first; [by apply emits_print|intros _ ?]).
  apply in_two_phases_first; [by apply emits_get_access_token|intros tok ?].
  apply in_two_phases_first; [apply emits_deletion_step|intros _ ?].
  apply in_two_phases_second.
  apply emits_bind; [|intros _; by apply emits_print].
  by apply emits_upload_step.
Qed.

Lemma ends_with_list_items E C recurse ip items :
  (∀ p, ends_with E C (recurse p)) →
  ∀ acc, ends_with E C (Main.list_items recurse ip items acc).
Proof.
  intros Hrec. induction items as [|item items IH]; intros acc; simpl.
  { apply ends_with_ret. }
  destruct (item_has_file item); [apply IH|].
  destruct (item_has_folder item); [|apply IH].
  apply ends_with_bind; [apply ends_with_emit|]. intros _.
  apply ends_with_bind; [apply Hrec|]. intros sub. apply IH.
Qed.

Lemma ends_with_get_remote_files server cfg depth tok site drive :
  ∀ ip, ends_with (λ x, x = RecursionError ∨ x = JSONDecodeError) (λ c, c = 1)
          (Main.get_remote_files_recursive server cfg depth tok site drive ip).
Proof.
  induction depth as [|depth IH]; intros ip; simpl.
  { apply ends_with_raise. by left. }
  apply ends_with_bind; [apply ends_with_request|]. intros rs.
  destruct (Main.is_http_error _).
  - destruct (decide _).
    + apply ends_with_bind; [apply ends_with_print|]. intros _. apply ends_with_ret.
    + apply ends_with_bind; [apply ends_with_print|]. intros _.
      apply ends_with_bind; [apply ends_with_print|]. intros _.
      by apply ends_with_exit.
  - apply ends_with_bind; [apply ends_with_response_json; by right|].
    intros doc. by apply ends_with_list_items.
Qed.

Lemma ends_with_delete_item E C server tok site drive item_id :
  ends_with E C (Main.delete_sharepoint_item server tok site drive item_id).
Proof.
  unfold Main.delete_sharepoint_item.
  apply ends_with_bind; [apply ends_with_request|].
  intros rs. destruct (decide _); apply ends_with_print.
Qed.

Lemma ends_with_deletion_step server cfg tok local_files depth :
  ends_with (λ x, x = RecursionError ∨ x = JSONDecodeError) (λ c, c = 1)
            (Main.deletion_step server cfg tok local_files depth).
Proof.
  unfold Main.deletion_step.
  destruct (Main.SYNC_DELETIONS cfg); [|apply ends_with_print].
  apply ends_with_bind; [apply ends_with_print|]. intros _.
  apply ends_with_bind; [apply ends_with_get_remote_files|]. intros rm.
  destruct (decide _); [|apply ends_with_print].
  apply ends_with_bind; [apply ends_with_print|]. intros _.
  apply ends_with_for_each.
  intros p [[id Hp]%elem_of_dom _]%elem_of_sorted%elem_of_difference.
  apply ends_with_bind; [apply ends_with_print|]. intros _.
  rewrite Hp. apply ends_with_delete_item.
Qed.

Lemma url_exn_not_key_error e : url_exn e ≠ KeyError.
Proof. by destruct e. Qed.

Lemma ends_with_main_upload server url_error fs tok site drive lp sp :
  ends_with (λ x, x = JSONDecodeError ∨ x = FileNotFoundError ∨
                  ∃ e, x = url_exn e) (λ _, False)
            (Main.upload_file_to_sharepoint server url_error fs tok site drive
                                            lp sp).
Proof.
  unfold Main.upload_file_to_sharepoint.
  apply ends_with_bind; [apply ends_with_request|]. intros rs.
  destruct (decide _).
  { apply ends_with_bind; [apply ends_with_response_json; by left|].
    intros _. apply ends_with_print. }
  apply ends_with_bind; [apply ends_with_response_json; by left|].
  intros doc. destruct (fs lp); [|apply ends_with_raise; auto].
  apply ends_with_bind.
  - eapply ends_with_mono;
      [apply ends_with_transfer_loop, main_report_ends| |done].
    intros x [->|(e & -> & _)]; eauto.
  - intros []; [apply ends_with_print|apply ends_with_ret].
Qed.

Lemma ends_with_get_access_token E C result :
  ends_with E C (Main.get_access_token result).
Proof.
  unfold Main.get_access_token. destruct result.
  - apply ends_with_bind; [apply ends_with_print|intros; apply ends_with_ret].
  - repeat (apply ends_with_bind; [apply ends_with_print|intros _]).
    apply ends_with_ret.
Qed.

(** X14.  However the remote store answers, a run of [main.py] never
    raises the [KeyError] of the lookup [remote_files_map[file_path]] of
    line 163: every path of the deletion set is a key of the index.  And
    when the run exits, it exits with status 1. *)
Theorem main_never_raises_key_error server url_error fs cfg spec entries
    token_result depth :
  ends_with (λ x, x ≠ KeyError) (λ c, c = 1)
            (Main.main server url_error fs cfg spec entries token_result depth).
Proof.
  unfold Main.main.
  do 2 (apply ends_with_bind; [apply ends_with_print|intros _]).
  apply ends_with_bind; [apply ends_with_get_access_token|intros tok].
  apply ends_with_bind.
  { eapply ends_with_mono; [apply ends_with_deletion_step| |done].
    by intros x [->| ->]. }
  intros _. apply ends_with_bind; [|intros _; apply ends_with_print].
  unfold Main.upload_step.
  apply ends_with_bind; [apply ends_with_print|intros _].
  apply ends_with_for_each. intros p _.
  eapply ends_with_mono; [apply ends_with_main_upload| |done].
  intros x [->|[->|[e ->]]]; [done|done|apply url_exn_not_key_error].
Qed.




(** ** Paths, locally and remotely *)

(** X16.  The listing and the local scan name a file alike.  The listing
    reaches a nested folder by joining, from the empty path, one folder
    name after the other with [os.path.join] (line 70), and records a file
    under the folder path joined with its name; for names that are valid
    entry names this is the ["/"]-separated relative path that the local
    scan computes for the file with the same names (lines 144-146), and the
    children request for a nested folder asks for the base folder, ["/"]
    and that relative path. *)
Theorem remote_key_is_relative_path base comps :
  Forall (λ n, valid_name n = true) comps → comps ≠ [] →
  foldl path_join "" comps = relpath comps ∧
  listing_api_path base (foldl path_join "" comps)
  = "root:/" +:+ base +:+ "/" +:+ relpath comps.
Proof.
  intros Hvalid Hne.
  assert (foldl path_join "" comps = relpath comps) as E.
  { clear base. induction comps as [|d l IH] using rev_ind; [done|].
    rewrite foldl_app. simpl.
    apply Forall_app in Hvalid as [Hl [Hd _]%Forall_cons].
    destruct l as [|a l].
    { simpl. unfold path_join. by destruct (starts_with_sep d). }
    rewrite IH by done. unfold path_join.
    rewrite (valid_name_not_abs d Hd).
    destruct (relpath_no_trailing_sep (a :: l) Hl) as [Hne' Hends]; [done|].
    rewrite decide_False by done. rewrite Hends.
    by rewrite relpath_snoc. }
  split; [done|]. rewrite E. unfold listing_api_path.
  rewrite decide_False; [done|].
  by destruct (relpath_no_trailing_sep comps Hvalid Hne).
Qed.

Lemma remote_key_is_relative_path_witness :
  foldl path_join "" ["sub"; "build"; "o"] = relpath ["sub"; "build"; "o"] ∧
  listing_api_path "Docs" (foldl path_join "" ["sub"; "build"; "o"])
  = "root:/" +:+ "Docs" +:+ "/" +:+ relpath ["sub"; "build"; "o"].
Proof.
  apply (remote_key_is_relative_path "Docs" ["sub"; "build"; "o"]).
  - repeat constructor.
  - done.
Defined.

(** X17.  Two different files of a well-formed tree never share a relative
    path, a local path or a destination path: joining a fixed first
    component (the local directory, the base folder) with the relative
    paths of two files gives the same string only if they are the same file
    in the same directory. *)
Theorem distinct_files_distinct_paths entries a dirs1 f1 dirs2 f2 :
  wf_tree entries = true →
  has_file entries dirs1 f1 → has_file entries dirs2 f2 →
  path_join a (relpath (dirs1 ++ [f1])) = path_join a (relpath (dirs2 ++ [f2])) →
  dirs1 = dirs2 ∧ f1 = f2.
Proof.
  intros Hwf H1 H2 E.
  pose proof (has_file_valid _ _ _ Hwf H1) as Hv1.
  pose proof (has_file_valid _ _ _ Hwf H2) as Hv2.
  apply path_join_inj in E.
  - apply relpath_inj in E; [by apply app_inj_tail in E|done|done|..];
      by intros [_ ?]%app_nil.
  - apply relpath_not_abs; [done|]. by intros [_ ?]%app_nil.
  - apply relpath_not_abs; [done|]. by intros [_ ?]%app_nil.
Qed.

Lemma distinct_files_distinct_paths_witness :
  wf_tree demo_tree = true ∧
  ∀ dirs2 f2, has_file demo_tree dirs2 f2 →
    path_join "Docs" (relpath (["sub"] ++ ["b.txt"]))
    = path_join "Docs" (relpath (dirs2 ++ [f2])) →
    ["sub"] = dirs2 ∧ "b.txt" = f2.
Proof.
  split; [reflexivity|]. intros dirs2 f2 H2 E.
  apply (distinct_files_distinct_paths demo_tree "Docs" ["sub"] "b.txt" dirs2 f2);
    [reflexivity| |exact H2|exact E].
  eexists. split; [|left]. simpl. eexists. split; [|reflexivity].
  do 2 right. left.
Defined.

(** A file whose directories survived the pruning and which no rule
    matches is not ignored. *)
Lemma kept_not_ignored spec dirs f :
  Forall (λ n, valid_name n = true) (dirs ++ [f]) →
  path_kept spec [] dirs → file_kept spec (relpath (dirs ++ [f])) →
  ¬ ignored spec dirs f.
Proof.
  intros Hvalid Hk Hfk (rules & Hspec & [Hm|(pre & Hpne & Hpre & Hm)]).
  - specialize (Hfk rules Hspec). unfold match_file in Hfk.
    rewrite normalize_relpath in Hfk; [congruence|done|].
    by intros [_ ?]%app_nil.
  - apply Forall_app in Hvalid as [Hdirs _].
    pose proof (path_kept_prefix spec [] dirs pre rules Hk Hdirs Hpne Hpre Hspec).
    simpl in *. congruence.
Qed.

(** X18.  The local path set of [main.py] holds nothing but files of the
    tree: each of its members is the relative path of a regular file that
    lies under no directory named [.git] and is not ignored; it is not
    absolute and is left unchanged by the normalisation of the matcher. *)
Theorem local_set_holds_tree_files cfg spec entries p :
  wf_tree entries = true → p ∈ Main.local_scan cfg spec entries →
  ∃ dirs f, has_file entries dirs f ∧ p = relpath (dirs ++ [f]) ∧
            (".git" ∉ dirs) ∧ ¬ ignored spec dirs f ∧
            starts_with_sep p = false ∧ normalize_file p = p.
Proof.
  intros Hwf Hin.
  destruct (local_scan_sound _ _ _ _ Hwf Hin) as (dirs & f & -> & Hf & Hk & Hfk).
  pose proof (has_file_valid _ _ _ Hwf Hf) as Hvalid.
  assert (dirs ++ [f] ≠ []) as Hne by (by intros [_ ?]%app_nil).
  exists dirs, f. split_and!; try done.
  - by apply path_kept_no_git in Hk.
  - by apply kept_not_ignored.
  - by apply relpath_not_abs.
  - by apply normalize_relpath.
Qed.

Lemma local_set_holds_tree_files_witness :
  wf_tree demo_tree = true ∧
  "sub/b.txt" ∈ Main.local_scan demo_main_cfg (Some demo_rules) demo_tree ∧
  ∃ dirs f, has_file demo_tree dirs f ∧ "sub/b.txt" = relpath (dirs ++ [f]) ∧
            (".git" ∉ dirs) ∧ ¬ ignored (Some demo_rules) dirs f ∧
            starts_with_sep "sub/b.txt" = false ∧
            normalize_file "sub/b.txt" = "sub/b.txt".
Proof.
  assert ("sub/b.txt" ∈ Main.local_scan demo_main_cfg (Some demo_rules) demo_tree)
    as Hin.
  { apply (bool_decide_unpack (_ ∈ _)). vm_compute. exact I. }
  split; [reflexivity|]. split; [exact Hin|].
  exact (local_set_holds_tree_files demo_main_cfg (Some demo_rules) demo_tree
           "sub/b.txt" eq_refl Hin).
Defined.
(** ** The two scripts side by side *)

Lemma walk_dir_top spec e :
  ∀ top top' rel0 root rel files,
    (root, rel, files) ∈ walk_dir spec top rel0 e →
    ∃ root', (root', rel, files) ∈ walk_dir spec top' rel0 e.
Proof.
  induction e as [n|n entries IH] using Entry_induction.
  { intros top top' rel0 root rel files Hin. by apply elem_of_nil in Hin. }
  intros top top' rel0 root rel files. simpl.
  intros [[= -> -> ->]|Hin]%elem_of_cons.
  { exists top'. left. }
  apply list_elem_of_In, in_flat_map in Hin as (e' & He' & Hin).
  apply list_elem_of_In in Hin.
  rewrite Forall_forall in IH.
  destruct e' as [?|d sub]; [by apply elem_of_nil in Hin|].
  destruct (decide (d ∈ _)) as [Hd|] eqn:Hdec; [|by apply elem_of_nil in Hin].
  destruct (IH _ (proj2 (list_elem_of_In _ _) He') _ (path_join top' d) _ _ _ _ Hin)
    as [root' Hin'].
  exists root'. right. apply list_elem_of_In, in_flat_map.
  exists (Dir d sub). split; [done|]. rewrite Hdec. by apply list_elem_of_In.
Qed.

(** Every upload session of a run of [sharepoint_upload.py] is for a file
    that the walk yielded and that no rule matches. *)
Lemma standalone_sessions_kept server url_error fs cfg spec entries token_result h sp :
  sp ∈ sessions (Standalone.main server url_error fs cfg spec (Some entries)
                                 token_result h).1 →
  ∃ root rel files f,
    (root, rel, files)
      ∈ os_walk spec (Standalone.LOCAL_DIRECTORY_PATH cfg) entries ∧
    f ∈ files ∧ file_kept spec (relpath (rel ++ [f])) ∧
    sp = path_join (Standalone.SHAREPOINT_BASE_FOLDER cfg) (relpath (rel ++ [f])).
Proof.
  intros (a & s & d & rs & Hin)%elem_of_sessions.
  set (P := λ e, match e with
                 | Http (CreateUploadSession _ _ _ sp) _ =>
                     ∃ root rel files f,
                       (root, rel, files)
                         ∈ os_walk spec (Standalone.LOCAL_DIRECTORY_PATH cfg)
                                   entries ∧
                       f ∈ files ∧ file_kept spec (relpath (rel ++ [f])) ∧
                       sp = path_join (Standalone.SHAREPOINT_BASE_FOLDER cfg)
                                      (relpath (rel ++ [f]))
                 | _ => True
                 end).
  assert (emits P (Standalone.main server url_error fs cfg spec (Some entries) token_result))
    as Hemits.
  { unfold Standalone.main.
    destruct (Standalone.contains _ _); [by apply emits_print|].
    apply emits_bind.
    { unfold Standalone.get_access_token. destruct token_result.
      - apply emits_bind; [by apply emits_print|intros; apply emits_ret].
      - repeat (apply emits_bind; [by apply emits_print|intros _]).
        apply emits_ret. }
    intros tok. destruct (Standalone.truthy tok); [|apply emits_ret].
    apply emits_bind; [by apply emits_print|intros _].
    apply emits_get_gitignore_spec; [done|].
    apply emits_bind; [|intros _; by apply emits_print].
    apply emits_for_each. intros [[root rel] files] Hw.
    unfold Standalone.upload_files. apply emits_for_each. intros f Hf.
    destruct (match spec with Some _ => _ | None => _ end) eqn:Hm;
      [by apply emits_print|].
    apply emits_standalone_upload; try done.
    intros rs'. simpl. exists root, rel, files, f. split_and!; try done.
    intros rules ->. done. }
  specialize (Hemits h). rewrite Forall_forall in Hemits.
  apply (Hemits _ Hin).
Qed.

(** X19.  The two scripts select the same files: every upload session of a
    run of [sharepoint_upload.py] is for the base folder joined with a path
    of the local set that [main.py] computes for the same tree and the same
    rules. *)
Theorem standalone_uploads_the_local_set server url_error fs acfg cfg spec entries
    token_result h sp :
  sp ∈ sessions (Standalone.main server url_error fs acfg spec (Some entries)
                                 token_result h).1 →
  ∃ p, p ∈ Main.local_scan cfg spec entries ∧
       sp = path_join (Standalone.SHAREPOINT_BASE_FOLDER acfg) p.
Proof.
  intros (root & rel & files & f & Hw & Hf & Hk & ->)%standalone_sessions_kept.
  exists (relpath (rel ++ [f])). split; [|done].
  apply elem_of_local_scan.
  destruct (walk_dir_top spec _ _ (Main.LOCAL_DIRECTORY_PATH cfg) _ _ _ _ Hw)
    as [root' Hw'].
  by exists root', rel, files, f.
Qed.

Lemma standalone_uploads_the_local_set_witness :
  "Docs/sub/b.txt"
    ∈ sessions (Standalone.main demo_server demo_url_error demo_fs demo_alone_cfg
                  (Some demo_rules) (Some demo_tree) (Some "tok") []).1 ∧
  ∃ p, p ∈ Main.local_scan demo_main_cfg (Some demo_rules) demo_tree ∧
       "Docs/sub/b.txt" = path_join "Docs" p.
Proof.
  assert ("Docs/sub/b.txt"
            ∈ sessions (Standalone.main demo_server demo_url_error demo_fs demo_alone_cfg
                          (Some demo_rules) (Some demo_tree) (Some "tok") []).1)
    as Hin.
  { vm_compute. right. left. }
  split; [exact Hin|].
  exact (standalone_uploads_the_local_set demo_server demo_url_error demo_fs demo_alone_cfg
           demo_main_cfg (Some demo_rules) demo_tree (Some "tok") []
           "Docs/sub/b.txt" Hin).
Defined.

(** X20.  Neither script uploads anything but kept files: for a
    well-formed tree, every upload session of a run of [main.py] or of
    [sharepoint_upload.py] is for the base folder joined with the relative
    path of a regular file of the tree that is not ignored and lies under no
    directory named [.git]. *)
Theorem uploads_only_kept_files server url_error fs cfg acfg spec entries token_result
    depth h sp :
  wf_tree entries = true →
  sp ∈ sessions (Main.main server url_error fs cfg spec entries token_result depth h).1 ∨
  sp ∈ sessions (Standalone.main server url_error fs acfg spec (Some entries)
                                 token_result h).1 →
  ∃ base dirs f,
    (base = Main.SHAREPOINT_BASE_FOLDER cfg ∨
     base = Standalone.SHAREPOINT_BASE_FOLDER acfg) ∧
    sp = path_join base (relpath (dirs ++ [f])) ∧
    has_file entries dirs f ∧ (".git" ∉ dirs) ∧ ¬ ignored spec dirs f.
Proof.
  intros Hwf.
  assert (∀ p, p ∈ Main.local_scan cfg spec entries →
               ∃ dirs f, p = relpath (dirs ++ [f]) ∧ has_file entries dirs f ∧
                         (".git" ∉ dirs) ∧ ¬ ignored spec dirs f) as Hscan.
  { intros p Hp.
    destruct (local_scan_sound _ _ _ _ Hwf Hp) as (dirs & f & -> & Hf & Hk & Hfk).
    exists dirs, f. split_and!; [done|done|by apply path_kept_no_git in Hk|].
    apply kept_not_ignored; [|done..]. by apply has_file_valid with (1 := Hwf). }
  intros [Hin|Hin].
  - apply main_sessions in Hin as (p & Hp & ->).
    destruct (Hscan p Hp) as (dirs & f & -> & ? & ? & ?).
    exists (Main.SHAREPOINT_BASE_FOLDER cfg), dirs, f. split_and!; auto.
  - apply standalone_sessions_kept in Hin
      as (root & rel & files & f' & Hw & Hf' & Hk & ->).
    destruct (walk_dir_top spec _ _ (Main.LOCAL_DIRECTORY_PATH cfg) _ _ _ _ Hw)
      as [root' Hw'].
    destruct (Hscan (relpath (rel ++ [f']))) as (dirs & f & E & ? & ? & ?).
    { apply elem_of_local_scan. by exists root', rel, files, f'. }
    exists (Standalone.SHAREPOINT_BASE_FOLDER acfg), dirs, f.
    rewrite E. split_and!; auto.
Qed.

Lemma uploads_only_kept_files_witness :
  wf_tree demo_tree = true ∧
  ∃ base dirs f,
    (base = "Docs" ∨ base = "Docs") ∧
    "Docs/sub/b.txt" = path_join base (relpath (dirs ++ [f])) ∧
    has_file demo_tree dirs f ∧ (".git" ∉ dirs) ∧
    ¬ ignored (Some demo_rules) dirs f.
Proof.
  split; [reflexivity|].
  apply (uploads_only_kept_files demo_server demo_url_error demo_fs demo_main_cfg
           demo_alone_cfg (Some demo_rules) demo_tree (Some "tok") 10 []
           "Docs/sub/b.txt"); [reflexivity|].
  left. vm_compute. right. left.
Defined.

Lemma contains_substring needle pre post :
  Standalone.contains needle (pre +:+ needle +:+ post) = true.
Proof.
  induction pre as [|c pre IH].
  - change (Standalone.contains needle (needle +:+ post) = true).
    pose proof (prefix_append needle post) as Hp.
    destruct (needle +:+ post) as [|c s].
    + change (String.prefix needle "" || false = true). by rewrite Hp.
    + change (String.prefix needle (String c s) || Standalone.contains needle s
              = true).
      by rewrite Hp.
  - rewrite append_cons. simpl. rewrite IH. apply orb_true_r.
Qed.

(** X21.  [sharepoint_upload.py] does nothing against the remote store, and
    returns, when its tenant id still has the placeholder [YOUR_TENANT_ID]
    somewhere in it, when the local directory does not exist, or when the
    token it obtained is missing or empty. *)
Theorem standalone_guard_makes_no_request server url_error fs cfg gitignore dir
    token_result h :
  (∃ pre post, Standalone.TENANT_ID cfg = pre +:+ "YOUR_TENANT_ID" +:+ post) ∨
  dir = None ∨ token_result = None ∨ token_result = Some "" →
  let run := Standalone.main server url_error fs cfg gitignore dir token_result h in
  Forall (λ e, is_request e = false) run.1 ∧ run.2 = Ret tt.
Proof.
  intros Hguard run. subst run. unfold Standalone.main.
  destruct dir as [entries|]; [|split; [by repeat constructor|done]].
  destruct (Standalone.contains _ _) eqn:Hc; [split; [by repeat constructor|done]|].
  destruct Hguard as [(pre & post & E)|[?|Htok]]; [|done|].
  { by rewrite E, contains_substring in Hc. }
  destruct Htok as [-> | ->]; simpl; split; by repeat constructor.
Qed.

Lemma standalone_guard_makes_no_request_witness :
  let cfg := Standalone.mkConfig "id-YOUR_TENANT_ID-here" "site" "drive"
                                 "/repo" "Docs" in
  let run := Standalone.main demo_server demo_url_error demo_fs cfg (Some demo_rules)
                             (Some demo_tree) (Some "tok") [] in
  Forall (λ e, is_request e = false) run.1 ∧ run.2 = Ret tt.
Proof.
  intros cfg.
  apply (standalone_guard_makes_no_request demo_server demo_url_error demo_fs cfg
           (Some demo_rules) (Some demo_tree) (Some "tok") []).
  left. exists "id-", "-here". reflexivity.
Defined.

(** ** Sessions *)

(** X22.  As long as no exception is raised (every file of the local set
    can be read, every response carries a JSON document, and a session
    opened with status 200 comes with an upload URL that [requests] takes:
    one that is there, is not empty and passes its URL check, so that a URL
    without a scheme does not qualify), the upload loop of [main.py]
    returns and opens exactly one session per path of the local set, in
    sorted order, for the base folder joined with the path; whatever the
    statuses of the session and chunk requests were. *)
Theorem one_session_per_local_file server url_error fs cfg tok local_files h :
  (∀ p, p ∈ local_files →
        is_Some (fs (path_join (Main.LOCAL_DIRECTORY_PATH cfg) p))) →
  (∀ h' rq, is_Some (json (server h' rq))) →
  (∀ h' rq doc, is_create_session (Http rq (server h' rq)) = true →
                status_code (server h' rq) = 200 →
                json (server h' rq) = Some doc →
                (∀ e, put_target url_error (uploadUrl doc) ≠ inl e)) →
  let run := Main.upload_step server url_error fs cfg tok local_files h in
  run.2 = Ret tt ∧
  sessions run.1 = path_join (Main.SHAREPOINT_BASE_FOLDER cfg) <$> sorted local_files ∧
  Sorted String.le (sorted local_files) ∧ NoDup (sorted local_files) ∧
  (∀ p, p ∈ sorted local_files ↔ p ∈ local_files).
Proof.
  intros Hfs Hjson Hurl run.
  destruct (upload_step_run server url_error fs cfg tok local_files h Hfs Hjson Hurl)
    as [Hr Hs].
  split_and!; [done|done|apply Sorted_sorted|apply NoDup_sorted|].
  intros p. apply elem_of_sorted.
Qed.

Lemma one_session_per_local_file_witness :
  let run := Main.upload_step demo_flaky_server demo_url_error demo_fs demo_main_cfg
               (Some "tok") ({["a.txt"; "sub/b.txt"]} : gset string) [] in
  run.2 = Ret tt ∧
  sessions run.1
  = path_join "Docs" <$> sorted ({["a.txt"; "sub/b.txt"]} : gset string).
Proof.
  intros run.
  destruct (one_session_per_local_file demo_flaky_server demo_url_error demo_fs demo_main_cfg
              (Some "tok") ({["a.txt"; "sub/b.txt"]} : gset string) [])
    as (Hr & Hs & _).
  - intros p [->%elem_of_singleton| ->%elem_of_singleton]%elem_of_union;
      vm_compute; eauto.
  - intros h' [a s d p|a s d i|a s d sp|u s e t c]; simpl; eauto.
    destruct (decide (sp = "Docs/sub/b.txt")); simpl; eauto.
  - intros h' [a s d p|a s d i|a s d sp|u s e t c] doc; simpl; try done.
    destruct (decide (sp = "Docs/sub/b.txt")); simpl; [done|].
    by intros _ _ [= <-].
  - split; [exact Hr|exact Hs].
Defined.

(** X23.  An upload of [main.py] always begins with its session request
    and makes no other session request; an upload of
    [sharepoint_upload.py] does the same when the local file exists. *)
Theorem upload_opens_one_session_first server url_error fs tok site drive lp sp h :
  let rq := CreateUploadSession (bearer tok) site drive sp in
  let main_es :=
    (Main.upload_file_to_sharepoint server url_error fs tok site drive lp sp h).1 in
  let alone_es :=
    (Standalone.upload_file_to_sharepoint server url_error fs tok site drive lp sp h).1 in
  (∃ rest, main_es = Http rq (server h rq) :: rest ∧
           Forall (λ e, is_create_session e = false) rest) ∧
  (is_Some (fs lp) →
   ∃ rest, alone_es = Http rq (server h rq) :: rest ∧
           Forall (λ e, is_create_session e = false) rest).
Proof.
  intros rq main_es alone_es.
  assert (∀ report url size cs f h',
            (∀ rs, emits (λ e, is_error_line e = true) (report rs)) →
            Forall (λ e, is_create_session e = false)
                   (bind (transfer_loop server url_error report url size cs f 0)
                         (λ how, match how with
                                 | Break => print (MsgUploaded sp)
                                 | Return => ret tt
                                 end) h').1) as Hloop.
  { intros report url size cs f h' Hrep. revert h'. apply emits_bind.
    - apply emits_transfer_loop; [done|]. intros rs.
      eapply emits_mono; [apply Hrep|]. by intros [[]|[]|].
    - intros []; [by apply emits_print|apply emits_ret]. }
  split.
  - subst main_es. unfold Main.upload_file_to_sharepoint.
    rewrite bind_request. fold rq. cbv zeta. rewrite run_cons_events.
    eexists. split; [done|].
    destruct (decide _).
    { rewrite bind_response_json. destruct (json _); by repeat constructor. }
    rewrite bind_response_json. destruct (json _); [|by repeat constructor].
    destruct (fs lp); [|by repeat constructor].
    apply Hloop, main_report_lines.
  - intros [f Hf]. subst alone_es. unfold Standalone.upload_file_to_sharepoint.
    rewrite Hf, bind_request. fold rq. cbv zeta. rewrite run_cons_events.
    eexists. split; [done|].
    destruct (decide _).
    { rewrite bind_print, bind_response_json.
      destruct (json _); by repeat constructor. }
    rewrite bind_response_json. destruct (json _); [|by repeat constructor].
    destruct (Standalone.truthy _); cbn [negb]; [|by repeat constructor].
    apply Hloop, standalone_report_lines.
Qed.

(** ** Chunks are sent one after the other *)

Lemma put_statuses_error_lines lines :
  Forall (λ e, is_error_line e = true) lines → put_statuses lines = [].
Proof.
  induction 1 as [|e es He _ IH]; [done|].
  destruct e as [[]|[]|]; try done; exact IH.
Qed.

Lemma put_statuses_no_put es :
  Forall (λ e, is_put e = false) es → put_statuses es = [].
Proof.
  induction 1 as [|e es He _ IH]; [done|].
  destruct e as [[]| |]; try done.
Qed.

Lemma put_statuses_app es1 es2 :
  put_statuses (es1 ++ es2) = put_statuses es1 ++ put_statuses es2.
Proof. apply omap_app. Qed.

(** In the loop, every chunk but the last was accepted, and so was the last
    when the loop ended by [break]. *)
Lemma transfer_loop_statuses server url_error report url size cs :
  (∀ rs, emits (λ e, is_error_line e = true) (report rs)) →
  ∀ f start h,
    let run := transfer_loop server url_error report url size cs f start h in
    (∀ i st, put_statuses run.1 !! i = Some st →
             (S i < length (put_statuses run.1))%nat → accepted st = true) ∧
    (run.2 = Ret Break → Forall (λ st, accepted st = true) (put_statuses run.1)).
Proof.
  intros Hrep.
  apply (transfer_loop_induction server url_error report url size cs
           (λ f start h run,
              (∀ i st, put_statuses run.1 !! i = Some st →
                       (S i < length (put_statuses run.1))%nat →
                       accepted st = true) ∧
              (run.2 = Ret Break →
               Forall (λ st, accepted st = true) (put_statuses run.1)))).
  - intros. split; [by intros []|]. intros _. apply Forall_nil_2.
  - intros. split; [by intros []|done].
  - intros f start h u chunk rq rs _ _ _. cbn [fst snd]. subst rq.
    change (put_statuses (Http (PutChunk ?a ?b ?c ?d ?e) ?r :: ?l))
      with (status_code r :: put_statuses l).
    rewrite put_statuses_error_lines by apply Hrep. split.
    + intros [|i] st; simpl; [lia|done].
    + by destruct (report rs _).2.
  - intros f start h u chunk rest end_index rq rs run _ _ Hacc [IH1 IH2].
    cbn [fst snd]. subst rq.
    change (put_statuses (Http (PutChunk ?a ?b ?c ?d ?e) ?r :: ?l))
      with (status_code r :: put_statuses l).
    split.
    + intros [|i] st; simpl.
      * by intros [= <-] _.
      * intros Hi Hlen. apply (IH1 i st Hi). lia.
    + intros Hr. apply Forall_cons_2; [done|by apply IH2].
Qed.

(** X24.  Within one upload a chunk is sent only after every earlier chunk
    was accepted (answered with a status from 200 to 204): only the last
    chunk request of an upload can have been rejected, so nothing follows a
    rejected chunk and no chunk is sent twice; and when the upload printed
    its success line every chunk was accepted. *)
Theorem chunks_follow_accepted_chunks server url_error fs tok site drive lp sp h :
  let main_es :=
    (Main.upload_file_to_sharepoint server url_error fs tok site drive lp sp h).1 in
  let alone_es :=
    (Standalone.upload_file_to_sharepoint server url_error fs tok site drive lp sp h).1 in
  (∀ i st, (put_statuses main_es !! i = Some st ∧
            (S i < length (put_statuses main_es))%nat) ∨
           (put_statuses alone_es !! i = Some st ∧
            (S i < length (put_statuses alone_es))%nat) →
           accepted st = true) ∧
  (Print (MsgUploaded sp) ∈ main_es →
   Forall (λ st, accepted st = true) (put_statuses main_es)) ∧
  (Print (MsgUploaded sp) ∈ alone_es →
   Forall (λ st, accepted st = true) (put_statuses alone_es)).
Proof.
  intros main_es alone_es.
  assert (∀ report cs url f h' e0 (run : list Event * Outcome unit),
            (∀ rs, emits (λ e, is_error_line e = true) (report rs)) →
            is_put e0 = false → e0 ≠ Print (MsgUploaded sp) →
            run = transfer_run sp e0
                    (transfer_loop server url_error report url (Z.of_nat (length f)) cs
                                   f 0 h') →
            (∀ i st, put_statuses run.1 !! i = Some st →
                     (S i < length (put_statuses run.1))%nat →
                     accepted st = true) ∧
            (Print (MsgUploaded sp) ∈ run.1 →
             Forall (λ st, accepted st = true) (put_statuses run.1)))
    as Hloop.
  { intros report cs url f h' e0 run Hrep He0 Hne ->.
    destruct (transfer_run_facts sp e0 server url_error report url (Z.of_nat (length f))
                cs f 0 h' Hrep He0 Hne) as (_ & _ & ->).
    destruct (transfer_loop_statuses server url_error report url (Z.of_nat (length f)) cs
                Hrep f 0 h') as [H1 H2].
    unfold transfer_run. cbn [fst].
    change (e0 :: ?l) with ([e0] ++ l).
    rewrite !put_statuses_app.
    rewrite (put_statuses_no_put [e0]) by (by apply Forall_singleton).
    replace (put_statuses match (transfer_loop server url_error report url
                                   (Z.of_nat (length f)) cs f 0 h').2 with
                          | Ret Break => [Print (MsgUploaded sp)]
                          | _ => []
                          end) with (@nil Z)
      by (by destruct (transfer_loop _ _ _ _ _ _ _ _ _).2 as [[]|?|?]).
    rewrite app_nil_l, app_nil_r. done. }
  assert (∀ es, Forall (λ e, is_put e = false ∧ e ≠ Print (MsgUploaded sp)) es →
                (∀ i st, put_statuses es !! i = Some st →
                         (S i < length (put_statuses es))%nat →
                         accepted st = true) ∧
                (Print (MsgUploaded sp) ∈ es →
                 Forall (λ st, accepted st = true) (put_statuses es))) as Hnone.
  { intros es Hes. rewrite put_statuses_no_put.
    - split; [by intros []|]. intros _. apply Forall_nil_2.
    - eapply Forall_impl; [exact Hes|]. by intros ? [? _]. }
  assert ((∀ i st, put_statuses main_es !! i = Some st →
                   (S i < length (put_statuses main_es))%nat →
                   accepted st = true) ∧
          (Print (MsgUploaded sp) ∈ main_es →
           Forall (λ st, accepted st = true) (put_statuses main_es)))
    as [Hm1 Hm2].
  { subst main_es.
    destruct (main_upload_cases server url_error fs tok site drive lp sp h)
      as [[Hno _]|(doc & f & _ & _ & _ & Hrun)]; [by apply Hnone|].
    eapply Hloop; [apply main_report_lines| | |exact Hrun]; done. }
  assert ((∀ i st, put_statuses alone_es !! i = Some st →
                   (S i < length (put_statuses alone_es))%nat →
                   accepted st = true) ∧
          (Print (MsgUploaded sp) ∈ alone_es →
           Forall (λ st, accepted st = true) (put_statuses alone_es)))
    as [Ha1 Ha2].
  { subst alone_es.
    destruct (standalone_upload_cases server url_error fs tok site drive lp sp h)
      as [[Hno _]|(doc & f & _ & _ & _ & _ & Hrun)]; [by apply Hnone|].
    eapply Hloop; [apply standalone_report_lines| | |exact Hrun]; done. }
  split_and!; [|done..].
  intros i st [[? ?]|[? ?]]; eauto.
Qed.

(** ** Where the requests go *)

(** X25.  Every children, DELETE and upload-session request of a run of
    [main.py] carries the header [Bearer] followed by the token that was
    obtained (the text [None] when none was) and addresses the configured
    site and drive; so does every upload-session request of a run of
    [sharepoint_upload.py]. *)
Theorem requests_carry_token_site_and_drive server url_error fs cfg acfg spec entries
    dir token_result depth h :
  Forall (addressed_to (bearer token_result) (Main.SITE_ID cfg)
                       (Main.DRIVE_ID cfg))
         (Main.main server url_error fs cfg spec entries token_result depth h).1 ∧
  Forall (addressed_to (bearer token_result) (Standalone.SITE_ID acfg)
                       (Standalone.DRIVE_ID acfg))
         (Standalone.main server url_error fs acfg spec dir token_result h).1.
Proof.
  split.
  - revert h. unfold Main.main.
    do 2 (apply emits_bind; [by apply emits_print|intros _]).
    assert (∀ k : option string → M unit,
              emits (addressed_to (bearer token_result) (Main.SITE_ID cfg)
                                  (Main.DRIVE_ID cfg)) (k token_result) →
              emits (addressed_to (bearer token_result) (Main.SITE_ID cfg)
                                  (Main.DRIVE_ID cfg))
                    (bind (Main.get_access_token token_result) k)) as Htok.
    { intros k Hk h. unfold Main.get_access_token. destruct token_result.
      - rewrite bind_assoc, bind_print, bind_ret_l. rewrite run_cons_events.
        apply Forall_cons_2; [done|apply Hk].
      - rewrite !bind_assoc, bind_print, run_cons_events.
        apply Forall_cons_2; [done|].
        rewrite !bind_assoc, bind_print, run_cons_events.
        apply Forall_cons_2; [done|].
        rewrite !bind_assoc, bind_print, run_cons_events.
        apply Forall_cons_2; [done|].
        rewrite !bind_assoc, bind_print, run_cons_events.
        apply Forall_cons_2; [done|].
        rewrite bind_ret_l. apply Hk. }
    apply Htok.
    apply emits_bind.
    { unfold Main.deletion_step. destruct (Main.SYNC_DELETIONS cfg);
        [|by apply emits_print].
      apply emits_bind; [by apply emits_print|]. intros _.
      apply emits_bind; [by apply emits_get_remote_files|].
      intros rm. destruct (decide _); [|by apply emits_print].
      apply emits_bind; [by apply emits_print|]. intros _.
      apply emits_for_each. intros p _.
      apply emits_bind; [by apply emits_print|]. intros _.
      destruct (rm !! p); [|apply emits_raise].
      by apply emits_delete_item. }
    intros _. apply emits_bind; [|intros _; by apply emits_print].
    unfold Main.upload_step.
    apply emits_bind; [by apply emits_print|]. intros _.
    apply emits_for_each. intros p _. by apply emits_main_upload.
  - revert h. unfold Standalone.main. destruct dir as [entries'|].
    2:{ apply emits_bind; [by apply emits_print|]. intros _. by apply emits_print. }
    destruct (Standalone.contains _ _); [by apply emits_print|].
    intros h. unfold Standalone.get_access_token. destruct token_result as [t|].
    2:{ by repeat constructor. }
    rewrite bind_assoc, bind_print, bind_ret_l, run_cons_events.
    apply Forall_cons_2; [done|].
    destruct (Standalone.truthy (Some t)); [|apply Forall_nil_2].
    match goal with |- Forall _ (?m ?h0).1 =>
      generalize h0;
      change (emits (addressed_to (bearer (Some t)) (Standalone.SITE_ID acfg)
                                  (Standalone.DRIVE_ID acfg)) m) end.
    apply emits_bind; [by apply emits_print|intros _].
    apply emits_get_gitignore_spec; [done|].
    apply emits_bind; [|intros _; by apply emits_print].
    apply emits_for_each. intros [[root rel] files] _.
    unfold Standalone.upload_files. apply emits_for_each. intros f _.
    destruct (match spec with Some _ => _ | None => _ end);
      [by apply emits_print|].
    by apply emits_standalone_upload.
Qed.
